(** * Kimera-PGMO incremental mesh compression

    A shallow embedding of [MeshCompression::compressAndIntegrate] (the flat
    and the voxblox block overload) and [MeshCompression::pruneStoredMesh]
    from [src/compression/MeshCompression.cpp], and of
    [OctreeCompression::compressAndIntegrate] from
    [src/compression/OctreeCompression.cpp].

    Conventions of the embedding:
    - [size_t] indices are [nat]; the source never lets them wrap (every
      subtraction is guarded or follows a [push_back]).
    - [double] time stamps are [Z] in a fixed unit: the code only stores and
      compares them, and the comparison is total on the stamps modelled.
    - [pcl::PointXYZ] and [pcl::PointXYZRGBA] are abstract: the compressor
      never computes with coordinates, it hands them to the spatial index.
    - [std::map] and [std::unordered_map] are [gmap]; [operator[]] on a map
      inserts a default value when the key is absent, [insert] keeps an
      existing entry.
    - a C++ exception, a failed [assert] and an unchecked out-of-bounds
      [operator[]] on a vector end the call; the member fields and the
      caller's output buffers keep what was written before. The [assert]s
      on the data ([mesh_block.x.size() % 3 == 0] and the one on converged
      vertices) are taken as compiled in; the [nullptr] ones are not
      modelled, the output buffers always exist.
    - the overload for [pcl::PolygonMesh] only converts the cloud and calls
      the overload for vertices and surfaces; it is not modelled. *)

From stdpp Require Import gmap list.
From Stdlib Require Import ZArith Lia.


(** ** Abnormal termination *)

Inductive exn : Type :=
  | BackendFailure   (* thrown by the spatial index *)
  | OutOfRange       (* std::out_of_range thrown by [.at()] *)
  | OutOfBounds      (* unchecked [operator[]] past the end: undefined *)
  | AssertionFailed. (* a failed [assert] *)

Inductive result (A : Type) : Type :=
  | Ret (a : A)
  | Fail (e : exn).
Arguments Ret {A} a.
Arguments Fail {A} e.

(** ** The virtual interface of [MeshCompression]

    [checkIfVertexUnique p &idx] returns [true] when no stored vertex is
    close to [p]; otherwise it returns [false] and sets [idx]. Here the
    answer is [None] for "unique" and [Some idx] otherwise. *)

Class Backend : Type := {
  Point : Type;
  Vertex : Type;
  xyz : Vertex → Point;
  Structure : Type;
  TempStructure : Type;
  emptyStructure : Structure;
  reInitializeStructure : list Point → result Structure;
  checkIfVertexUnique : Structure → Point → result (option nat);
  updateStructure : Structure → list Point → result Structure;
  initializeTempStructure : list Point → result TempStructure;
  checkIfVertexTempUnique : TempStructure → Point → result (option nat);
  updateTempStructure : TempStructure → list Point → result TempStructure;
}.

(** A surface is a [pcl::Vertices]: a vector of vertex indices. *)
Abbreviation Surface := (list nat).

(** Voxblox block index and a mesh block after [ExtractPoint] has been
    applied to each of its [x.size()] entries. *)
Abbreviation BlockIndex := (Z * Z * Z)%type.

Section compression.
Context `{B : Backend}.

Record MeshBlock : Type := {
  block_index : BlockIndex;
  block_points : list Vertex;
}.

(** ** The member fields *)

Record Store : Type := {
  active_vertices_xyz : list Point;
  all_vertices : list Vertex;
  active_vertices_index : list nat;
  vertices_latest_time : list Z;
  polygons : list Surface;
  adjacent_polygons : gmap nat (list nat);
  structure : Structure;
}.

Definition empty_store : Store :=
  {| active_vertices_xyz := []; all_vertices := [];
     active_vertices_index := []; vertices_latest_time := [];
     polygons := []; adjacent_polygons := ∅; structure := emptyStructure |}.

(** ** What a call can write to: the members and the output buffers.
    [R] is the type of the remapping ([unordered_map<size_t,size_t>] or
    [VoxbloxIndexMapping]). *)

Record Heap (R : Type) : Type := {
  store : Store;
  new_vertices : list Vertex;
  new_triangles : list Surface;
  new_indices : list nat;
  remapping : R;
}.
Arguments store {R} h.
Arguments new_vertices {R} h.
Arguments new_triangles {R} h.
Arguments new_indices {R} h.
Arguments remapping {R} h.

Definition fresh_heap {R} (s : Store) (r : R) : Heap R :=
  {| store := s; new_vertices := []; new_triangles := [];
     new_indices := []; remapping := r |}.

Inductive outcome (R A : Type) : Type :=
  | Normal (a : A) (h : Heap R)
  | Throw (e : exn) (h : Heap R).
Arguments Normal {R A} a h.
Arguments Throw {R A} e h.

Definition final_heap {R A} (o : outcome R A) : Heap R :=
  match o with Normal _ h => h | Throw _ h => h end.

Definition Run (R A : Type) : Type := Heap R → outcome R A.

#[global] Instance Run_ret {R} : MRet (Run R) := λ A a h, Normal a h.
#[global] Instance Run_bind {R} : MBind (Run R) := λ A C f m h,
  match m h with
  | Normal a h' => f a h'
  | Throw e h' => Throw e h'
  end.

Definition throw {R A} (e : exn) : Run R A := λ h, Throw e h.
Definition gets {R A} (f : Heap R → A) : Run R A := λ h, Normal (f h) h.
Definition modify {R} (f : Heap R → Heap R) : Run R unit := λ h, Normal () (f h).

(** A call into the spatial index. *)
Definition call {R A} (r : result A) : Run R A :=
  match r with Ret a => mret a | Fail e => throw e end.

(** [v[i]] and [v.at(i)]. *)
Definition index {R A} (v : list A) (i : nat) : Run R A :=
  match v !! i with Some a => mret a | None => throw OutOfBounds end.
Definition at_ {R A} (v : list A) (i : nat) : Run R A :=
  match v !! i with Some a => mret a | None => throw OutOfRange end.

Fixpoint foldM {R A C} (f : C → A → Run R C) (l : list A) (c : C) : Run R C :=
  match l with
  | [] => mret c
  | a :: l' => c' ← f c a; foldM f l' c'
  end.

Fixpoint forM {R A C} (f : A → Run R C) (l : list A) : Run R (list C) :=
  match l with
  | [] => mret []
  | a :: l' => c ← f a; cs ← forM f l'; mret (c :: cs)
  end.

(** Updates of single fields. *)
Definition with_store {R} (f : Store → Store) (h : Heap R) : Heap R :=
  {| store := f (store h); new_vertices := new_vertices h;
     new_triangles := new_triangles h; new_indices := new_indices h;
     remapping := remapping h |}.
Definition with_new_vertices {R} (f : list Vertex → list Vertex) (h : Heap R) : Heap R :=
  {| store := store h; new_vertices := f (new_vertices h);
     new_triangles := new_triangles h; new_indices := new_indices h;
     remapping := remapping h |}.
Definition with_new_triangles {R} (f : list Surface → list Surface) (h : Heap R) : Heap R :=
  {| store := store h; new_vertices := new_vertices h;
     new_triangles := f (new_triangles h); new_indices := new_indices h;
     remapping := remapping h |}.
Definition with_new_indices {R} (f : list nat → list nat) (h : Heap R) : Heap R :=
  {| store := store h; new_vertices := new_vertices h;
     new_triangles := new_triangles h; new_indices := f (new_indices h);
     remapping := remapping h |}.
Definition with_remapping {R} (f : R → R) (h : Heap R) : Heap R :=
  {| store := store h; new_vertices := new_vertices h;
     new_triangles := new_triangles h; new_indices := new_indices h;
     remapping := f (remapping h) |}.

Definition push_active_xyz (p : Point) (s : Store) : Store :=
  {| active_vertices_xyz := active_vertices_xyz s ++ [p];
     all_vertices := all_vertices s;
     active_vertices_index := active_vertices_index s;
     vertices_latest_time := vertices_latest_time s;
     polygons := polygons s; adjacent_polygons := adjacent_polygons s;
     structure := structure s |}.
Definition set_structure (t : Structure) (s : Store) : Store :=
  {| active_vertices_xyz := active_vertices_xyz s;
     all_vertices := all_vertices s;
     active_vertices_index := active_vertices_index s;
     vertices_latest_time := vertices_latest_time s;
     polygons := polygons s; adjacent_polygons := adjacent_polygons s;
     structure := t |}.
Definition push_all_vertices (p : Vertex) (s : Store) : Store :=
  {| active_vertices_xyz := active_vertices_xyz s;
     all_vertices := all_vertices s ++ [p];
     active_vertices_index := active_vertices_index s;
     vertices_latest_time := vertices_latest_time s;
     polygons := polygons s; adjacent_polygons := adjacent_polygons s;
     structure := structure s |}.
Definition push_active_index (v : nat) (s : Store) : Store :=
  {| active_vertices_xyz := active_vertices_xyz s;
     all_vertices := all_vertices s;
     active_vertices_index := active_vertices_index s ++ [v];
     vertices_latest_time := vertices_latest_time s;
     polygons := polygons s; adjacent_polygons := adjacent_polygons s;
     structure := structure s |}.
Definition set_latest_time (f : list Z → list Z) (s : Store) : Store :=
  {| active_vertices_xyz := active_vertices_xyz s;
     all_vertices := all_vertices s;
     active_vertices_index := active_vertices_index s;
     vertices_latest_time := f (vertices_latest_time s);
     polygons := polygons s; adjacent_polygons := adjacent_polygons s;
     structure := structure s |}.
Definition push_polygon (t : Surface) (s : Store) : Store :=
  {| active_vertices_xyz := active_vertices_xyz s;
     all_vertices := all_vertices s;
     active_vertices_index := active_vertices_index s;
     vertices_latest_time := vertices_latest_time s;
     polygons := polygons s ++ [t]; adjacent_polygons := adjacent_polygons s;
     structure := structure s |}.
Definition set_adjacent (f : gmap nat (list nat) → gmap nat (list nat)) (s : Store) : Store :=
  {| active_vertices_xyz := active_vertices_xyz s;
     all_vertices := all_vertices s;
     active_vertices_index := active_vertices_index s;
     vertices_latest_time := vertices_latest_time s;
     polygons := polygons s; adjacent_polygons := f (adjacent_polygons s);
     structure := structure s |}.

(** ** Helpers shared by the overloads *)

(** The degeneracy test of both passes: fewer than three indices, or two of
    the first three equal. *)
Definition degenerate (t : Surface) : bool :=
  match t with
  | a :: b :: c :: _ => (a =? b) || (b =? c) || (c =? a)
  | _ => true
  end.

Definition same_vertex_set (a b : Surface) : bool :=
  forallb (λ v, bool_decide (v ∈ b)) a && forallb (λ v, bool_decide (v ∈ a)) b.

(** Modelled from the spec: [SurfaceExists] of [utils/CommonFunctions.cpp],
    which is not part of the sources at hand. Spec 4.3: true iff some polygon
    already adjacent to any vertex of [t] equals [t] as an unordered set of
    vertex ids. *)
Definition SurfaceExists (t : Surface) (adj : gmap nat (list nat))
    (polys : list Surface) : bool :=
  existsb (λ v,
    existsb (λ j, match polys !! j with
                  | Some p => same_vertex_set p t
                  | None => false
                  end) (default [] (adj !! v))) t.

(** [m.insert({k, v})]: keeps an entry that is already there. *)
Definition insert_new `{Countable K} {V} (k : K) (v : V) (m : gmap K V) : gmap K V :=
  match m !! k with Some _ => m | None => <[k:=v]> m end.

(** [m[k].push_back(x)]. *)
Definition push_at `{Countable K} {V} (k : K) (x : V) (m : gmap K (list V)) : gmap K (list V) :=
  <[k := default [] (m !! k) ++ [x]]> m.

(** [if (std::find(new_indices...) == end) new_indices->push_back(id)]. *)
Definition push_if_absent (id : nat) (l : list nat) : list nat :=
  if bool_decide (id ∈ l) then l else l ++ [id].

(** [vertices_latest_time_[r] = stamp]. *)
Definition touch {R} (r : nat) (stamp : Z) : Run R unit :=
  s ← gets store;
  if bool_decide (r < length (vertices_latest_time s)) then
    modify (with_store (set_latest_time (λ ts, <[r:=stamp]> ts)))
  else throw OutOfBounds.

(** The reobservation branch of the vertex loop, up to the remap entry:
    returns [active_vertices_index_[r]]. *)
Definition reobserve {R} (r : nat) (stamp : Z) : Run R nat :=
  s ← gets store;
  id ← index (active_vertices_index s) r;
  modify (with_new_indices (push_if_absent id));;
  touch r stamp;;
  mret id.

(** The body of the "Passed check" branch up to the remap entries: the
    vertex enters the active cloud, the structure, [all_vertices_] and the
    two parallel vectors; returns its index in [all_vertices_]. *)
Definition commit_vertex {R} (p : Vertex) (stamp : Z) : Run R nat :=
  modify (with_store (push_active_xyz (xyz p)));;
  s ← gets store;
  t ← call (updateStructure (structure s) (active_vertices_xyz s));
  modify (with_store (set_structure t));;
  modify (with_store (push_all_vertices p));;
  s ← gets store;
  let v := length (all_vertices s) - 1 in
  modify (with_store (push_active_index v));;
  modify (with_store (set_latest_time (λ ts, ts ++ [stamp])));;
  mret v.

(** The second iteration through the faces (identical in both overloads). *)
Definition reindex_surface (reindex : gmap nat nat) (s : Surface) : Surface :=
  omap (λ idx, reindex !! idx) s.

Definition add_surface {R} (t : Surface) : Run R unit :=
  modify (with_store (push_polygon t));;
  modify (with_new_triangles (λ ts, ts ++ [t]));;
  s ← gets store;
  let k := length (polygons s) - 1 in
  modify (with_store (set_adjacent (λ adj, foldl (λ a v, push_at v k a) adj t))).

Definition integrate_surface {R} (N : nat) (reindex : gmap nat nat)
    (_ : unit) (s : Surface) : Run R unit :=
  let reindex_s := reindex_surface reindex s in
  let new_surface := existsb (λ v, N <=? v) reindex_s in
  if length reindex_s <? 3 then mret ()
  else if degenerate reindex_s then mret ()
  else
    st ← gets store;
    if new_surface || negb (SurfaceExists reindex_s (adjacent_polygons st) (polygons st))
    then add_surface reindex_s
    else mret ().

(** ** The flat overload (vertices and surfaces) *)

Record Locals : Type := {
  reindex : gmap nat nat;
  temp_reindex : list nat;
  potential_new_vertices : list nat;
  potential_new_vertices_check : list bool;
  temp_new_vertices : list Point;
  temp_structure : TempStructure;
}.

Definition add_reindex (i v : nat) (l : Locals) : Locals :=
  {| reindex := <[i:=v]> (reindex l); temp_reindex := temp_reindex l;
     potential_new_vertices := potential_new_vertices l;
     potential_new_vertices_check := potential_new_vertices_check l;
     temp_new_vertices := temp_new_vertices l;
     temp_structure := temp_structure l |}.
Definition push_temp_reindex (v : nat) (l : Locals) : Locals :=
  {| reindex := reindex l; temp_reindex := temp_reindex l ++ [v];
     potential_new_vertices := potential_new_vertices l;
     potential_new_vertices_check := potential_new_vertices_check l;
     temp_new_vertices := temp_new_vertices l;
     temp_structure := temp_structure l |}.
Definition set_check (c : list bool) (l : Locals) : Locals :=
  {| reindex := reindex l; temp_reindex := temp_reindex l;
     potential_new_vertices := potential_new_vertices l;
     potential_new_vertices_check := c;
     temp_new_vertices := temp_new_vertices l;
     temp_structure := temp_structure l |}.
(** A fresh candidate: input [i] enters the temporary cloud. *)
Definition add_candidate (i : nat) (cloud : list Point) (t : TempStructure)
    (l : Locals) : Locals :=
  {| reindex := reindex l; temp_reindex := temp_reindex l;
     potential_new_vertices := potential_new_vertices l ++ [i];
     potential_new_vertices_check := potential_new_vertices_check l ++ [false];
     temp_new_vertices := cloud;
     temp_structure := t |}.

(** First loop: classify input vertex [i]. *)
Definition classify {R} (stamp : Z) (N : nat) (l : Locals) (ip : nat * Vertex)
    : Run R Locals :=
  let '(i, p) := ip in
  s ← gets store;
  hit ← call (checkIfVertexUnique (structure s) (xyz p));
  match hit with
  | None =>
      thit ← call (checkIfVertexTempUnique (temp_structure l) (xyz p));
      match thit with
      | None =>
          let cloud := temp_new_vertices l ++ [xyz p] in
          t ← call (updateTempStructure (temp_structure l) cloud);
          mret (push_temp_reindex (N + length cloud - 1) (add_candidate i cloud t l))
      | Some k => mret (push_temp_reindex (N + k) l)
      end
  | Some r =>
      id ← reobserve r stamp;
      mret (push_temp_reindex id (add_reindex i id l))
  end.

(** [potential_new_vertices_check[k] = true]. *)
Definition mark {R} (N : nat) (c : list bool) (v : nat) : Run R (list bool) :=
  if N <=? v then
    if bool_decide (v - N < length c) then mret (<[v - N := true]> c)
    else throw OutOfBounds
  else mret c.

(** The test of the first iteration through the faces on the indices
    [temp_reindex.at(i)] of one face. *)
Definition check_surface {R} (N : nat) (c : list bool) (reindex_s : Surface)
    : Run R (list bool) :=
  if negb (existsb (λ v, N <=? v) reindex_s) then mret c
  else if degenerate reindex_s then mret c
  else foldM (mark N) reindex_s c.

Definition prefilter {R} (N : nat) (l : Locals) (s : Surface) : Run R Locals :=
  reindex_s ← forM (at_ (temp_reindex l)) s;
  c ← check_surface N (potential_new_vertices_check l) reindex_s;
  mret (set_check c l).

(** The inner loop over [m] of the commit loop: it compares
    [temp_reindex[i]], with [i] the position in [potential_new_vertices],
    against [temp_reindex[m]]. *)
Definition fan_out (input_idx v : nat) (tri : nat) (temp : list nat)
    (remap : gmap nat nat) : gmap nat nat :=
  foldl (λ r mt, let '(m, tm) := mt in
           if negb (input_idx =? m) && (tri =? tm) then insert_new m v r else r)
        remap (imap pair temp).

(** One round of the commit loop, for candidate [i]. [temp_reindex[i]] does
    not change in the inner loop and is read once before it; [i] is below
    the length of [temp_reindex], which has an entry for every input. *)
Definition commit (V : list Vertex) (stamp : Z) (l : Locals) (i : nat)
    : Run (gmap nat nat) Locals :=
  chk ← index (potential_new_vertices_check l) i;
  if chk : bool then
    input_idx ← index (potential_new_vertices l) i;
    p ← at_ V input_idx;
    v ← commit_vertex p stamp;
    modify (with_remapping (insert_new input_idx v));;
    tri ← index (temp_reindex l) i;
    modify (with_remapping (fan_out input_idx v tri (temp_reindex l)));;
    modify (with_new_indices (λ ns, ns ++ [v]));;
    modify (with_new_vertices (λ vs, vs ++ [p]));;
    mret (add_reindex input_idx v l)
  else mret l.

Definition compressAndIntegrate (input_vertices : list Vertex)
    (input_surfaces : list Surface) (stamp_in_sec : Z) : Run (gmap nat nat) unit :=
  if (length input_vertices <? 3) || (length input_surfaces =? 0) then mret ()
  else
    s ← gets store;
    let N := length (all_vertices s) in
    t ← call (initializeTempStructure []);
    let l0 := {| reindex := ∅; temp_reindex := [];
                 potential_new_vertices := [];
                 potential_new_vertices_check := [];
                 temp_new_vertices := []; temp_structure := t |} in
    l ← foldM (classify stamp_in_sec N) (imap pair input_vertices) l0;
    l ← foldM (prefilter N) input_surfaces l;
    modify (with_remapping (λ _, reindex l));;
    l ← foldM (commit input_vertices stamp_in_sec)
              (seq 0 (length (potential_new_vertices l))) l;
    foldM (integrate_surface N (reindex l)) input_surfaces ().

(** ** The voxblox overload (mesh blocks) *)

Record BlockLocals : Type := {
  base : Locals;
  input_surfaces : list Surface;
  count : nat;
  count_to_block : gmap nat (BlockIndex * nat);
  all_parsed_points : list Vertex;
  converged_vertices : gmap nat (list nat);
}.

Definition with_base (f : Locals → Locals) (l : BlockLocals) : BlockLocals :=
  {| base := f (base l); input_surfaces := input_surfaces l; count := count l;
     count_to_block := count_to_block l;
     all_parsed_points := all_parsed_points l;
     converged_vertices := converged_vertices l |}.
Definition with_converged (f : gmap nat (list nat) → gmap nat (list nat))
    (l : BlockLocals) : BlockLocals :=
  {| base := base l; input_surfaces := input_surfaces l; count := count l;
     count_to_block := count_to_block l;
     all_parsed_points := all_parsed_points l;
     converged_vertices := f (converged_vertices l) |}.
Definition push_input_surface (s : Surface) (l : BlockLocals) : BlockLocals :=
  {| base := base l; input_surfaces := input_surfaces l ++ [s]; count := count l;
     count_to_block := count_to_block l;
     all_parsed_points := all_parsed_points l;
     converged_vertices := converged_vertices l |}.
Definition next_count (l : BlockLocals) : BlockLocals :=
  {| base := base l; input_surfaces := input_surfaces l; count := count l + 1;
     count_to_block := count_to_block l;
     all_parsed_points := all_parsed_points l;
     converged_vertices := converged_vertices l |}.
(** [count_to_block[count] = (block_index, i); all_parsed_points.push_back(p)]. *)
Definition book_keep (bi : BlockIndex) (i : nat) (p : Vertex) (l : BlockLocals)
    : BlockLocals :=
  {| base := base l; input_surfaces := input_surfaces l; count := count l;
     count_to_block := <[count l := (bi, i)]> (count_to_block l);
     all_parsed_points := all_parsed_points l ++ [p];
     converged_vertices := converged_vertices l |}.

(** Classification of vertex [i] of a block. A reobservation is not entered
    in [reindex] here. *)
Definition classify_block {R} (stamp : Z) (N : nat) (l : BlockLocals) (p : Vertex)
    : Run R BlockLocals :=
  s ← gets store;
  hit ← call (checkIfVertexUnique (structure s) (xyz p));
  match hit with
  | None =>
      thit ← call (checkIfVertexTempUnique (temp_structure (base l)) (xyz p));
      match thit with
      | None =>
          let cloud := temp_new_vertices (base l) ++ [xyz p] in
          t ← call (updateTempStructure (temp_structure (base l)) cloud);
          mret (with_converged (insert_new (count l) [])
                 (with_base (λ b, push_temp_reindex (N + length cloud - 1)
                                    (add_candidate (count l) cloud t b)) l))
      | Some k =>
          first ← index (potential_new_vertices (base l)) k;
          mret (with_converged (push_at first (count l))
                 (with_base (push_temp_reindex (N + k)) l))
      end
  | Some r =>
      id ← reobserve r stamp;
      mret (with_base (push_temp_reindex id) l)
  end.

(** "Every 3 vertices is a surface". *)
Definition close_surface {R} (N : nat) (l : BlockLocals) : Run R BlockLocals :=
  let orig_s := [count l - 2; count l - 1; count l] in
  reindex_s ← forM (at_ (temp_reindex (base l))) orig_s;
  let l := push_input_surface orig_s l in
  c ← check_surface N (potential_new_vertices_check (base l)) reindex_s;
  mret (with_base (set_check c) l).

Definition block_vertex {R} (stamp : Z) (N : nat) (bi : BlockIndex)
    (l : BlockLocals) (ip : nat * Vertex) : Run R BlockLocals :=
  let '(i, p) := ip in
  l ← classify_block stamp N (book_keep bi i p l) p;
  l ← (if i mod 3 =? 2 then close_surface N l else mret l);
  mret (next_count l).

Definition block_step (stamp : Z) (N : nat) (l : BlockLocals) (mb : MeshBlock)
    : Run (gmap BlockIndex (gmap nat nat)) BlockLocals :=
  if negb (length (block_points mb) mod 3 =? 0) then throw AssertionFailed
  else
    modify (with_remapping (insert_new (block_index mb) ∅));;
    foldM (block_vertex stamp N (block_index mb)) (imap pair (block_points mb)) l.

(** [remapping->at(count_to_block[idx].first).insert({count_to_block[idx].second, v})].
    A missing [count_to_block] entry would be read uninitialised. *)
Definition remap_block (ctb : gmap nat (BlockIndex * nat)) (idx v : nat)
    : Run (gmap BlockIndex (gmap nat nat)) unit :=
  match ctb !! idx with
  | None => throw OutOfBounds
  | Some (b, k) =>
      r ← gets remapping;
      match r !! b with
      | None => throw OutOfRange
      | Some inner => modify (with_remapping (<[b := insert_new k v inner]>))
      end
  end.

Definition converge (l0 : BlockLocals) (input_idx v : nat) (l : BlockLocals) (m : nat)
    : Run (gmap BlockIndex (gmap nat nat)) BlockLocals :=
  a ← index (temp_reindex (base l0)) input_idx;
  b ← index (temp_reindex (base l0)) m;
  if negb (a =? b) then throw AssertionFailed
  else
    remap_block (count_to_block l0) m v;;
    mret (with_base (add_reindex m v) l).

Definition commit_block (stamp : Z) (l : BlockLocals) (i : nat)
    : Run (gmap BlockIndex (gmap nat nat)) BlockLocals :=
  chk ← index (potential_new_vertices_check (base l)) i;
  if chk : bool then
    input_idx ← index (potential_new_vertices (base l)) i;
    p ← index (all_parsed_points l) input_idx;
    v ← commit_vertex p stamp;
    let l1 := with_base (add_reindex input_idx v) l in
    remap_block (count_to_block l) input_idx v;;
    l2 ← foldM (converge l input_idx v)
               (default [] (converged_vertices l !! input_idx)) l1;
    modify (with_new_indices (λ ns, ns ++ [v]));;
    modify (with_new_vertices (λ vs, vs ++ [p]));;
    mret l2
  else mret l.

Definition compressAndIntegrateBlocks (mesh : list MeshBlock) (stamp_in_sec : Z)
    : Run (gmap BlockIndex (gmap nat nat)) unit :=
  s ← gets store;
  let N := length (all_vertices s) in
  t ← call (initializeTempStructure []);
  let l0 := {| base := {| reindex := ∅; temp_reindex := [];
                          potential_new_vertices := [];
                          potential_new_vertices_check := [];
                          temp_new_vertices := []; temp_structure := t |};
               input_surfaces := []; count := 0; count_to_block := ∅;
               all_parsed_points := []; converged_vertices := ∅ |} in
  l ← foldM (block_step stamp_in_sec N) mesh l0;
  l ← foldM (commit_block stamp_in_sec)
            (seq 0 (length (potential_new_vertices (base l)))) l;
  foldM (integrate_surface N (reindex (base l))) (input_surfaces l) ().

(** ** [pruneStoredMesh] *)

Inductive LogMsg : Type :=
  | TimeLengthMismatch    (* "Length of book-keeped vertex time does not match ..." *)
  | IndexLengthMismatch   (* "Length of book-keeped vertex indices does not match ..." *)
  | PruneFailed.          (* "MeshCompression: Failed to prune active mesh." *)

Record Survivors : Type := {
  temp_active_vertices : list Point;
  temp_vertices_time : list Z;
  temp_vertices_index : list nat;
  temp_adjacent_polygons : gmap nat (list nat);
  (* the member [adjacent_polygons_], which [operator[]] may extend *)
  member_adjacent_polygons : gmap nat (list nat);
}.

(** One round of the loop over [i < vertices_latest_time_.size()]; [None]
    when [active_vertices_xyz_->points[i]] or [active_vertices_index_[i]] is
    read past the end. *)
Definition keep_slot (earliest : Z) (s : Store) (acc : Survivors) (i : nat)
    : option Survivors :=
  t ← vertices_latest_time s !! i;
  if bool_decide (earliest < t)%Z then
    p ← active_vertices_xyz s !! i;
    v ← active_vertices_index s !! i;
    let adj := member_adjacent_polygons acc in
    let entry := default [] (adj !! v) in
    Some {| temp_active_vertices := temp_active_vertices acc ++ [p];
            temp_vertices_time := temp_vertices_time acc ++ [t];
            temp_vertices_index := temp_vertices_index acc ++ [v];
            temp_adjacent_polygons := <[v := entry]> (temp_adjacent_polygons acc);
            member_adjacent_polygons := <[v := entry]> adj |}
  else Some acc.

Fixpoint keep_slots (earliest : Z) (s : Store) (acc : Survivors) (slots : list nat)
    : option Survivors :=
  match slots with
  | [] => Some acc
  | i :: rest => acc' ← keep_slot earliest s acc i; keep_slots earliest s acc' rest
  end.

Definition length_checks (s : Store) : list LogMsg :=
  (if bool_decide (length (vertices_latest_time s) = length (active_vertices_xyz s))
   then [] else [TimeLengthMismatch]) ++
  (if bool_decide (length (active_vertices_index s) = length (active_vertices_xyz s))
   then [] else [IndexLengthMismatch]).

(** The result is the log and the store, or [Fail OutOfBounds] when the loop
    reads past the end of a vector. An exception of [reInitializeStructure]
    is caught and logged; the vectors have been swapped by then, and the
    structure is taken to be the one from before the call. *)
Definition pruneStoredMesh (earliest_time_sec : Z) (s : Store)
    : list LogMsg * result Store :=
  if length (active_vertices_xyz s) =? 0 then ([], Ret s)
  else
    let log := length_checks s in
    let acc0 := {| temp_active_vertices := []; temp_vertices_time := [];
                   temp_vertices_index := []; temp_adjacent_polygons := ∅;
                   member_adjacent_polygons := adjacent_polygons s |} in
    match keep_slots earliest_time_sec s acc0
            (seq 0 (length (vertices_latest_time s))) with
    | None => (log, Fail OutOfBounds)
    | Some acc =>
        if length (temp_active_vertices acc) <? length (active_vertices_xyz s) then
          let s' := {| active_vertices_xyz := temp_active_vertices acc;
                       all_vertices := all_vertices s;
                       active_vertices_index := temp_vertices_index acc;
                       vertices_latest_time := temp_vertices_time acc;
                       polygons := polygons s;
                       adjacent_polygons := temp_adjacent_polygons acc;
                       structure := structure s |} in
          match reInitializeStructure (temp_active_vertices acc) with
          | Ret t => (log, Ret (set_structure t s'))
          | Fail _ => (log ++ [PruneFailed], Ret s')
          end
        else
          (log, Ret (set_adjacent (λ _, member_adjacent_polygons acc) s))
    end.

End compression.

Arguments store {B R} h.
Arguments new_vertices {B R} h.
Arguments new_triangles {B R} h.
Arguments new_indices {B R} h.
Arguments remapping {B R} h.
Arguments Normal {B R A} a h.
Arguments Throw {B R A} e h.

(** ** A concrete spatial index

    The octree and voxel-hashing subclasses of [MeshCompression] are not
    part of the sources at hand; a voxel grid stands for them. Coordinates
    are integers in a fixed unit. *)

Record ColoredPoint : Type := {
  position : Z * Z * Z;
  rgba : Z;
}.

Definition cell (res : Z) (p : Z * Z * Z) : Z * Z * Z :=
  let '(x, y, z) := p in ((x / res)%Z, (y / res)%Z, (z / res)%Z).

Definition in_range (limit : option Z) (p : Z * Z * Z) : bool :=
  match limit with
  | None => true
  | Some b =>
      let '(x, y, z) := p in
      (Z.abs x <=? b)%Z && (Z.abs y <=? b)%Z && (Z.abs z <=? b)%Z
  end.

Definition guarded {A} (limit : option Z) (p : Z * Z * Z) (a : A) : result A :=
  if in_range limit p then Ret a else Fail BackendFailure.

Definition grid_query (res : Z) (limit : option Z) (g : gmap (Z * Z * Z) nat)
    (p : Z * Z * Z) : result (option nat) :=
  guarded limit p (g !! cell res p).

(** [updateStructure cloud]: the last point of the cloud has just been
    pushed; it takes its cell unless the cell is occupied. *)
Definition grid_update (res : Z) (limit : option Z) (g : gmap (Z * Z * Z) nat)
    (cloud : list (Z * Z * Z)) : result (gmap (Z * Z * Z) nat) :=
  match last cloud with
  | None => Ret g
  | Some p => guarded limit p (insert_new (cell res p) (length cloud - 1) g)
  end.

Fixpoint grid_fill (res : Z) (limit : option Z) (g : gmap (Z * Z * Z) nat)
    (done todo : list (Z * Z * Z)) : result (gmap (Z * Z * Z) nat) :=
  match todo with
  | [] => Ret g
  | p :: todo' =>
      match grid_update res limit g (done ++ [p]) with
      | Ret g' => grid_fill res limit g' (done ++ [p]) todo'
      | Fail e => Fail e
      end
  end.

Definition grid_build (res : Z) (limit : option Z) (cloud : list (Z * Z * Z))
    : result (gmap (Z * Z * Z) nat) :=
  grid_fill res limit ∅ [] cloud.

(** Modelled from the spec: the spatial index of spec 4.1, a voxel grid at
    resolution [res] keyed by quantized coordinates. Each occupied cell
    stores the slot index of the first point that landed in it; a query
    hits iff the cell of the point is occupied. With [limit = Some b] every
    operation on a point that has a coordinate outside [-b, b] fails (the
    "overflow" of spec 4.4). *)
Definition grid_backend (res : Z) (limit : option Z) : Backend :=
  {| Point := Z * Z * Z;
     Vertex := ColoredPoint;
     xyz := position;
     Structure := gmap (Z * Z * Z) nat;
     TempStructure := gmap (Z * Z * Z) nat;
     emptyStructure := ∅;
     reInitializeStructure := grid_build res limit;
     checkIfVertexUnique := grid_query res limit;
     updateStructure := grid_update res limit;
     initializeTempStructure := grid_build res limit;
     checkIfVertexTempUnique := grid_query res limit;
     updateTempStructure := grid_update res limit |}.

(** * The older compressor: [OctreeCompression]

    [OctreeCompression::compressAndIntegrate] of
    [src/compression/OctreeCompression.cpp]: it classifies the input on
    copies of the members, inside a [try] block per vertex, and writes to
    the members in a second pass. *)

Module OctreeCompression.

(** The part of [pcl::octree::OctreePointCloudSearch] the class uses. The
    octree reads the cloud given to it with [setInputCloud]; here the cloud
    is an argument. [inside] is the comparison of a point with the bounding
    box. Every call into the octree may throw. *)
Class Octree : Type := {
  PointT : Type;
  Tree : Type;
  Box : Type;
  inside : Box → PointT → bool;
  getBoundingBox : Tree → result Box;
  isVoxelOccupiedAtPoint : Tree → list PointT → PointT → result bool;
  addPointFromCloud : Tree → list PointT → nat → result Tree;
  approxNearestSearch : Tree → list PointT → PointT → result nat;
}.

Section octree.
Context `{O : Octree}.

Record Members : Type := {
  active_vertices : list PointT;
  all_vertices : list PointT;
  octree : Tree;
  active_vertices_index : list nat;
  vertices_latest_time : list Z;
  polygons : list Surface;
  adjacent_polygons : gmap nat (list nat);
}.

(** The caller's buffers. *)
Record Outputs : Type := {
  new_vertices : list PointT;
  new_triangles : list Surface;
  new_indices : list nat;
}.

(** The temporaries of the first pass. *)
Record Temps : Type := {
  temp_active_vertices : list PointT;
  temp_all_vertices : list PointT;
  temp_octree : Tree;
  temp_active_vertices_index : list nat;
  temp_new_indices : list nat;
  temp_have_adjacent_polygons : gmap nat bool;
  remapping : gmap nat nat;
}.

Inductive LogMsg : Type :=
  | FailedToInsert.   (* "OctreeCompression: Failed to insert mesh vertex." *)

(** The temporaries are copies of the members. *)
Definition copy_members (m : Members) : Temps :=
  {| temp_active_vertices := active_vertices m;
     temp_all_vertices := all_vertices m;
     temp_octree := octree m;
     temp_active_vertices_index := active_vertices_index m;
     temp_new_indices := [];
     temp_have_adjacent_polygons := ∅;
     remapping := ∅ |}.

(** [temp_active_vertices->points.push_back(p)]. *)
Definition push_temp_active (p : PointT) (t : Temps) : Temps :=
  {| temp_active_vertices := temp_active_vertices t ++ [p];
     temp_all_vertices := temp_all_vertices t;
     temp_octree := temp_octree t;
     temp_active_vertices_index := temp_active_vertices_index t;
     temp_new_indices := temp_new_indices t;
     temp_have_adjacent_polygons := temp_have_adjacent_polygons t;
     remapping := remapping t |}.

(** The rest of the "new point" branch once the octree has taken the
    point. *)
Definition track_new_point (i : nat) (p : PointT) (tree : Tree) (t : Temps) : Temps :=
  let all := temp_all_vertices t ++ [p] in
  let v := length all - 1 in
  {| temp_active_vertices := temp_active_vertices t;
     temp_all_vertices := all;
     temp_octree := tree;
     temp_active_vertices_index := temp_active_vertices_index t ++ [v];
     temp_new_indices := temp_new_indices t ++ [v];
     temp_have_adjacent_polygons := <[v := false]> (temp_have_adjacent_polygons t);
     remapping := <[i := v]> (remapping t) |}.

(** The "nearby point" branch once the index [id] of the nearby point is
    known; [fresh] says whether [id] is pushed to [temp_new_indices]. *)
Definition track_nearby_point (i id : nat) (fresh : bool) (t : Temps) : Temps :=
  {| temp_active_vertices := temp_active_vertices t;
     temp_all_vertices := temp_all_vertices t;
     temp_octree := temp_octree t;
     temp_active_vertices_index := temp_active_vertices_index t;
     temp_new_indices :=
       if fresh then temp_new_indices t ++ [id] else temp_new_indices t;
     temp_have_adjacent_polygons :=
       if fresh then <[id := true]> (temp_have_adjacent_polygons t)
       else temp_have_adjacent_polygons t;
     remapping := <[i := id]> (remapping t) |}.

(** The body of the [try] block for input vertex [i]: the temporaries when
    the block is left, and how it is left. *)
Definition insert_vertex (original_size_active : nat) (t : Temps) (i : nat)
    (p : PointT) : Temps * result unit :=
  match getBoundingBox (temp_octree t) with
  | Fail e => (t, Fail e)
  | Ret box =>
    let is_in_box := inside box p in
    match (if is_in_box
           then isVoxelOccupiedAtPoint (temp_octree t) (temp_active_vertices t) p
           else Ret false) with
    | Fail e => (t, Fail e)
    | Ret occupied =>
      if negb is_in_box || negb occupied then
        let t := push_temp_active p t in
        match addPointFromCloud (temp_octree t) (temp_active_vertices t)
                (length (temp_active_vertices t) - 1) with
        | Fail e => (t, Fail e)
        | Ret tree => (track_new_point i p tree t, Ret ())
        end
      else
        match approxNearestSearch (temp_octree t) (temp_active_vertices t) p with
        | Fail e => (t, Fail e)
        | Ret result_idx =>
          match temp_active_vertices_index t !! result_idx with
          | None => (t, Fail OutOfBounds)
          | Some id =>
            let fresh := (result_idx <? original_size_active) &&
                         negb (bool_decide (id ∈ temp_new_indices t)) in
            (track_nearby_point i id fresh t, Ret ())
          end
        end
    end
  end.

(** The first pass. [catch (...)] takes every exception and logs it; a read
    past the end of a vector is not an exception. *)
Fixpoint first_pass (original_size_active : nat) (t : Temps) (log : list LogMsg)
    (input : list (nat * PointT)) : list LogMsg * result Temps :=
  match input with
  | [] => (log, Ret t)
  | (i, p) :: rest =>
    match insert_vertex original_size_active t i p with
    | (t', Ret _) => first_pass original_size_active t' log rest
    | (t', Fail OutOfBounds) => (log, Fail OutOfBounds)
    | (t', Fail _) => first_pass original_size_active t' (log ++ [FailedToInsert]) rest
    end
  end.

(** [new_polygon.vertices.push_back(remapping[idx])]: [operator[]] of the
    map gives 0 for an input vertex that has no entry. *)
Definition remap_polygon (remap : gmap nat nat) (polygon : Surface) : Surface :=
  (λ idx, default 0 (remap !! idx)) <$> polygon.

(** The loop over the input surfaces: the new triangles and the flags of
    [temp_have_adjacent_polygons]. *)
Definition check_polygon (original_size_all : nat) (m : Members) (remap : gmap nat nat)
    (acc : list Surface * gmap nat bool) (polygon : Surface)
    : list Surface * gmap nat bool :=
  let new_polygon := remap_polygon remap polygon in
  let new_surface := existsb (λ v, original_size_all <=? v) new_polygon in
  if degenerate new_polygon then acc
  else if new_surface ||
          negb (SurfaceExists new_polygon (adjacent_polygons m) (polygons m))
  then (acc.1 ++ [new_polygon], foldl (λ have v, <[v := true]> have) acc.2 new_polygon)
  else acc.

(** What the second pass writes to. *)
Record Second : Type := {
  members : Members;
  outputs : Outputs;
  second_remapping : gmap nat nat;
}.

(** [new_vertices->push_back(p); active_vertices_->points.push_back(p)]. *)
Definition push_point (p : PointT) (s : Second) : Second :=
  let m := members s in
  {| members := {| active_vertices := active_vertices m ++ [p];
                   all_vertices := all_vertices m;
                   octree := octree m;
                   active_vertices_index := active_vertices_index m;
                   vertices_latest_time := vertices_latest_time m;
                   polygons := polygons m;
                   adjacent_polygons := adjacent_polygons m |};
     outputs := {| new_vertices := new_vertices (outputs s) ++ [p];
                   new_triangles := new_triangles (outputs s);
                   new_indices := new_indices (outputs s) |};
     second_remapping := second_remapping s |}.

(** The rest of the "new point" branch of the second pass once the octree
    has taken the point. *)
Definition commit_point (idx : nat) (p : PointT) (tree : Tree) (stamp : Z)
    (s : Second) : Second :=
  let m := members s in
  let v := length (all_vertices m ++ [p]) - 1 in
  {| members := {| active_vertices := active_vertices m;
                   all_vertices := all_vertices m ++ [p];
                   octree := tree;
                   active_vertices_index := active_vertices_index m ++ [v];
                   vertices_latest_time := vertices_latest_time m ++ [stamp];
                   polygons := polygons m;
                   adjacent_polygons := <[v := []]> (adjacent_polygons m) |};
     outputs := {| new_vertices := new_vertices (outputs s);
                   new_triangles := new_triangles (outputs s);
                   new_indices := new_indices (outputs s) ++ [v] |};
     second_remapping := <[idx := v]> (second_remapping s) |}.

(** [second_remapping[idx] = idx; new_indices->push_back(idx)]. *)
Definition keep_point (idx : nat) (s : Second) : Second :=
  {| members := members s;
     outputs := {| new_vertices := new_vertices (outputs s);
                   new_triangles := new_triangles (outputs s);
                   new_indices := new_indices (outputs s) ++ [idx] |};
     second_remapping := <[idx := idx]> (second_remapping s) |}.

(** [vertices_latest_time_[idx] = stamp_in_sec]. *)
Definition set_time (idx : nat) (stamp : Z) (s : Second) : Second :=
  let m := members s in
  {| members := {| active_vertices := active_vertices m;
                   all_vertices := all_vertices m;
                   octree := octree m;
                   active_vertices_index := active_vertices_index m;
                   vertices_latest_time := <[idx := stamp]> (vertices_latest_time m);
                   polygons := polygons m;
                   adjacent_polygons := adjacent_polygons m |};
     outputs := outputs s;
     second_remapping := second_remapping s |}.

(** One round of the second pass, for [idx] of [temp_new_indices]. Nothing
    is caught here. *)
Definition commit_index (original_size_all : nat) (t : Temps)
    (have : gmap nat bool) (stamp : Z) (s : Second) (idx : nat)
    : Second * result unit :=
  match have !! idx with
  | None => (s, Fail OutOfRange)
  | Some false => (s, Ret ())
  | Some true =>
    if original_size_all <=? idx then
      match temp_all_vertices t !! idx with
      | None => (s, Fail OutOfBounds)
      | Some p =>
        let s := push_point p s in
        match addPointFromCloud (octree (members s)) (active_vertices (members s))
                (length (active_vertices (members s)) - 1) with
        | Fail e => (s, Fail e)
        | Ret tree => (commit_point idx p tree stamp s, Ret ())
        end
      end
    else
      let s := keep_point idx s in
      if bool_decide (idx < length (vertices_latest_time (members s)))
      then (set_time idx stamp s, Ret ())
      else (s, Fail OutOfBounds)
  end.

Fixpoint second_pass (original_size_all : nat) (t : Temps) (have : gmap nat bool)
    (stamp : Z) (s : Second) (indices : list nat) : Second * result unit :=
  match indices with
  | [] => (s, Ret ())
  | idx :: rest =>
    match commit_index original_size_all t have stamp s idx with
    | (s', Ret _) => second_pass original_size_all t have stamp s' rest
    | (s', Fail e) => (s', Fail e)
    end
  end.

(** The last loop: a new triangle, reindexed with the second remapping,
    enters [polygons_], [new_triangles] and the adjacency lists. *)
Definition add_triangle (s : Second) (t : Surface) : Second :=
  let m := members s in
  let reindexed_t := remap_polygon (second_remapping s) t in
  let k := length (polygons m ++ [reindexed_t]) - 1 in
  {| members := {| active_vertices := active_vertices m;
                   all_vertices := all_vertices m;
                   octree := octree m;
                   active_vertices_index := active_vertices_index m;
                   vertices_latest_time := vertices_latest_time m;
                   polygons := polygons m ++ [reindexed_t];
                   adjacent_polygons :=
                     foldl (λ a v, push_at v k a) (adjacent_polygons m) reindexed_t |};
     outputs := {| new_vertices := new_vertices (outputs s);
                   new_triangles := new_triangles (outputs s) ++ [reindexed_t];
                   new_indices := new_indices (outputs s) |};
     second_remapping := second_remapping s |}.

(** How a call leaves the compressor and the caller's buffers, what it
    logged, and the exception it ended with, if any. *)
Record Final : Type := {
  members_after : Members;
  outputs_after : Outputs;
  logged : list LogMsg;
  ended : option exn;
}.

Definition compressAndIntegrate (m : Members) (out : Outputs)
    (input_vertices : list PointT) (input_surfaces : list Surface)
    (stamp_in_sec : Z) : Final :=
  let unchanged log e :=
    {| members_after := m; outputs_after := out; logged := log; ended := e |} in
  if (length input_vertices <? 3) || (length input_surfaces =? 0)
  then unchanged [] None
  else
    let original_size_all := length (all_vertices m) in
    let original_size_active := length (active_vertices m) in
    match first_pass original_size_active (copy_members m) []
            (imap pair input_vertices) with
    | (log, Fail e) => unchanged log (Some e)
    | (log, Ret t) =>
      if length (temp_new_indices t) <? 3 then unchanged log None
      else
        let checked :=
          foldl (check_polygon original_size_all m (remapping t))
                ([], temp_have_adjacent_polygons t) input_surfaces in
        if length checked.1 =? 0 then unchanged log None
        else
          let s0 := {| members := m; outputs := out; second_remapping := ∅ |} in
          match second_pass original_size_all t checked.2 stamp_in_sec s0
                  (temp_new_indices t) with
          | (s, Fail e) =>
              {| members_after := members s; outputs_after := outputs s;
                 logged := log; ended := Some e |}
          | (s, Ret _) =>
              let s := if length (new_indices (outputs s)) =? 0 then s
                       else foldl add_triangle s checked.1 in
              {| members_after := members s; outputs_after := outputs s;
                 logged := log; ended := None |}
          end
    end.

End octree.

(** ** [OctreeCompression::pruneStoredMesh] *)

(** [octree_.reset(new Octree(octree_resolution_))] followed by
    [setInputCloud] and [addPointsFromInputCloud]: a new octree over the
    cloud. *)
Class OctreeFromCloud `{O : Octree} : Type := {
  addPointsFromInputCloud : list PointT → result Tree;
}.

Section prune.
Context `{O : Octree} `{F : !OctreeFromCloud}.

Inductive PruneMsg : Type :=
  | TimeLengthMismatch    (* "Length of book-keeped vertex time does not match ..." *)
  | IndexLengthMismatch   (* "Length of book-keeped vertex indices does not match ..." *)
  | PruneFailed.          (* "OctreeCompression: Failed to prune active mesh." *)

Record Kept : Type := {
  kept_active_vertices : list PointT;
  kept_vertices_time : list Z;
  kept_vertices_index : list nat;
  kept_adjacent_polygons : gmap nat (list nat);
  (* the member [adjacent_polygons_], which [operator[]] may extend *)
  member_adjacent_polygons : gmap nat (list nat);
}.

(** One round of the loop over [i < vertices_latest_time_.size()]. The
    adjacency entry is copied for [temp_vertices_index[i]]: the loop counter
    indexes the vector of the slots kept so far. A read past the end of a
    vector is not an exception. *)
Definition keep_slot (earliest : Z) (m : Members) (acc : Kept) (i : nat)
    : result Kept :=
  match vertices_latest_time m !! i with
  | None => Fail OutOfBounds
  | Some t =>
    if bool_decide (earliest < t)%Z then
      match active_vertices m !! i, active_vertices_index m !! i with
      | Some p, Some v =>
        let indices := kept_vertices_index acc ++ [v] in
        match indices !! i with
        | None => Fail OutOfBounds
        | Some w =>
          let adj := member_adjacent_polygons acc in
          let entry := default [] (adj !! w) in
          Ret {| kept_active_vertices := kept_active_vertices acc ++ [p];
                 kept_vertices_time := kept_vertices_time acc ++ [t];
                 kept_vertices_index := indices;
                 kept_adjacent_polygons := <[w := entry]> (kept_adjacent_polygons acc);
                 member_adjacent_polygons := <[w := entry]> adj |}
        end
      | _, _ => Fail OutOfBounds
      end
    else Ret acc
  end.

Fixpoint keep_slots (earliest : Z) (m : Members) (acc : Kept) (slots : list nat)
    : result Kept :=
  match slots with
  | [] => Ret acc
  | i :: rest =>
    match keep_slot earliest m acc i with
    | Ret acc' => keep_slots earliest m acc' rest
    | Fail e => Fail e
    end
  end.

Definition length_checks (m : Members) : list PruneMsg :=
  (if bool_decide (length (vertices_latest_time m) = length (active_vertices m))
   then [] else [TimeLengthMismatch]) ++
  (if bool_decide (length (active_vertices_index m) = length (active_vertices m))
   then [] else [IndexLengthMismatch]).

(** The log and the members, or [Fail OutOfBounds] when the loop reads past
    the end of a vector. An exception of the new octree is caught and
    logged; the vectors have been assigned by then, and the octree is taken
    to be the one from before the call. *)
Definition pruneStoredMesh (earliest_time_sec : Z) (m : Members)
    : list PruneMsg * result Members :=
  if length (active_vertices m) =? 0 then ([], Ret m)
  else
    let log := length_checks m in
    let acc0 := {| kept_active_vertices := []; kept_vertices_time := [];
                   kept_vertices_index := []; kept_adjacent_polygons := ∅;
                   member_adjacent_polygons := adjacent_polygons m |} in
    match keep_slots earliest_time_sec m acc0
            (seq 0 (length (vertices_latest_time m))) with
    | Fail e => (log, Fail e)
    | Ret acc =>
      if length (kept_active_vertices acc) <? length (active_vertices m) then
        let assigned tree :=
          {| active_vertices := kept_active_vertices acc;
             all_vertices := all_vertices m;
             octree := tree;
             active_vertices_index := kept_vertices_index acc;
             vertices_latest_time := kept_vertices_time acc;
             polygons := polygons m;
             adjacent_polygons := kept_adjacent_polygons acc |} in
        match addPointsFromInputCloud (kept_active_vertices acc) with
        | Ret tree => (log, Ret (assigned tree))
        | Fail _ => (log ++ [PruneFailed], Ret (assigned (octree m)))
        end
      else
        (log, Ret {| active_vertices := active_vertices m;
                     all_vertices := all_vertices m;
                     octree := octree m;
                     active_vertices_index := active_vertices_index m;
                     vertices_latest_time := vertices_latest_time m;
                     polygons := polygons m;
                     adjacent_polygons := member_adjacent_polygons acc |})
    end.

End prune.

End OctreeCompression.

(** * Vocabulary of the statements *)

(** [rel] followed by [erel] is [erel]. *)
Class Absorbs {H : Type} (rel erel : H → H → Prop) : Prop :=
  absorbs : ∀ h1 h2 h3, rel h1 h2 → erel h2 h3 → erel h1 h3.

Section vocabulary.
Context `{B : Backend}.

(** [wp m Q E h]: run from [h], [m] ends normally in a state satisfying [Q]
    or abnormally in a state satisfying [E]. *)
Definition wp {R A} (m : Run R A) (Q : A → Heap R → Prop)
    (E : exn → Heap R → Prop) (h : Heap R) : Prop :=
  match m h with
  | Normal a h' => Q a h'
  | Throw e h' => E e h'
  end.

(** What the first loop may change: last-seen times (to [stamp]) and
    [new_indices] (by appending). *)
Record touched {R} (stamp : Z) (h h' : Heap R) : Prop := {
  touched_xyz : active_vertices_xyz (store h') = active_vertices_xyz (store h);
  touched_all : all_vertices (store h') = all_vertices (store h);
  touched_index : active_vertices_index (store h') = active_vertices_index (store h);
  touched_polygons : polygons (store h') = polygons (store h);
  touched_adjacent : adjacent_polygons (store h') = adjacent_polygons (store h);
  touched_structure : structure (store h') = structure (store h);
  touched_new_vertices : new_vertices h' = new_vertices h;
  touched_new_triangles : new_triangles h' = new_triangles h;
  touched_remapping : remapping h' = remapping h;
  touched_times_length :
    length (vertices_latest_time (store h')) = length (vertices_latest_time (store h));
  touched_times : ∀ i t, vertices_latest_time (store h') !! i = Some t →
    t = stamp ∨ vertices_latest_time (store h) !! i = Some t;
  touched_new_indices : new_indices h `prefix_of` new_indices h';
}.

(** What the second iteration through the faces may change. *)
Record surfaced {R} (h h' : Heap R) : Prop := {
  surfaced_xyz : active_vertices_xyz (store h') = active_vertices_xyz (store h);
  surfaced_all : all_vertices (store h') = all_vertices (store h);
  surfaced_index : active_vertices_index (store h') = active_vertices_index (store h);
  surfaced_times : vertices_latest_time (store h') = vertices_latest_time (store h);
  surfaced_structure : structure (store h') = structure (store h);
  surfaced_new_vertices : new_vertices h' = new_vertices h;
  surfaced_new_indices : new_indices h' = new_indices h;
  surfaced_remapping : remapping h' = remapping h;
  surfaced_polygons : ∃ ts, polygons (store h') = polygons (store h) ++ ts ∧
                            new_triangles h' = new_triangles h ++ ts;
}.

(** The store after [commit_vertex p stamp] when the structure update
    returns [t]. *)
Definition committed (p : Vertex) (stamp : Z) (t : Structure) (s : Store) : Store :=
  {| active_vertices_xyz := active_vertices_xyz s ++ [xyz p];
     all_vertices := all_vertices s ++ [p];
     active_vertices_index := active_vertices_index s ++ [length (all_vertices s)];
     vertices_latest_time := vertices_latest_time s ++ [stamp];
     polygons := polygons s;
     adjacent_polygons := adjacent_polygons s;
     structure := t |}.

(** The heap after [add_surface t]. *)
Definition surface_added {R} (t : Surface) (h : Heap R) : Heap R :=
  with_store
    (set_adjacent (λ adj, foldl (λ a v, push_at v (length (polygons (store h))) a) adj t))
    (with_new_triangles (λ ts, ts ++ [t]) (with_store (push_polygon t) h)).

(** Every active slot points into [all_vertices_]. *)
Definition index_bounded (s : Store) : Prop :=
  Forall (λ id, id < length (all_vertices s)) (active_vertices_index s).

(** [new_indices] holds distinct indices into [all_vertices_]. *)
Definition fresh_indices {R} (h : Heap R) : Prop :=
  NoDup (new_indices h) ∧
  Forall (λ id, id < length (all_vertices (store h))) (new_indices h) ∧
  index_bounded (store h).

(** Only the remapping differs. *)
Definition remapped {R} (h h' : Heap R) : Prop :=
  store h' = store h ∧ new_vertices h' = new_vertices h ∧
  new_indices h' = new_indices h ∧ new_triangles h' = new_triangles h.

(** *** Pruning *)

(** The three parallel vectors have one length. *)
Definition consistent (s : Store) : Prop :=
  length (vertices_latest_time s) = length (active_vertices_xyz s) ∧
  length (active_vertices_index s) = length (active_vertices_xyz s).

(** The active slots as rows (position, last-seen time, index in
    [all_vertices_]). *)
Definition slots_of (s : Store) : list (Point * Z * nat) :=
  zip (zip (active_vertices_xyz s) (vertices_latest_time s))
      (active_vertices_index s).

(** The rows [pruneStoredMesh] keeps: those seen after [earliest]. *)
Definition surviving (earliest : Z) (s : Store) : list (Point * Z * nat) :=
  filter (λ row, earliest < row.1.2)%Z (slots_of s).

(** What [pruneStoredMesh earliest] makes of [s]: the slots seen after the
    cutoff are kept with their positions, times and indices; [all_vertices_]
    and [polygons_] stay; the adjacency map has an entry (the old one, or an
    empty one) for every vertex still active, and the entries of the other
    vertices stay when no slot is dropped and go otherwise; without a drop
    nothing else changes and nothing is logged. *)
Definition pruned (earliest : Z) (s : Store) (log : list LogMsg) (s' : Store) : Prop :=
  all_vertices s' = all_vertices s ∧ polygons s' = polygons s ∧
  slots_of s' = surviving earliest s ∧ consistent s' ∧
  (∀ v, adjacent_polygons s' !! v =
     if decide (v ∈ active_vertices_index s')
     then Some (default [] (adjacent_polygons s !! v))
     else if decide (length (surviving earliest s) = length (slots_of s))
          then adjacent_polygons s !! v else None) ∧
  (length (surviving earliest s) = length (slots_of s) →
     log = [] ∧ s' = set_adjacent (λ _, adjacent_polygons s') s).

(** The state of the loop of [pruneStoredMesh] after the rows [kept] have
    been copied. *)
Definition copied (s : Store) (kept : list (Point * Z * nat)) (acc : Survivors) : Prop :=
  temp_active_vertices acc = kept.*1.*1 ∧
  temp_vertices_time acc = kept.*1.*2 ∧
  temp_vertices_index acc = kept.*2 ∧
  (∀ v, temp_adjacent_polygons acc !! v =
        if decide (v ∈ kept.*2) then Some (default [] (adjacent_polygons s !! v))
        else None) ∧
  (∀ v, member_adjacent_polygons acc !! v =
        if decide (v ∈ kept.*2) then Some (default [] (adjacent_polygons s !! v))
        else adjacent_polygons s !! v).

(** *** Surfaces *)

(** Every index in a polygon points into [all_vertices_]. *)
Definition polygons_bounded (s : Store) : Prop :=
  ∀ t v, t ∈ polygons s → v ∈ t → v < length (all_vertices s).

(** For an active vertex, [adjacent_polygons_] lists every polygon that
    contains it. *)
Definition adjacency_complete (s : Store) : Prop :=
  ∀ j t v, polygons s !! j = Some t → v ∈ t → v ∈ active_vertices_index s →
    j ∈ default [] (adjacent_polygons s !! v).

Definition store_inv (s : Store) : Prop :=
  index_bounded s ∧ polygons_bounded s ∧ adjacency_complete s.

(** The values of a [reindex] map are active vertices. *)
Definition reindex_active (reindex : gmap nat nat) (s : Store) : Prop :=
  ∀ i v, reindex !! i = Some v → v ∈ active_vertices_index s.

(** Two polygons with the same vertex set are either both among the first
    [n0] (the ones stored before the call) or both later, and then they
    contain a vertex index from [N] on (committed by the call). *)
Definition duplicates_from (N n0 : nat) (polys : list Surface) : Prop :=
  ∀ i j t1 t2, i < j → polys !! i = Some t1 → polys !! j = Some t2 →
    same_vertex_set t1 t2 = true →
    j < n0 ∨ (n0 ≤ i ∧ ∃ v, v ∈ t2 ∧ N ≤ v).

Definition duplicates_are_fresh (s s' : Store) : Prop :=
  duplicates_from (length (all_vertices s)) (length (polygons s)) (polygons s').

(** The first [n0] polygons only use vertex indices below [N]. *)
Definition old_bounded (N n0 : nat) (polys : list Surface) : Prop :=
  ∀ i t v, i < n0 → polys !! i = Some t → v ∈ t → v < N.

(** What the second iteration through the faces maintains. *)
Record surface_inv {R} (N n0 : nat) (reindex : gmap nat nat) (h : Heap R) : Prop := {
  si_store : store_inv (store h);
  si_reindex : reindex_active reindex (store h);
  si_dups : duplicates_from N n0 (polygons (store h));
  si_old : old_bounded N n0 (polygons (store h));
  si_len : n0 ≤ length (polygons (store h));
}.

(** The vectors and maps the surface invariants speak about are the same. *)
Definition mesh_kept (s s' : Store) : Prop :=
  all_vertices s' = all_vertices s ∧
  active_vertices_index s' = active_vertices_index s ∧
  polygons s' = polygons s ∧
  adjacent_polygons s' = adjacent_polygons s.

(** What the commit loop maintains, [h0] being the heap at entry. *)
Definition commit_inv {R} (h0 : Heap R) (reindex : gmap nat nat) (h : Heap R) : Prop :=
  store_inv (store h) ∧ reindex_active reindex (store h) ∧
  polygons (store h) = polygons (store h0) ∧
  length (all_vertices (store h0)) ≤ length (all_vertices (store h)).

(** *** Calls that end with an exception *)

(** Nothing was taken away: polygons and adjacency are as before, the
    vectors have at most grown, a last-seen time is as before or [stamp]. *)
Record extended (stamp : Z) (s s' : Store) : Prop := {
  extended_polygons : polygons s' = polygons s;
  extended_adjacent : adjacent_polygons s' = adjacent_polygons s;
  extended_all : all_vertices s `prefix_of` all_vertices s';
  extended_index : active_vertices_index s `prefix_of` active_vertices_index s';
  extended_xyz : active_vertices_xyz s `prefix_of` active_vertices_xyz s';
  extended_times : ∀ i t, vertices_latest_time s !! i = Some t →
    vertices_latest_time s' !! i = Some t ∨ vertices_latest_time s' !! i = Some stamp;
}.

(** Only last-seen times differ, and they differ by being [stamp]. *)
Record times_touched (stamp : Z) (s s' : Store) : Prop := {
  times_touched_xyz : active_vertices_xyz s' = active_vertices_xyz s;
  times_touched_all : all_vertices s' = all_vertices s;
  times_touched_index : active_vertices_index s' = active_vertices_index s;
  times_touched_polygons : polygons s' = polygons s;
  times_touched_adjacent : adjacent_polygons s' = adjacent_polygons s;
  times_touched_structure : structure s' = structure s;
  times_touched_length :
    length (vertices_latest_time s') = length (vertices_latest_time s);
  times_touched_times : ∀ i t, vertices_latest_time s' !! i = Some t →
    t = stamp ∨ vertices_latest_time s !! i = Some t;
}.

(** The store of a call that has not finished: extended, and only touched in
    its times as long as no position has been pushed. *)
Definition partial_update {R} (stamp : Z) (h h' : Heap R) : Prop :=
  extended stamp (store h) (store h') ∧
  (length (active_vertices_xyz (store h')) = length (active_vertices_xyz (store h)) →
   times_touched stamp (store h) (store h')).







(** [m] relates every heap to the heap it ends in: by [rel] when it returns,
    by [erel] when it throws. *)
Definition keeps {R A} (rel erel : Heap R → Heap R → Prop) (m : Run R A) : Prop :=
  ∀ h, wp m (λ _ h', rel h h') (λ _ h', erel h h') h.

(** No statement about the heap a throw leaves behind. *)
Definition anywhere {R} : Heap R → Heap R → Prop := λ _ _, True.

(** Whatever happens between [h] and [h'] keeps the property [P] of the
    store. *)
Definition kept {R} (P : Store → Prop) (h h' : Heap R) : Prop :=
  P (store h) → P (store h').

(** The call never throws. *)
Definition never {R} : exn → Heap R → Prop := λ _ _, False.

(** *** Reachable stores

    The stores a compressor can be in after calls that returned. *)
Inductive reachable : Store → Prop :=
  | reachable_empty : reachable empty_store
  | reachable_flat V S stamp (h h' : Heap (gmap nat nat)) :
      reachable (store h) →
      compressAndIntegrate V S stamp h = Normal () h' →
      reachable (store h')
  | reachable_blocks mesh stamp (h h' : Heap (gmap BlockIndex (gmap nat nat))) :
      reachable (store h) →
      compressAndIntegrateBlocks mesh stamp h = Normal () h' →
      reachable (store h')
  | reachable_prune earliest s log s' :
      reachable s →
      pruneStoredMesh earliest s = (log, Ret s') →
      reachable s'.

(** The stores a compressor can be in after calls that returned or ended
    with an exception. *)
Inductive visited : Store → Prop :=
  | visited_empty : visited empty_store
  | visited_flat V S stamp (h : Heap (gmap nat nat)) :
      visited (store h) →
      visited (store (final_heap (compressAndIntegrate V S stamp h)))
  | visited_blocks mesh stamp (h : Heap (gmap BlockIndex (gmap nat nat))) :
      visited (store h) →
      visited (store (final_heap (compressAndIntegrateBlocks mesh stamp h)))
  | visited_prune earliest s log s' :
      visited s →
      pruneStoredMesh earliest s = (log, Ret s') →
      visited s'.

(** There is one last-seen time per active index, and no more of them than
    active positions: a position is pushed first, its index and its time
    after the spatial index has taken it. *)
Definition cloud_leads (s : Store) : Prop :=
  length (vertices_latest_time s) = length (active_vertices_index s) ∧
  length (active_vertices_index s) ≤ length (active_vertices_xyz s).

(** *** What a call adds *)

Definition vertices_appended {R} (stamp : Z) (h h' : Heap R) : Prop :=
  ∃ added : list Vertex,
    all_vertices (store h') = all_vertices (store h) ++ added ∧
    new_vertices h' = new_vertices h ++ added ∧
    active_vertices_xyz (store h') = active_vertices_xyz (store h) ++ (xyz <$> added) ∧
    active_vertices_index (store h') =
      active_vertices_index (store h) ++
      seq (length (all_vertices (store h))) (length added) ∧
    length (vertices_latest_time (store h')) =
      length (vertices_latest_time (store h)) + length added ∧
    ∀ i t, vertices_latest_time (store h') !! i = Some t →
      t = stamp ∨ vertices_latest_time (store h) !! i = Some t.

Definition triangles_appended {R} (h h' : Heap R) : Prop :=
  ∃ ts : list Surface,
    polygons (store h') = polygons (store h) ++ ts ∧
    new_triangles h' = new_triangles h ++ ts ∧
    Forall (λ t, degenerate t = false) ts.

Definition appended {R} (stamp : Z) (h h' : Heap R) : Prop :=
  vertices_appended stamp h h' ∧ triangles_appended h h'.

(** An adjacency list only names stored polygons that contain the vertex. *)
Definition adjacency_sound (s : Store) : Prop :=
  ∀ v j, j ∈ default [] (adjacent_polygons s !! v) →
    ∃ t, polygons s !! j = Some t ∧ v ∈ t.

(** Every index reported in [new_indices] is the index of an active slot
    whose last-seen time is [stamp]. *)
Definition reported_seen {R} (stamp : Z) (h : Heap R) : Prop :=
  ∀ v, v ∈ new_indices h →
    ∃ r, active_vertices_index (store h) !! r = Some v ∧
         vertices_latest_time (store h) !! r = Some stamp.

(** The two vectors that [reported_seen] reads are parallel. *)
Definition seen_inv {R} (stamp : Z) (h : Heap R) : Prop :=
  length (active_vertices_index (store h)) = length (vertices_latest_time (store h)) ∧
  reported_seen stamp h.

(** Whatever happens between [h] and [h'] keeps the property [P] of the
    heap. *)
Definition held {R} (P : Heap R → Prop) (h h' : Heap R) : Prop := P h → P h'.

(** Every entry of a remapping sends an input index below [n] to an index
    below [M]. *)
Definition in_range_map (n M : nat) (r : gmap nat nat) : Prop :=
  ∀ m v, r !! m = Some v → m < n ∧ v < M.

(** Every block of the remapping is still there, with at least the entries
    it had. *)
Definition blocks_grown (r r' : gmap BlockIndex (gmap nat nat)) : Prop :=
  ∀ b inner, r !! b = Some inner → ∃ inner', r' !! b = Some inner' ∧ inner ⊆ inner'.

Definition remapping_grown (h h' : Heap (gmap BlockIndex (gmap nat nat))) : Prop :=
  blocks_grown (remapping h) (remapping h').

End vocabulary.

(** *** Calls that return

    A spatial index that keeps its promises: a structure that indexes a
    cloud answers every query, with a slot of the cloud when the point was
    seen, and takes the next point of the cloud. *)
Class Lawful `{B : Backend} : Type := {
  indexes : Structure → list Point → Prop;
  temp_indexes : TempStructure → list Point → Prop;
  indexes_empty : indexes emptyStructure [];
  indexes_build cloud :
    ∃ t, reInitializeStructure cloud = Ret t ∧ indexes t cloud;
  indexes_check t cloud p : indexes t cloud →
    ∃ hit, checkIfVertexUnique t p = Ret hit ∧ ∀ r, hit = Some r → r < length cloud;
  indexes_update t cloud p : indexes t cloud →
    ∃ t', updateStructure t (cloud ++ [p]) = Ret t' ∧ indexes t' (cloud ++ [p]);
  temp_indexes_build :
    ∃ t, initializeTempStructure [] = Ret t ∧ temp_indexes t [];
  temp_indexes_check t cloud p : temp_indexes t cloud →
    ∃ hit, checkIfVertexTempUnique t p = Ret hit ∧ ∀ k, hit = Some k → k < length cloud;
  temp_indexes_update t cloud p : temp_indexes t cloud →
    ∃ t', updateTempStructure t (cloud ++ [p]) = Ret t' ∧ temp_indexes t' (cloud ++ [p]);
}.

Section returning.
Context `{B : Backend} `{L : !Lawful}.

(** The structure of the store indexes its active cloud. *)
Definition indexed (s : Store) : Prop :=
  indexes (structure s) (active_vertices_xyz s).

(** A store on which a call with well-formed input returns. *)
Definition ready (s : Store) : Prop :=
  consistent s ∧ index_bounded s ∧ indexed s.

(** The locals of the vertex loop, [n] inputs having been numbered: the
    candidate vectors are parallel, candidates are inputs, and every entry
    of [temp_reindex] is a stored index or names a candidate. *)
Record candidates_ok (N n : nat) (l : Locals) : Prop := {
  co_check : length (potential_new_vertices_check l) = length (potential_new_vertices l);
  co_cloud : length (temp_new_vertices l) = length (potential_new_vertices l);
  co_temp : temp_indexes (temp_structure l) (temp_new_vertices l);
  co_inputs : Forall (λ i, i < n) (potential_new_vertices l);
  co_reindex : Forall (λ v, v < N + length (potential_new_vertices l)) (temp_reindex l);
  co_count : length (potential_new_vertices l) ≤ length (temp_reindex l);
}.

(** The locals of the voxblox overload between two vertices: every counted
    vertex has its point, its entry in [temp_reindex] and its block, whose
    index is a key of the remapping; candidate [k] has the entry [N + k];
    a converged vertex has the entry of the candidate it converged onto. *)
Record block_ok (N : nat) (keys : gset BlockIndex) (l : BlockLocals) : Prop := {
  bo_base : candidates_ok N (count l) (base l);
  bo_temp : length (temp_reindex (base l)) = count l;
  bo_points : length (all_parsed_points l) = count l;
  bo_blocks : ∀ c, c < count l →
    ∃ bi k, count_to_block l !! c = Some (bi, k) ∧ bi ∈ keys;
  bo_first : ∀ k i, potential_new_vertices (base l) !! k = Some i →
    temp_reindex (base l) !! i = Some (N + k);
  bo_conv : ∀ i ms m, converged_vertices l !! i = Some ms → m ∈ ms →
    m < count l ∧ temp_reindex (base l) !! m = temp_reindex (base l) !! i;
}.

(** Input the overloads accept: surfaces that name input vertices, blocks
    of whole triangles. *)
Definition surfaces_in_range (V : list Vertex) (S : list Surface) : Prop :=
  Forall (Forall (λ i, i < length V)) S.
Definition whole_triangles (mesh : list MeshBlock) : Prop :=
  Forall (λ mb, length (block_points mb) mod 3 = 0) mesh.

End returning.

(** *** The older compressor *)

Section octree_vocabulary.
Context `{O : OctreeCompression.Octree}.
Import OctreeCompression.

(** What the older compressor has added: [added] vertices, each an active
    slot with the next index, and [ts] triangles. *)
Definition octree_appended (m : Members) (out : Outputs) (m' : Members)
    (out' : Outputs) (added : list PointT) (ts : list Surface) : Prop :=
  all_vertices m' = all_vertices m ++ added ∧
  new_vertices out' = new_vertices out ++ added ∧
  active_vertices m' = active_vertices m ++ added ∧
  active_vertices_index m' =
    active_vertices_index m ++ seq (length (all_vertices m)) (length added) ∧
  polygons m' = polygons m ++ ts ∧
  new_triangles out' = new_triangles out ++ ts.

(** The first pass keeps every value of [remapping], and every index pushed
    to the copy of the active indices, in [temp_new_indices]; [A] is
    [original_size_active]. *)
Definition tracked (A : nat) (t : Temps) : Prop :=
  (∀ i v, remapping t !! i = Some v → v ∈ temp_new_indices t) ∧
  (∀ k v, A ≤ k → temp_active_vertices_index t !! k = Some v →
          v ∈ temp_new_indices t).

(** Every triangle that passed the check has a vertex of [new] whose flag
    is set. *)
Definition flagged (new : list nat) (acc : list Surface * gmap nat bool) : Prop :=
  ∀ tri, tri ∈ acc.1 → ∃ v, v ∈ tri ∧ v ∈ new ∧ acc.2 !! v = Some true.

(** The second pass so far: [idxs] is what it pushed to [new_indices]; these
    and the values of [second_remapping] are indices into [all_vertices_]. *)
Definition stored_indices (out : Outputs) (s : Second) (idxs : list nat) : Prop :=
  new_triangles (outputs s) = new_triangles out ∧
  new_indices (outputs s) = new_indices out ++ idxs ∧
  (∀ v, v ∈ idxs → v < length (all_vertices (members s))) ∧
  (∀ k v, second_remapping s !! k = Some v → v < length (all_vertices (members s))).

(** The members agree: one index per active vertex and one time per stored
    vertex; the active indices and the polygons index [all_vertices_]. *)
Definition octree_consistent (m : Members) : Prop :=
  length (active_vertices m) = length (active_vertices_index m) ∧
  length (vertices_latest_time m) = length (all_vertices m) ∧
  (∀ v, v ∈ active_vertices_index m → v < length (all_vertices m)) ∧
  (∀ tri v, tri ∈ polygons m → v ∈ tri → v < length (all_vertices m)).

(** The copies of the first pass: the active indices and the new indices
    index the copy of all vertices, and every new index has a flag. *)
Definition bounded_temps (t : Temps) : Prop :=
  (∀ v, v ∈ temp_active_vertices_index t → v < length (temp_all_vertices t)) ∧
  (∀ v, v ∈ temp_new_indices t →
        v < length (temp_all_vertices t) ∧
        is_Some (temp_have_adjacent_polygons t !! v)).

(** The second pass between two rounds. *)
Definition parallel (s : Second) : Prop :=
  length (active_vertices (members s)) = length (active_vertices_index (members s)) ∧
  length (vertices_latest_time (members s)) = length (all_vertices (members s)).

(** The second pass after [octree_->addPointFromCloud] has thrown: the
    point is in [active_vertices_], its index is not. *)
Definition half_added (m : Members) : Prop :=
  length (active_vertices m) = S (length (active_vertices_index m)).

(** The first pass over members [m]: no index is twice in
    [temp_new_indices], the copy of the active indices starts with the
    active indices of [m], and a flag that is set belongs to a vertex of
    [m]. *)
Definition old_flagged (m : Members) (t : Temps) : Prop :=
  NoDup (temp_new_indices t) ∧
  (∃ rest, temp_active_vertices_index t = active_vertices_index m ++ rest) ∧
  (∀ idx, temp_have_adjacent_polygons t !! idx = Some true →
          idx < length (all_vertices m)).

(** Every flag that is set was set in [have], or belongs to a vertex of a
    triangle that passed the check. *)
Definition flag_sources (have : gmap nat bool)
    (acc : list Surface * gmap nat bool) : Prop :=
  ∀ idx, acc.2 !! idx = Some true →
    have !! idx = Some true ∨ ∃ tri, tri ∈ acc.1 ∧ idx ∈ tri.

(** Every vertex stored since there were [N] is the value of
    [second_remapping] at a new index whose flag is set, and which is not
    among [rest], the indices the second pass has yet to visit. *)
Definition faced (N : nat) (have : gmap nat bool) (rest : list nat)
    (s : Second) : Prop :=
  ∀ k, N ≤ k → k < length (all_vertices (members s)) →
    ∃ idx, (idx ∉ rest) ∧ N ≤ idx ∧ have !! idx = Some true ∧
           second_remapping s !! idx = Some k.

(** The second pass so far: [idxs] is what it pushed to [new_indices], and
    each of them has the time [stamp]; there is one time per stored
    vertex. *)
Definition stamped (out : Outputs) (stamp : Z) (s : Second) (idxs : list nat) : Prop :=
  length (vertices_latest_time (members s)) = length (all_vertices (members s)) ∧
  new_indices (outputs s) = new_indices out ++ idxs ∧
  ∀ v, v ∈ idxs → vertices_latest_time (members s) !! v = Some stamp.

(** How the [try] blocks of the first pass end, vertex by vertex: each
    block is entered with the temporaries the block before left. *)
Fixpoint attempts (A : nat) (t : Temps) (input : list (nat * PointT))
    : list (result unit) :=
  match input with
  | [] => []
  | (i, p) :: rest =>
      (insert_vertex A t i p).2 :: attempts A (insert_vertex A t i p).1 rest
  end.

(** The temporaries after the [try] blocks of all the vertices. *)
Definition temps_after (A : nat) (t : Temps) (input : list (nat * PointT)) : Temps :=
  foldl (λ t ip, (insert_vertex A t ip.1 ip.2).1) t input.

(** A block that ended with an exception, which [catch (...)] takes, and a
    block that read past the end of a vector, which nothing takes. *)
Definition caught (r : result unit) : bool :=
  match r with
  | Ret _ | Fail OutOfBounds => false
  | Fail _ => true
  end.
Definition past_the_end (r : result unit) : bool :=
  match r with Fail OutOfBounds => true | _ => false end.

End octree_vocabulary.

(** What a grid promises about a cloud: every occupied cell holds a slot of
    the cloud. *)
Definition grid_indexes (g : gmap (Z * Z * Z) nat) (cloud : list (Z * Z * Z)) : Prop :=
  ∀ c r, g !! c = Some r → r < length cloud.

(** * Scenarios

    The grid backend at resolution 1.0, with coordinates in tenths. *)

Definition grid : Backend := grid_backend 10 None.


Definition pt (x y z : Z) : ColoredPoint :=
  {| position := (x, y, z); rgba := 255 |}.

Definition flat_call (B : Backend) (V : list Vertex) (S : list Surface)
    (stamp : Z) (s : Store) : outcome (gmap nat nat) unit :=
  compressAndIntegrate V S stamp (fresh_heap s ∅).

Definition block_call (B : Backend) (mesh : list MeshBlock) (stamp : Z)
    (s : Store) : outcome (gmap BlockIndex (gmap nat nat)) unit :=
  compressAndIntegrateBlocks mesh stamp (fresh_heap s ∅).

(** A triangle whose first corner is given twice, 0.1 apart; the face uses
    the second copy. *)
Definition doubled_corner : list ColoredPoint :=
  [pt 0 0 0; pt 1 0 0; pt 20 0 0; pt 0 20 0].
Definition doubled_corner_faces : list Surface := [[1; 2; 3]].

Definition after_doubled_corner : Heap (B:=grid) (gmap nat nat) :=
  final_heap (flat_call grid doubled_corner doubled_corner_faces 1 empty_store).

(** Two corners given twice each. *)
Definition two_doubled_corners : list ColoredPoint :=
  [pt 0 0 0; pt 1 0 0; pt 20 0 0; pt 21 0 0; pt 0 20 0].
Definition two_doubled_corners_faces : list Surface := [[0; 2; 4]].

(** One triangle, and the same triangle listed twice. *)
Definition triangle : list ColoredPoint := [pt 0 0 0; pt 20 0 0; pt 0 20 0].
Definition after_triangle : Heap (B:=grid) (gmap nat nat) :=
  final_heap (flat_call grid triangle [[0; 1; 2]] 1 empty_store).

(** The triangle observed again, every corner moved by 0.1. *)
Definition nudged_triangle : list ColoredPoint := [pt 1 0 0; pt 21 0 0; pt 1 21 0].

(** A mesh block with one face: one corner near a stored vertex, two new. *)
Definition block_near_triangle : list (MeshBlock (B:=grid)) :=
  [@Build_MeshBlock grid (0, 0, 0)%Z [pt 1 0 0; pt 40 0 0; pt 0 40 0]].

(** A mesh block with two faces whose corners are 0.1 apart. *)
Definition twin_faces_block : list (MeshBlock (B:=grid)) :=
  [@Build_MeshBlock grid (0, 0, 0)%Z
     [pt 0 0 0; pt 20 0 0; pt 0 20 0; pt 1 0 0; pt 21 0 0; pt 1 21 0]].


(** A grid that holds three points and refuses a fourth. *)
Definition small_grid : Backend :=
  {| Point := Z * Z * Z;
     Vertex := ColoredPoint;
     xyz := position;
     Structure := gmap (Z * Z * Z) nat;
     TempStructure := gmap (Z * Z * Z) nat;
     emptyStructure := ∅;
     reInitializeStructure := grid_build 10 None;
     checkIfVertexUnique := grid_query 10 None;
     updateStructure := λ g cloud,
       if length cloud <=? 3 then grid_update 10 None g cloud
       else Fail BackendFailure;
     initializeTempStructure := grid_build 10 None;
     checkIfVertexTempUnique := grid_query 10 None;
     updateTempStructure := grid_update 10 None |}.

(** A second triangle, far from the first. *)
Definition far_triangle : list ColoredPoint := [pt 100 0 0; pt 120 0 0; pt 100 20 0].

(** The small grid after the triangle (stamp 1), and after the call with the
    far triangle (stamp 2) that the grid has ended. *)
Definition small_after_triangle : Heap (B:=small_grid) (gmap nat nat) :=
  final_heap (flat_call small_grid triangle [[0; 1; 2]] 1 empty_store).
Definition small_after_refusal : Heap (B:=small_grid) (gmap nat nat) :=
  final_heap (flat_call small_grid far_triangle [[0; 1; 2]] 2
                (store small_after_triangle)).

(** An octree that throws on every call. *)
Definition broken_octree : OctreeCompression.Octree :=
  {| OctreeCompression.PointT := ColoredPoint;
     OctreeCompression.Tree := unit;
     OctreeCompression.Box := unit;
     OctreeCompression.inside := λ _ _, true;
     OctreeCompression.getBoundingBox := λ _, Fail BackendFailure;
     OctreeCompression.isVoxelOccupiedAtPoint := λ _ _ _, Fail BackendFailure;
     OctreeCompression.addPointFromCloud := λ _ _ _, Fail BackendFailure;
     OctreeCompression.approxNearestSearch := λ _ _ _, Fail BackendFailure |}.

(** An [OctreeCompression] that has seen nothing, and empty buffers. *)
Definition new_compressor : OctreeCompression.Members (O:=broken_octree) :=
  @OctreeCompression.Build_Members broken_octree [] [] () [] [] [] ∅.
Definition empty_buffers : OctreeCompression.Outputs (O:=broken_octree) :=
  @OctreeCompression.Build_Outputs broken_octree [] [] [].

(** A new octree that cannot be filled either. *)
Definition broken_octree_from_cloud : OctreeCompression.OctreeFromCloud (O:=broken_octree) :=
  {| OctreeCompression.addPointsFromInputCloud := λ _, Fail BackendFailure |}.

(** Two active slots: the first last seen at 1 and the second at 5, and the
    other way round. *)
Definition old_then_new : OctreeCompression.Members (O:=broken_octree) :=
  @OctreeCompression.Build_Members broken_octree
    [pt 0 0 0; pt 20 0 0] [pt 0 0 0; pt 20 0 0] () [0; 1] [1; 5]%Z [] ∅.
Definition new_then_old : OctreeCompression.Members (O:=broken_octree) :=
  @OctreeCompression.Build_Members broken_octree
    [pt 0 0 0; pt 20 0 0] [pt 0 0 0; pt 20 0 0] () [0; 1] [5; 1]%Z [] ∅.

(** An octree whose bounding box holds no point: every input vertex is a new
    point, and the octree takes it. *)
Definition boxless_octree : OctreeCompression.Octree :=
  {| OctreeCompression.PointT := ColoredPoint;
     OctreeCompression.Tree := unit;
     OctreeCompression.Box := unit;
     OctreeCompression.inside := λ _ _, false;
     OctreeCompression.getBoundingBox := λ _, Ret ();
     OctreeCompression.isVoxelOccupiedAtPoint := λ _ _ _, Ret false;
     OctreeCompression.addPointFromCloud := λ _ _ _, Ret ();
     OctreeCompression.approxNearestSearch := λ _ _ _, Ret 0 |}.

(** An [OctreeCompression] over it that has seen nothing, and empty
    buffers. *)
Definition boxless_compressor : OctreeCompression.Members (O:=boxless_octree) :=
  @OctreeCompression.Build_Members boxless_octree [] [] () [] [] [] ∅.
Definition boxless_buffers : OctreeCompression.Outputs (O:=boxless_octree) :=
  @OctreeCompression.Build_Outputs boxless_octree [] [] [].

(** An octree that cannot take a point while the cloud starts at x = 20;
    every input vertex is a new point. *)
Definition picky_octree : OctreeCompression.Octree :=
  {| OctreeCompression.PointT := ColoredPoint;
     OctreeCompression.Tree := unit;
     OctreeCompression.Box := unit;
     OctreeCompression.inside := λ _ _, false;
     OctreeCompression.getBoundingBox := λ _, Ret ();
     OctreeCompression.isVoxelOccupiedAtPoint := λ _ _ _, Ret false;
     OctreeCompression.addPointFromCloud := λ _ cloud _,
       match cloud with
       | p :: _ => if ((position p).1.1 =? 20)%Z then Fail BackendFailure else Ret ()
       | [] => Ret ()
       end;
     OctreeCompression.approxNearestSearch := λ _ _ _, Ret 0 |}.

(** An [OctreeCompression] over it that has seen nothing, and empty
    buffers. *)
Definition picky_compressor : OctreeCompression.Members (O:=picky_octree) :=
  @OctreeCompression.Build_Members picky_octree [] [] () [] [] [] ∅.
Definition picky_buffers : OctreeCompression.Outputs (O:=picky_octree) :=
  @OctreeCompression.Build_Outputs picky_octree [] [] [].

(** Four corners of a square, and the triangle without the first. *)
Definition square : list ColoredPoint := [pt 0 0 0; pt 20 0 0; pt 0 20 0; pt 20 20 0].

(** An octree that cannot take a point at x = 20; every input vertex is a
    new point. *)
Definition fussy_octree : OctreeCompression.Octree :=
  {| OctreeCompression.PointT := ColoredPoint;
     OctreeCompression.Tree := unit;
     OctreeCompression.Box := unit;
     OctreeCompression.inside := λ _ _, false;
     OctreeCompression.getBoundingBox := λ _, Ret ();
     OctreeCompression.isVoxelOccupiedAtPoint := λ _ _ _, Ret false;
     OctreeCompression.addPointFromCloud := λ _ cloud i,
       match cloud !! i with
       | Some p => if ((position p).1.1 =? 20)%Z then Fail BackendFailure else Ret ()
       | None => Ret ()
       end;
     OctreeCompression.approxNearestSearch := λ _ _ _, Ret 0 |}.

Definition fussy_compressor : OctreeCompression.Members (O:=fussy_octree) :=
  @OctreeCompression.Build_Members fussy_octree [] [] () [] [] [] ∅.

(** How a call ended: [None] for a normal return, the exception otherwise. *)
Definition thrown `{B : Backend} {R A} (o : outcome R A) : option exn :=
  match o with Normal _ _ => None | Throw e _ => Some e end.

Definition failure {A} (r : result A) : option exn :=
  match r with Ret _ => None | Fail e => Some e end.

(** No two stored polygons have the same set of vertices. *)
Definition no_duplicate_surfaces `{B : Backend} (s : Store) : Prop :=
  ∀ i j t1 t2, i ≠ j → polygons s !! i = Some t1 → polygons s !! j = Some t2 →
    same_vertex_set t1 t2 = false.

(** * Reasoning about runs *)

Section wp.
Context `{B : Backend}.

Lemma wp_normal {R A} (m : Run R A) Q E h a h' :
  wp m Q E h → m h = Normal a h' → Q a h'.
Proof. unfold wp. intros Hwp Heq. by rewrite Heq in Hwp. Qed.


Lemma wp_mono {R A} (m : Run R A) (Q Q' : A → Heap R → Prop)
    (E E' : exn → Heap R → Prop) h :
  wp m Q E h →
  (∀ a h', Q a h' → Q' a h') → (∀ e h', E e h' → E' e h') →
  wp m Q' E' h.
Proof. unfold wp. destruct (m h); eauto. Qed.

Lemma wp_ret {R A} (a : A) Q E (h : Heap R) : wp (mret a) Q E h ↔ Q a h.
Proof. done. Qed.

Lemma wp_bind {R A C} (m : Run R A) (f : A → Run R C) Q E h :
  wp (m ≫= f) Q E h ↔ wp m (λ a h', wp (f a) Q E h') E h.
Proof. unfold wp, mbind, Run_bind. by destruct (m h). Qed.

Lemma wp_throw {R A} e (Q : A → Heap R → Prop) E h :
  wp (throw e) Q E h ↔ E e h.
Proof. done. Qed.

Lemma wp_gets {R A} (f : Heap R → A) Q E h : wp (gets f) Q E h ↔ Q (f h) h.
Proof. done. Qed.

Lemma wp_modify {R} (f : Heap R → Heap R) Q E h :
  wp (modify f) Q E h ↔ Q () (f h).
Proof. done. Qed.

Lemma wp_call {R A} (r : result A) Q E (h : Heap R) :
  wp (call r) Q E h ↔ match r with Ret a => Q a h | Fail e => E e h end.
Proof. by destruct r. Qed.

Lemma wp_index {R A} (v : list A) i Q E (h : Heap R) :
  wp (index v i) Q E h ↔
  match v !! i with Some a => Q a h | None => E OutOfBounds h end.
Proof. unfold index. by destruct (v !! i). Qed.

Lemma wp_at {R A} (v : list A) i Q E (h : Heap R) :
  wp (at_ v i) Q E h ↔
  match v !! i with Some a => Q a h | None => E OutOfRange h end.
Proof. unfold at_. by destruct (v !! i). Qed.

(** Loop rule: the invariant may mention the part of the list already
    consumed. *)
Lemma wp_foldM_from {R A C} (I : list A → C → Heap R → Prop) E
    (f : C → A → Run R C) (pre l : list A) c h :
  I pre c h →
  (∀ p a c h, (∃ q, pre ++ l = p ++ a :: q) → pre `prefix_of` p →
     I p c h → wp (f c a) (λ c' h', I (p ++ [a]) c' h') E h) →
  wp (foldM f l c) (λ c' h', I (pre ++ l) c' h') E h.
Proof.
  revert pre c h. induction l as [|a l IH]; intros pre c h HI Hstep.
  - rewrite app_nil_r. by apply wp_ret.
  - simpl. apply wp_bind.
    eapply wp_mono; [apply (Hstep pre a c h); eauto | | done].
    intros c' h' HI'. simpl in HI'.
    replace (pre ++ a :: l) with ((pre ++ [a]) ++ l) by by rewrite <- app_assoc.
    apply IH; [done |].
    intros p a' c'' h'' [q Hq] Hpre. apply Hstep.
    + exists q. by rewrite <- Hq, <- app_assoc.
    + etrans; [by apply prefix_app_r | done].
Qed.

Lemma wp_foldM {R A C} (I : list A → C → Heap R → Prop) E
    (f : C → A → Run R C) (l : list A) c h :
  I [] c h →
  (∀ p a q c h, l = p ++ a :: q →
     I p c h → wp (f c a) (λ c' h', I (p ++ [a]) c' h') E h) →
  wp (foldM f l c) (λ c' h', I l c' h') E h.
Proof.
  intros HI Hstep.
  apply (wp_foldM_from I E f [] l c h HI).
  intros p a c' h' [q Hq] _. by apply (Hstep p a q).
Qed.

(** Loop rule for an invariant that ignores the position. *)
Lemma wp_foldM_inv {R A C} (I : C → Heap R → Prop) E
    (f : C → A → Run R C) (l : list A) c h :
  I c h →
  (∀ a c h, a ∈ l → I c h → wp (f c a) I E h) →
  wp (foldM f l c) I E h.
Proof.
  intros HI Hstep.
  apply (wp_foldM (λ _, I) E f l c h HI).
  intros p a q c' h' -> HI'. apply Hstep; [|done].
  apply elem_of_app. right. by left.
Qed.

Lemma wp_forM {R A C} (I : Heap R → Prop) (P : A → C → Prop) E
    (f : A → Run R C) (l : list A) h :
  I h →
  (∀ a h, a ∈ l → I h → wp (f a) (λ c h', I h' ∧ P a c) E h) →
  wp (forM f l) (λ cs h', I h' ∧ Forall2 P l cs) E h.
Proof.
  revert h. induction l as [|a l IH]; intros h HI Hstep.
  - apply wp_ret. by split.
  - simpl. apply wp_bind.
    eapply wp_mono; [apply Hstep; [by left | done] | | done].
    intros c h' [HI' Hc]. simpl. apply wp_bind.
    eapply wp_mono; [apply IH; [done |] | | done].
    + intros a' h'' Ha'. apply Hstep. by right.
    + intros cs h'' [HI'' Hcs]. simpl. apply wp_ret. split; [done |].
      by constructor.
Qed.

End wp.

Ltac wp_step :=
  lazymatch goal with
  | |- wp (mret _) _ _ _ => apply wp_ret
  | |- wp (throw _) _ _ _ => apply wp_throw
  | |- wp (gets _) _ _ _ => apply wp_gets
  | |- wp (modify _) _ _ _ => apply wp_modify
  | |- wp (_ ≫= _) _ _ _ => apply wp_bind
  | |- wp (call _) _ _ _ => apply wp_call
  | |- wp (index _ _) _ _ _ => apply wp_index
  | |- wp (at_ _ _) _ _ _ => apply wp_at
  | |- wp (if bool_decide _ then _ else _) _ _ _ => case_bool_decide
  | |- wp (match ?x with _ => _ end) _ _ _ => destruct x eqn:?
  | |- match ?x with _ => _ end => destruct x eqn:?
  end;
  cbv beta.
Ltac wp_run := repeat wp_step.

Section flat.
Context `{B : Backend}.

Lemma touched_refl {R} stamp (h : Heap R) : touched stamp h h.
Proof. split; auto. Qed.

Lemma touched_trans {R} stamp (h1 h2 h3 : Heap R) :
  touched stamp h1 h2 → touched stamp h2 h3 → touched stamp h1 h3.
Proof.
  intros [] []. split; try congruence.
  - intros i t Ht. destruct (touched_times1 i t Ht) as [|Ht']; auto.
  - by etrans.
Qed.

Lemma reobserve_spec {R} r stamp (h : Heap R) :
  wp (reobserve r stamp)
     (λ id h', active_vertices_index (store h) !! r = Some id ∧ touched stamp h h')
     (λ _ h', touched stamp h h') h.
Proof.
  unfold reobserve, touch. wp_run.
  - split; [done|]. split; simpl; auto.
    + by rewrite length_insert.
    + intros i t. destruct (decide (i = r)) as [->|].
      * rewrite list_lookup_insert_eq by done. naive_solver.
      * rewrite list_lookup_insert_ne by done. auto.
    + unfold push_if_absent. case_bool_decide; [done|]. by apply prefix_app_r.
  - split; simpl; auto.
    unfold push_if_absent. case_bool_decide; [done|]. by apply prefix_app_r.
  - apply touched_refl.
Qed.

(** The first loop on one vertex: the heap is only touched; [reindex] gets
    an entry for [i] exactly when the vertex is a reobservation. *)
Lemma classify_spec {R} stamp N l i p (h : Heap R) :
  wp (classify stamp N l (i, p))
     (λ l' h', touched stamp h h' ∧
        match checkIfVertexUnique (structure (store h)) (xyz p) with
        | Ret (Some r) => ∃ id, active_vertices_index (store h) !! r = Some id ∧
                                reindex l' = <[i:=id]> (reindex l)
        | _ => reindex l' = reindex l
        end)
     (λ _ h', touched stamp h h') h.
Proof.
  unfold classify. wp_run; try apply touched_refl; try (split; [apply touched_refl | done]).
  eapply wp_mono; [apply reobserve_spec | | done].
  intros id h' [Hid Ht]. wp_run. split; [done|]. by exists id.
Qed.

Lemma imap_pair_split {A} (V : list A) pre (a : nat * A) post :
  imap pair V = pre ++ a :: post → a.1 = length pre ∧ V !! length pre = Some a.2.
Proof.
  intros Heq.
  assert (imap pair V !! length pre = Some a) as Hl.
  { rewrite Heq. by rewrite list_lookup_middle. }
  rewrite list_lookup_imap in Hl.
  destruct (V !! length pre) as [x|]; simplify_eq/=. done.
Qed.

Lemma classify_loop_spec {R} stamp N (V : list Vertex) l0 (h : Heap R) :
  wp (foldM (classify stamp N) (imap pair V) l0)
     (λ l h', touched stamp h h' ∧
        ∀ i p r id, V !! i = Some p →
          checkIfVertexUnique (structure (store h)) (xyz p) = Ret (Some r) →
          active_vertices_index (store h) !! r = Some id →
          reindex l !! i = Some id)
     (λ _ h', touched stamp h h') h.
Proof.
  eapply wp_mono; [| |].
  - apply (wp_foldM (λ pre l h', touched stamp h h' ∧
        ∀ i p r id, i < length pre → V !! i = Some p →
          checkIfVertexUnique (structure (store h)) (xyz p) = Ret (Some r) →
          active_vertices_index (store h) !! r = Some id →
          reindex l !! i = Some id) (λ _ h', touched stamp h h')).
    + split; [apply touched_refl|]. simpl. lia.
    + intros pre [i p] post l h1 Hsplit [Ht HI].
      apply imap_pair_split in Hsplit as [Hi Hp]. simpl in *. subst i.
      eapply wp_mono; [apply classify_spec | |].
      * intros l' h2 [Ht2 Hl']. split; [by eapply touched_trans|].
        intros j q r id Hj Hq Hhit Hid. rewrite length_app in Hj. simpl in Hj.
        rewrite (touched_structure _ _ _ Ht), (touched_index _ _ _ Ht) in Hl'.
        destruct (decide (j = length pre)) as [->|Hne].
        -- simplify_eq. rewrite Hhit in Hl'. destruct Hl' as (id' & Hid' & ->).
           simplify_eq. by rewrite lookup_insert_eq.
        -- assert (reindex l !! j = Some id) as Hold by (eapply HI; eauto; lia).
           destruct (checkIfVertexUnique _ _) as [[r'|]|]; try congruence.
           destruct Hl' as (id' & _ & ->). by rewrite lookup_insert_ne.
      * intros e h2 Ht2. by eapply touched_trans.
  - intros l h' [Ht HI]. split; [done|].
    intros i p r id Hp. eapply HI; [|done]. rewrite length_imap.
    by eapply lookup_lt_Some.
  - done.
Qed.

Lemma forM_at_spec {R A} (v : list A) (s : list nat) (h : Heap R) :
  wp (forM (at_ v) s)
     (λ cs h', h' = h ∧ Forall2 (λ i c, v !! i = Some c) s cs)
     (λ _ h', h' = h) h.
Proof.
  eapply wp_mono.
  - apply (wp_forM (λ h', h' = h) (λ i c, v !! i = Some c) (λ _ h', h' = h)); [done|].
    intros i h' _ ->. by wp_run.
  - done.
  - done.
Qed.

Lemma mark_spec {R} N c v (h : Heap R) :
  wp (mark N c v) (λ c' h', h' = h ∧ length c' = length c) (λ _ h', h' = h) h.
Proof. unfold mark. wp_run; try done. split; [done|]. by rewrite length_insert. Qed.

Lemma check_surface_spec {R} N c t (h : Heap R) :
  wp (check_surface N c t) (λ c' h', h' = h ∧ length c' = length c)
     (λ _ h', h' = h) h.
Proof.
  unfold check_surface. wp_run; try done.
  apply (wp_foldM_inv (λ c' h', h' = h ∧ length c' = length c)); [done|].
  intros v c' h' _ [-> Hlen].
  eapply wp_mono; [apply mark_spec | |]; simpl; [|done].
  intros c'' h'' [-> ?]. split; [done | congruence].
Qed.

Lemma prefilter_spec {R} N l s (h : Heap R) :
  wp (prefilter N l s)
     (λ l' h', h' = h ∧ reindex l' = reindex l ∧
               temp_reindex l' = temp_reindex l ∧
               potential_new_vertices l' = potential_new_vertices l ∧
               length (potential_new_vertices_check l') =
                 length (potential_new_vertices_check l))
     (λ _ h', h' = h) h.
Proof.
  unfold prefilter. wp_run.
  eapply wp_mono; [apply forM_at_spec | |]; simpl; [|done].
  intros t h' [-> _]. wp_run.
  eapply wp_mono; [apply check_surface_spec | |]; simpl; [|done].
  intros c h' [-> Hlen]. by wp_run.
Qed.

Lemma prefilter_loop_spec {R} N S l (h : Heap R) :
  wp (foldM (prefilter N) S l)
     (λ l' h', h' = h ∧ reindex l' = reindex l ∧
               temp_reindex l' = temp_reindex l ∧
               potential_new_vertices l' = potential_new_vertices l ∧
               length (potential_new_vertices_check l') =
                 length (potential_new_vertices_check l))
     (λ _ h', h' = h) h.
Proof.
  apply wp_foldM_inv; [done|].
  intros s l' h' _ (-> & Hr & Ht & Hp & Hc).
  eapply wp_mono; [apply prefilter_spec | |]; simpl; [|done].
  intros l'' h'' (-> & ? & ? & ? & ?). repeat split; congruence.
Qed.

Lemma insert_new_subseteq `{Countable K} {V} (k : K) (v : V) (m : gmap K V) :
  m ⊆ insert_new k v m.
Proof.
  unfold insert_new. destruct (m !! k) eqn:Hk; [done|]. by apply insert_subseteq.
Qed.

Lemma fan_out_subseteq input_idx v tri temp (m : gmap nat nat) :
  m ⊆ fan_out input_idx v tri temp m.
Proof.
  unfold fan_out. generalize (imap pair temp). intros l. revert m.
  induction l as [|[k t] l IH]; intros m; simpl; [done|].
  etrans; [|apply IH]. case_match; [apply insert_new_subseteq | done].
Qed.

Lemma commit_vertex_spec {R} p stamp (h : Heap R) :
  wp (commit_vertex p stamp)
     (λ v h', v = length (all_vertices (store h)) ∧
        ∃ t, updateStructure (structure (store h))
               (active_vertices_xyz (store h) ++ [xyz p]) = Ret t ∧
             h' = with_store (λ _, committed p stamp t (store h)) h)
     (λ e h', updateStructure (structure (store h))
                (active_vertices_xyz (store h) ++ [xyz p]) = Fail e ∧
              h' = with_store (push_active_xyz (xyz p)) h) h.
Proof.
  unfold commit_vertex. wp_run; simpl in *; [|done].
  rewrite length_app. simpl.
  replace (length (all_vertices (store h)) + 1 - 1) with (length (all_vertices (store h))) by lia.
  split; [done|]. eexists. split; [done|]. done.
Qed.

Lemma commit_remapping V stamp l i (h : Heap (gmap nat nat)) :
  wp (commit V stamp l i) (λ _ h', remapping h ⊆ remapping h') (λ _ _, True) h.
Proof.
  unfold commit. wp_run; try done.
  eapply wp_mono; [apply commit_vertex_spec | |]; simpl; [|done].
  intros w h' (-> & t & _ & ->). wp_run; simpl; [|done].
  etrans; [apply insert_new_subseteq | apply fan_out_subseteq].
Qed.

Lemma surfaced_refl {R} (h : Heap R) : surfaced h h.
Proof. split; auto. exists []. by rewrite !app_nil_r. Qed.

Lemma surfaced_trans {R} (h1 h2 h3 : Heap R) :
  surfaced h1 h2 → surfaced h2 h3 → surfaced h1 h3.
Proof.
  intros [? ? ? ? ? ? ? ? (ts1 & Hp1 & Hn1)] [? ? ? ? ? ? ? ? (ts2 & Hp2 & Hn2)].
  split; try congruence.
  exists (ts1 ++ ts2). rewrite Hp2, Hn2, Hp1, Hn1. by rewrite !app_assoc.
Qed.

Lemma add_surface_spec {R} t (h : Heap R) :
  wp (add_surface t) (λ _ h', h' = surface_added t h) (λ _ _, False) h.
Proof.
  unfold add_surface. wp_run. unfold surface_added. simpl.
  rewrite length_app. simpl.
  by replace (length (polygons (store h)) + 1 - 1) with (length (polygons (store h))) by lia.
Qed.

Lemma surface_added_surfaced {R} t (h : Heap R) : surfaced h (surface_added t h).
Proof. split; simpl; auto. by exists [t]. Qed.

Lemma integrate_surface_surfaced {R} N reindex u s (h : Heap R) :
  wp (integrate_surface N reindex u s) (λ _ h', surfaced h h') (λ _ _, False) h.
Proof.
  unfold integrate_surface. wp_run; try apply surfaced_refl.
  eapply wp_mono; [apply add_surface_spec | |]; simpl; [|done].
  intros _ h' ->. apply surface_added_surfaced.
Qed.

Lemma integrate_loop_surfaced {R} N reindex S (h : Heap R) :
  wp (foldM (integrate_surface N reindex) S ()) (λ _ h', surfaced h h')
     (λ _ _, False) h.
Proof.
  apply (wp_foldM_inv (λ _ h', surfaced h h')); [apply surfaced_refl|].
  intros s u h' _ Hs.
  eapply wp_mono; [apply integrate_surface_surfaced | |]; simpl; [|done].
  intros _ h'' Hs'. by eapply surfaced_trans.
Qed.

Lemma commit_loop_remapping V stamp l (slots : list nat) (h : Heap (gmap nat nat)) :
  wp (foldM (commit V stamp) slots l) (λ _ h', remapping h ⊆ remapping h')
     (λ _ _, True) h.
Proof.
  apply (wp_foldM_inv (λ _ h', remapping h ⊆ remapping h')); [done|].
  intros i l' h' _ Hsub.
  eapply wp_mono; [apply commit_remapping | |]; simpl; [|done].
  intros _ h'' Hsub'. by etrans.
Qed.

(** C8. Flat overload: an input vertex that the first loop classifies as a
    reobservation of active slot [r] is mapped, in the returned remapping, to
    [active_vertices_index_[r]], whether or not a face of the batch uses it. *)
Theorem flat_reobservation_is_remapped (V : list Vertex) (S : list Surface)
    (stamp : Z) (h h' : Heap (gmap nat nat)) (i : nat) (p : Vertex) (r id : nat) :
  3 ≤ length V → S ≠ [] →
  V !! i = Some p →
  checkIfVertexUnique (structure (store h)) (xyz p) = Ret (Some r) →
  active_vertices_index (store h) !! r = Some id →
  compressAndIntegrate V S stamp h = Normal () h' →
  remapping h' !! i = Some id.
Proof.
  intros HV HS Hp Hhit Hid Hrun.
  cut (wp (compressAndIntegrate V S stamp)
          (λ _ h', remapping h' !! i = Some id) (λ _ _, True) h).
  { intros Hwp. by apply (wp_normal _ _ _ _ _ _ Hwp Hrun). }
  unfold compressAndIntegrate.
  destruct (length V <? 3) eqn:HV'; [apply Nat.ltb_lt in HV'; lia|].
  destruct (length S =? 0) eqn:HS'.
  { apply Nat.eqb_eq in HS'. by destruct S. }
  simpl. wp_run; [|done].
  eapply wp_mono; [apply classify_loop_spec | |]; simpl; [|done].
  intros l1 h1 [Ht Hre]. wp_run.
  eapply wp_mono; [apply prefilter_loop_spec | |]; simpl; [|done].
  intros l2 h2 (-> & Hre2 & _). wp_run.
  eapply wp_mono; [apply commit_loop_remapping | |]; simpl; [|done].
  intros l3 h3 Hsub. wp_run.
  eapply wp_mono; [apply integrate_loop_surfaced | |]; simpl; [|done].
  intros _ h4 Hs. rewrite (surfaced_remapping _ _ Hs).
  eapply lookup_weaken; [|done]. rewrite Hre2. by eapply Hre.
Qed.

End flat.

Section blocks.
Context `{B : Backend}.

Lemma classify_block_spec {R} stamp N l p (h : Heap R) :
  wp (classify_block stamp N l p) (λ _ h', touched stamp h h')
     (λ _ h', touched stamp h h') h.
Proof.
  unfold classify_block. wp_run; try apply touched_refl.
  eapply wp_mono; [apply reobserve_spec | |]; simpl; [|done].
  intros id h' [_ Ht]. by wp_run.
Qed.

Lemma close_surface_spec {R} N l (h : Heap R) :
  wp (close_surface N l) (λ _ h', h' = h) (λ _ h', h' = h) h.
Proof.
  unfold close_surface. wp_run.
  eapply wp_mono; [apply forM_at_spec | |]; simpl; [|done].
  intros t h' [-> _]. wp_run.
  eapply wp_mono; [apply check_surface_spec | |]; simpl; [|done].
  intros c h' [-> _]. by wp_run.
Qed.

Lemma block_vertex_spec {R} stamp N bi l ip (h : Heap R) :
  wp (block_vertex stamp N bi l ip) (λ _ h', touched stamp h h')
     (λ _ h', touched stamp h h') h.
Proof.
  unfold block_vertex. destruct ip as [i p]. wp_run.
  eapply wp_mono; [apply classify_block_spec | |]; simpl; [|done].
  intros l1 h1 Ht. wp_run.
  - eapply wp_mono; [apply close_surface_spec | |]; simpl.
    + intros l2 h2 ->. by wp_run.
    + by intros _ h2 ->.
  - done.
Qed.

Lemma block_vertices_spec {R} stamp N bi l ips (h : Heap R) :
  wp (foldM (block_vertex stamp N bi) ips l) (λ _ h', touched stamp h h')
     (λ _ h', touched stamp h h') h.
Proof.
  apply (wp_foldM_inv (λ _ h', touched stamp h h')); [apply touched_refl|].
  intros ip l' h' _ Ht.
  eapply wp_mono; [apply block_vertex_spec | |]; simpl;
    intros; by eapply touched_trans.
Qed.

Lemma insert_new_dom `{Countable K} {V} (k : K) (v : V) (m : gmap K V) :
  dom (insert_new k v m) = {[k]} ∪ dom m.
Proof.
  unfold insert_new. destruct (m !! k) eqn:Hk.
  - apply elem_of_dom_2 in Hk. symmetry. apply subseteq_union_1_L.
    by apply singleton_subseteq_l.
  - by rewrite dom_insert_L.
Qed.

Lemma block_step_keys (stamp : Z) (N : nat) (l : BlockLocals) (mb : MeshBlock) (h : Heap (gmap BlockIndex (gmap nat nat))) :
  wp (block_step stamp N l mb)
     (λ _ h', dom (remapping h') = {[block_index mb]} ∪ dom (remapping h))
     (λ _ _, True) h.
Proof.
  unfold block_step. wp_run; [done|].
  eapply wp_mono; [apply block_vertices_spec | |]; simpl; [|done].
  intros l' h' Ht. rewrite (touched_remapping _ _ _ Ht). simpl.
  apply insert_new_dom.
Qed.

Lemma remap_block_keys (ctb : gmap nat (BlockIndex * nat)) (idx v : nat) (h : Heap (gmap BlockIndex (gmap nat nat))) :
  wp (remap_block ctb idx v)
     (λ _ h', dom (remapping h') = dom (remapping h) ∧ store h' = store h ∧
              new_vertices h' = new_vertices h ∧ new_indices h' = new_indices h ∧
              new_triangles h' = new_triangles h)
     (λ _ h', h' = h) h.
Proof.
  unfold remap_block. wp_run; try done. simpl. split; [|done].
  rewrite dom_insert_L.
  apply elem_of_dom_2 in Heqo0. apply subseteq_union_1_L.
  by apply singleton_subseteq_l.
Qed.

Lemma converge_keys (l0 : BlockLocals) (input_idx v : nat) (l : BlockLocals) (m : nat) (h : Heap (gmap BlockIndex (gmap nat nat))) :
  wp (converge l0 input_idx v l m)
     (λ _ h', dom (remapping h') = dom (remapping h))
     (λ _ _, True) h.
Proof.
  unfold converge. wp_run; try done.
  eapply wp_mono; [apply remap_block_keys | |]; simpl; [|done].
  intros _ h' (Hd & _). by wp_run.
Qed.

Lemma commit_block_keys (stamp : Z) (l : BlockLocals) (i : nat) (h : Heap (gmap BlockIndex (gmap nat nat))) :
  wp (commit_block stamp l i) (λ _ h', dom (remapping h') = dom (remapping h))
     (λ _ _, True) h.
Proof.
  unfold commit_block. wp_run; try done.
  eapply wp_mono; [apply commit_vertex_spec | |]; simpl; [|done].
  intros w h1 (-> & t & _ & ->). wp_run.
  eapply wp_mono; [apply remap_block_keys | |]; simpl; [|done].
  intros _ h2 (Hd2 & _). wp_run.
  eapply wp_mono.
  - apply (wp_foldM_inv (λ _ h', dom (remapping h') = dom (remapping h))
             (λ _ _, True)); [done|].
    intros m l' h' _ Hd.
    eapply wp_mono; [apply converge_keys | |]; simpl; [|done].
    intros _ h'' Hd'. congruence.
  - intros l' h3 Hd3. by wp_run.
  - done.
Qed.

(** C9. Voxblox overload: when the call returns, the block remapping has a
    key for the index of every mesh block of the input, whether or not a
    vertex of the block was committed. *)
Theorem block_remapping_has_every_block (mesh : list MeshBlock) (stamp : Z)
    (h h' : Heap (gmap BlockIndex (gmap nat nat))) (mb : MeshBlock) :
  compressAndIntegrateBlocks mesh stamp h = Normal () h' →
  mb ∈ mesh →
  is_Some (remapping h' !! block_index mb).
Proof.
  intros Hrun Hmb. apply elem_of_dom.
  cut (wp (compressAndIntegrateBlocks mesh stamp)
          (λ _ h', block_index mb ∈ dom (remapping h')) (λ _ _, True) h).
  { intros Hwp. by apply (wp_normal _ _ _ _ _ _ Hwp Hrun). }
  unfold compressAndIntegrateBlocks. wp_run; [|done].
  eapply wp_mono.
  - apply (wp_foldM (λ pre _ h', ∀ b, b ∈ pre → block_index b ∈ dom (remapping h'))
             (λ _ _, True)).
    + intros b Hb. by apply elem_of_nil in Hb.
    + intros pre b post l h1 _ HI.
      eapply wp_mono; [apply block_step_keys | |]; simpl; [|done].
      intros l' h2 Hd b' Hb'. rewrite Hd.
      apply elem_of_app in Hb' as [Hb'|Hb'].
      * apply elem_of_union_r. by apply HI.
      * apply list_elem_of_singleton in Hb' as ->. apply elem_of_union_l.
        by apply elem_of_singleton.
  - intros l1 h1 HI. simpl. wp_run.
    eapply wp_mono.
    + apply (wp_foldM_inv (λ _ h', dom (remapping h') = dom (remapping h1))
               (λ _ _, True)); [done|].
      intros i l' h2 _ Hd.
      eapply wp_mono; [apply commit_block_keys | |]; simpl; [|done].
      intros _ h3 Hd'. congruence.
    + intros l2 h2 Hd. simpl. wp_run.
      eapply wp_mono; [apply integrate_loop_surfaced | |]; simpl; [|done].
      intros _ h3 Hs. rewrite (surfaced_remapping _ _ Hs), Hd. by apply HI.
    + done.
  - done.
Qed.

End blocks.

Section fresh.
Context `{B : Backend}.

Lemma reobserve_fresh {R} r stamp (h : Heap R) :
  fresh_indices h →
  wp (reobserve r stamp) (λ _ h', fresh_indices h') (λ _ h', fresh_indices h') h.
Proof.
  intros (Hnd & Hlt & Hb). unfold reobserve, touch. wp_run; try done.
  all: assert (n < length (all_vertices (store h))) as Hn
    by (eapply (Forall_lookup_1 _ _ _ _ Hb); eauto).
  all: unfold fresh_indices, index_bounded, push_if_absent; simpl.
  all: case_bool_decide; [done|].
  all: repeat split; [|by apply Forall_app; split; [|constructor]|done].
  all: apply NoDup_app; repeat split; [done| |apply NoDup_singleton].
  all: intros x Hx ->%list_elem_of_singleton; done.
Qed.

Lemma classify_fresh {R} stamp N l ip (h : Heap R) :
  fresh_indices h →
  wp (classify stamp N l ip) (λ _ h', fresh_indices h') (λ _ h', fresh_indices h') h.
Proof.
  intros HJ. unfold classify. destruct ip as [i p]. wp_run; try done.
  eapply wp_mono; [by apply reobserve_fresh | |]; simpl; [|done].
  intros id h' HJ'. by wp_run.
Qed.

Lemma classify_block_fresh {R} stamp N l p (h : Heap R) :
  fresh_indices h →
  wp (classify_block stamp N l p) (λ _ h', fresh_indices h')
     (λ _ h', fresh_indices h') h.
Proof.
  intros HJ. unfold classify_block. wp_run; try done.
  eapply wp_mono; [by apply reobserve_fresh | |]; simpl; [|done].
  intros id h' HJ'. by wp_run.
Qed.

(** [commit_vertex] followed by [new_indices->push_back(v)]. *)
Lemma fresh_indices_committed {R} p stamp t (h : Heap R) :
  fresh_indices h →
  fresh_indices (with_store (λ _, committed p stamp t (store h)) h) ∧
  fresh_indices (with_new_indices (λ ns, ns ++ [length (all_vertices (store h))])
                   (with_store (λ _, committed p stamp t (store h)) h)).
Proof.
  intros (Hnd & Hlt & Hb).
  assert (∀ l, Forall (λ id, id < length (all_vertices (store h))) l →
               Forall (λ id, id < length (all_vertices (store h) ++ [p])) l) as Hmono.
  { intros l Hl. eapply Forall_impl; [done|]. intros x Hx. simpl in *.
    rewrite length_app. simpl. lia. }
  assert (length (all_vertices (store h)) < length (all_vertices (store h) ++ [p])) as Hnew.
  { rewrite length_app. simpl. lia. }
  unfold fresh_indices, index_bounded. simpl. repeat split; auto.
  - apply Forall_app. split; [auto | by constructor].
  - apply NoDup_app. repeat split; [done | | apply NoDup_singleton].
    intros x Hx ->%list_elem_of_singleton.
    rewrite Forall_forall in Hlt. specialize (Hlt _ Hx). lia.
  - apply Forall_app. split; [auto | by constructor].
  - apply Forall_app. split; [auto | by constructor].
Qed.

Lemma commit_fresh V stamp l i (h : Heap (gmap nat nat)) :
  fresh_indices h →
  wp (commit V stamp l i) (λ _ h', fresh_indices h') (λ _ h', fresh_indices h') h.
Proof.
  intros HJ. unfold commit. wp_run; try done.
  eapply wp_mono; [apply commit_vertex_spec | |]; simpl.
  - intros w h' (-> & t & _ & ->).
    wp_run.
    + exact (proj2 (fresh_indices_committed _ _ _ _ HJ)).
    + exact (proj1 (fresh_indices_committed _ _ _ _ HJ)).
  - by intros e h' [_ ->].
Qed.

Lemma fresh_indices_surfaced {R} (h h' : Heap R) :
  surfaced h h' → fresh_indices h → fresh_indices h'.
Proof.
  intros Hs. unfold fresh_indices, index_bounded.
  by rewrite (surfaced_new_indices _ _ Hs), (surfaced_all _ _ Hs),
    (surfaced_index _ _ Hs).
Qed.

Lemma integrate_loop_fresh {R} N reindex S (h : Heap R) :
  fresh_indices h →
  wp (foldM (integrate_surface N reindex) S ()) (λ _ h', fresh_indices h')
     (λ _ h', fresh_indices h') h.
Proof.
  intros HJ. eapply wp_mono; [apply integrate_loop_surfaced | |]; simpl; [|done].
  intros _ h' Hs. by eapply fresh_indices_surfaced.
Qed.

(** A loop whose body keeps [fresh_indices], also when it throws. *)
Lemma foldM_fresh {R A C} (f : C → A → Run R C) (l : list A) c (h : Heap R) :
  (∀ c a h, fresh_indices h →
     wp (f c a) (λ _ h', fresh_indices h') (λ _ h', fresh_indices h') h) →
  fresh_indices h →
  wp (foldM f l c) (λ _ h', fresh_indices h') (λ _ h', fresh_indices h') h.
Proof.
  intros Hf HJ.
  apply (wp_foldM_inv (λ _ h', fresh_indices h')); [done|].
  intros a c' h' _ HJ'. by apply Hf.
Qed.

Lemma prefilter_fresh {R} N l s (h : Heap R) :
  fresh_indices h →
  wp (prefilter N l s) (λ _ h', fresh_indices h') (λ _ h', fresh_indices h') h.
Proof.
  intros HJ. eapply wp_mono; [apply prefilter_spec | |]; simpl.
  - by intros l' h' (-> & _).
  - by intros _ h' ->.
Qed.

Lemma compressAndIntegrate_fresh V S stamp (h : Heap (gmap nat nat)) :
  fresh_indices h →
  wp (compressAndIntegrate V S stamp) (λ _ h', fresh_indices h')
     (λ _ h', fresh_indices h') h.
Proof.
  intros HJ. unfold compressAndIntegrate. wp_run; try done.
  eapply wp_mono; [apply foldM_fresh; [|done] | |]; simpl; [| |done].
  { intros. by apply classify_fresh. }
  intros l1 h1 HJ1. wp_run.
  eapply wp_mono; [apply foldM_fresh; [|done] | |]; simpl; [| |done].
  { intros. by apply prefilter_fresh. }
  intros l2 h2 HJ2. wp_run.
  eapply wp_mono; [apply foldM_fresh; [|done] | |]; simpl; [| |done].
  { intros. by apply commit_fresh. }
  intros l3 h3 HJ3. wp_run. by apply integrate_loop_fresh.
Qed.

Lemma block_vertex_fresh {R} stamp N bi l ip (h : Heap R) :
  fresh_indices h →
  wp (block_vertex stamp N bi l ip) (λ _ h', fresh_indices h')
     (λ _ h', fresh_indices h') h.
Proof.
  intros HJ. unfold block_vertex. destruct ip as [i p]. wp_run.
  eapply wp_mono; [by apply classify_block_fresh | |]; simpl; [|done].
  intros l1 h1 HJ1. wp_run; [|done].
  eapply wp_mono; [apply close_surface_spec | |]; simpl.
  - intros l2 h2 ->. by wp_run.
  - by intros _ h2 ->.
Qed.

Lemma block_step_fresh (stamp : Z) (N : nat) (l : BlockLocals) (mb : MeshBlock)
    (h : Heap (gmap BlockIndex (gmap nat nat))) :
  fresh_indices h →
  wp (block_step stamp N l mb) (λ _ h', fresh_indices h')
     (λ _ h', fresh_indices h') h.
Proof.
  intros HJ. unfold block_step. wp_run; [done|].
  apply foldM_fresh; [|done]. intros. by apply block_vertex_fresh.
Qed.

Lemma remapped_trans {R} (h1 h2 h3 : Heap R) :
  remapped h1 h2 → remapped h2 h3 → remapped h1 h3.
Proof. unfold remapped. intros (?&?&?&?) (?&?&?&?). repeat split; congruence. Qed.

Lemma remap_block_remapped (ctb : gmap nat (BlockIndex * nat)) (idx v : nat)
    (h : Heap (gmap BlockIndex (gmap nat nat))) :
  wp (remap_block ctb idx v) (λ _ h', remapped h h') (λ _ h', remapped h h') h.
Proof. unfold remap_block. by wp_run. Qed.

Lemma converge_remapped (l0 : BlockLocals) (input_idx v : nat) (l : BlockLocals)
    (m : nat) (h : Heap (gmap BlockIndex (gmap nat nat))) :
  wp (converge l0 input_idx v l m) (λ _ h', remapped h h')
     (λ _ h', remapped h h') h.
Proof.
  unfold converge. wp_run; try done.
  eapply wp_mono; [by apply remap_block_remapped | |]; simpl; [|done].
  intros _ h' Hr. by wp_run.
Qed.

Lemma converge_loop_remapped (l0 : BlockLocals) (input_idx v : nat)
    (l : BlockLocals) (ms : list nat) (h : Heap (gmap BlockIndex (gmap nat nat))) :
  wp (foldM (converge l0 input_idx v) ms l) (λ _ h', remapped h h')
     (λ _ h', remapped h h') h.
Proof.
  apply (wp_foldM_inv (λ _ h', remapped h h')); [done|].
  intros m l' h' _ Hr.
  eapply wp_mono; [apply converge_remapped | |]; simpl;
    intros; by eapply remapped_trans.
Qed.

Lemma fresh_indices_remapped {R} (h h' : Heap R) :
  remapped h h' → fresh_indices h → fresh_indices h'.
Proof. intros (Hs & _ & Hn & _). unfold fresh_indices. by rewrite Hs, Hn. Qed.

Lemma commit_block_fresh (stamp : Z) (l : BlockLocals) (i : nat)
    (h : Heap (gmap BlockIndex (gmap nat nat))) :
  fresh_indices h →
  wp (commit_block stamp l i) (λ _ h', fresh_indices h')
     (λ _ h', fresh_indices h') h.
Proof.
  intros HJ. unfold commit_block. wp_run; try done.
  eapply wp_mono; [apply commit_vertex_spec | |]; simpl.
  - intros w h1 (-> & t & _ & ->). wp_run.
    pose proof (fresh_indices_committed v stamp t h HJ) as [HJ1 HJ2].
    eapply wp_mono; [by apply remap_block_remapped | |]; simpl.
    + intros _ h2 Hr2. wp_run.
      eapply wp_mono; [apply converge_loop_remapped | |]; simpl.
      * intros l3 h3 Hr3. wp_run.
        pose proof (remapped_trans _ _ _ Hr2 Hr3) as (Hs & _ & Hn & _).
        unfold fresh_indices in *. simpl in *. rewrite Hs, Hn. exact HJ2.
      * intros _ h3 Hr3.
        eapply fresh_indices_remapped; [| exact HJ1]. by eapply remapped_trans.
    + intros _ h2 Hr2. eapply fresh_indices_remapped; [| exact HJ1]. done.
  - by intros e h' [_ ->].
Qed.

Lemma compressAndIntegrateBlocks_fresh (mesh : list MeshBlock) (stamp : Z)
    (h : Heap (gmap BlockIndex (gmap nat nat))) :
  fresh_indices h →
  wp (compressAndIntegrateBlocks mesh stamp) (λ _ h', fresh_indices h')
     (λ _ h', fresh_indices h') h.
Proof.
  intros HJ. unfold compressAndIntegrateBlocks. wp_run; try done.
  eapply wp_mono; [apply foldM_fresh; [|done] | |]; simpl; [| |done].
  { intros. by apply block_step_fresh. }
  intros l1 h1 HJ1. wp_run.
  eapply wp_mono; [apply foldM_fresh; [|done] | |]; simpl; [| |done].
  { intros. by apply commit_block_fresh. }
  intros l3 h3 HJ3. wp_run. by apply integrate_loop_fresh.
Qed.

Lemma wp_final {R A} (m : Run R A) (P : Heap R → Prop) h :
  wp m (λ _ h', P h') (λ _ h', P h') h → P (final_heap (m h)).
Proof. unfold wp. by destruct (m h). Qed.

(** C10. Started with an empty [new_indices] buffer on a store whose active
    slots point into [all_vertices_] (as they do in every reachable store,
    [reachable_invariant]), a call leaves [new_indices] without duplicates
    (however it ends), in the flat and in the voxblox overload. *)
Theorem new_indices_have_no_duplicates (s : Store) :
  index_bounded s →
  (∀ V S stamp (h : Heap (gmap nat nat)),
     store h = s → new_indices h = [] →
     NoDup (new_indices (final_heap (compressAndIntegrate V S stamp h)))) ∧
  (∀ mesh stamp (h : Heap (gmap BlockIndex (gmap nat nat))),
     store h = s → new_indices h = [] →
     NoDup (new_indices (final_heap (compressAndIntegrateBlocks mesh stamp h)))).
Proof.
  intros Hb.
  assert (∀ R (h : Heap R), store h = s → new_indices h = [] → fresh_indices h)
    as Hstart.
  { intros R h Hs Hn. unfold fresh_indices. rewrite Hn, Hs.
    repeat split; [apply NoDup_nil_2 | constructor | done]. }
  split.
  - intros V S stamp h Hs Hn.
    apply (wp_final _ (λ h', NoDup (new_indices h'))).
    eapply wp_mono; [apply compressAndIntegrate_fresh; by apply Hstart | |];
      by intros ? ? (? & _).
  - intros mesh stamp h Hs Hn.
    apply (wp_final _ (λ h', NoDup (new_indices h'))).
    eapply wp_mono; [apply compressAndIntegrateBlocks_fresh; by apply Hstart | |];
      by intros ? ? (? & _).
Qed.

End fresh.

Section prune.
Context `{B : Backend}.
Implicit Types (s : Store) (acc : Survivors) (rows : list (Point * Z * nat)).

Lemma slots_of_lookup s i p t v :
  slots_of s !! i = Some (p, t, v) ↔
  active_vertices_xyz s !! i = Some p ∧ vertices_latest_time s !! i = Some t ∧
  active_vertices_index s !! i = Some v.
Proof.
  unfold slots_of. rewrite lookup_zip_with_Some. split.
  - intros ([q u] & w & ? & Hz & Hw). simplify_eq.
    apply lookup_zip_with_Some in Hz as (? & ? & ? & ? & ?). by simplify_eq.
  - intros (Hp & Ht & Hv). exists (p, t), v. split; [done|]. split; [|done].
    apply lookup_zip_with_Some. by exists p, t.
Qed.

Lemma slots_of_length s :
  consistent s → length (slots_of s) = length (active_vertices_xyz s).
Proof.
  intros [Ht Hi]. unfold slots_of. rewrite !length_zip_with. lia.
Qed.

Lemma slots_of_unzip rows s :
  active_vertices_xyz s = rows.*1.*1 → vertices_latest_time s = rows.*1.*2 →
  active_vertices_index s = rows.*2 →
  slots_of s = rows ∧ consistent s.
Proof.
  intros Hx Ht Hi. unfold slots_of, consistent. rewrite Hx, Ht, Hi.
  rewrite !zip_fst_snd. by rewrite !length_fmap.
Qed.

Lemma keep_slots_app earliest s acc l1 l2 :
  keep_slots earliest s acc (l1 ++ l2) =
  acc' ← keep_slots earliest s acc l1; keep_slots earliest s acc' l2.
Proof.
  revert acc. induction l1 as [|i l1 IH]; intros acc; simpl; [done|].
  destruct (keep_slot earliest s acc i); simpl; [apply IH | done].
Qed.

Lemma keep_slot_copied earliest s kept acc i p t v :
  copied s kept acc →
  slots_of s !! i = Some (p, t, v) →
  ∃ acc', keep_slot earliest s acc i = Some acc' ∧
          copied s (kept ++ filter (λ row, earliest < row.1.2)%Z [(p, t, v)]) acc'.
Proof.
  intros (Hx & Ht & Hi & Htmp & Hmem) (Hp & Htime & Hv)%slots_of_lookup.
  unfold keep_slot. rewrite Htime. simpl.
  destruct (decide (earliest < t)%Z) as [Hlt|Hge].
  - rewrite bool_decide_eq_true_2 by done.
    rewrite filter_cons_True, filter_nil by done.
    rewrite Hp, Hv. simpl. eexists. split; [done|].
    unfold copied. simpl. rewrite !fmap_app. simpl.
    rewrite Hx, Ht, Hi. repeat split; try done.
    + intros w. rewrite Hmem. destruct (decide (w = v)) as [->|Hne].
      * rewrite lookup_insert_eq.
        destruct (decide (v ∈ kept.*2 ++ [v])) as [_|Hn].
        -- by destruct (decide (v ∈ kept.*2)).
        -- destruct Hn. apply elem_of_app. right. by left.
      * rewrite lookup_insert_ne by done. rewrite Htmp.
        destruct (decide (w ∈ kept.*2)) as [Hin|Hout];
          destruct (decide (w ∈ kept.*2 ++ [v])) as [Hin'|Hout']; try done.
        -- destruct Hout'. apply elem_of_app. by left.
        -- apply elem_of_app in Hin' as [?|?%list_elem_of_singleton]; done.
    + intros w. rewrite Hmem. destruct (decide (w = v)) as [->|Hne].
      * rewrite lookup_insert_eq.
        destruct (decide (v ∈ kept.*2 ++ [v])) as [_|Hn].
        -- by destruct (decide (v ∈ kept.*2)).
        -- destruct Hn. apply elem_of_app. right. by left.
      * rewrite lookup_insert_ne by done. rewrite Hmem.
        destruct (decide (w ∈ kept.*2)) as [Hin|Hout];
          destruct (decide (w ∈ kept.*2 ++ [v])) as [Hin'|Hout']; try done.
        -- destruct Hout'. apply elem_of_app. by left.
        -- apply elem_of_app in Hin' as [?|?%list_elem_of_singleton]; done.
  - rewrite bool_decide_eq_false_2 by done.
    rewrite filter_cons_False, filter_nil by done.
    eexists. split; [done|]. by rewrite app_nil_r.
Qed.

Lemma keep_slots_copied earliest s n :
  consistent s → n ≤ length (slots_of s) →
  ∃ acc, keep_slots earliest s
           {| temp_active_vertices := []; temp_vertices_time := [];
              temp_vertices_index := []; temp_adjacent_polygons := ∅;
              member_adjacent_polygons := adjacent_polygons s |} (seq 0 n) = Some acc ∧
         copied s (filter (λ row, earliest < row.1.2)%Z (take n (slots_of s))) acc.
Proof.
  intros Hc. induction n as [|n IH]; intros Hn.
  - eexists. split; [done|]. unfold copied. simpl. repeat split; try done.
  - destruct IH as (acc & Hrun & Hcop); [lia|].
    destruct (lookup_lt_is_Some_2 (slots_of s) n) as [[[p t] v] Hrow]; [lia|].
    destruct (keep_slot_copied earliest s _ acc n p t v Hcop Hrow) as (acc' & Hstep & Hcop').
    exists acc'. split.
    + rewrite seq_S, keep_slots_app, Hrun. simpl. by rewrite Hstep.
    + by rewrite (take_S_r _ _ _ Hrow), filter_app.
Qed.

Lemma filter_length_eq {A} (P : A → Prop) `{∀ x, Decision (P x)} (l : list A) :
  length (filter P l) = length l → filter P l = l.
Proof.
  induction l as [|x l IH]; [done|]. rewrite filter_cons.
  destruct (decide (P x)); simpl; intros Hlen.
  - f_equal. apply IH. lia.
  - pose proof (length_filter P l). lia.
Qed.

Lemma slots_of_index s : consistent s → (slots_of s).*2 = active_vertices_index s.
Proof.
  intros [Ht Hi]. unfold slots_of. apply snd_zip. rewrite length_zip_with. lia.
Qed.

Lemma pruneStoredMesh_spec (earliest : Z) (s : Store) :
  consistent s →
  ∃ log s', pruneStoredMesh earliest s = (log, Ret s') ∧ pruned earliest s log s'.
Proof.
  intros Hc. pose proof Hc as [Hct Hci]. unfold pruned, pruneStoredMesh.
  destruct (length (active_vertices_xyz s) =? 0) eqn:Hempty.
  - apply Nat.eqb_eq in Hempty.
    assert (slots_of s = []) as Hrows.
    { apply length_zero_iff_nil. rewrite slots_of_length by done. lia. }
    assert (active_vertices_index s = []) as Hidx.
    { apply length_zero_iff_nil. lia. }
    exists [], s. unfold surviving. rewrite Hrows, Hidx. simpl.
    split_and!; try done. intros _. split; [done|]. by destruct s.
  - assert (length_checks s = []) as ->.
    { unfold length_checks. by rewrite !bool_decide_eq_true_2. }
    destruct (keep_slots_copied earliest s (length (vertices_latest_time s)) Hc)
      as (acc & -> & Hcop).
    { rewrite slots_of_length by done. lia. }
    rewrite take_ge in Hcop by (rewrite slots_of_length by done; lia).
    fold (surviving earliest s) in Hcop.
    destruct Hcop as (Hx & Ht & Hi & Htmp & Hmem).
    assert (length (temp_active_vertices acc) = length (surviving earliest s)) as Hlen.
    { by rewrite Hx, !length_fmap. }
    pose proof (length_filter (λ row, earliest < row.1.2)%Z (slots_of s)) as Hle.
    fold (surviving earliest s) in Hle. rewrite slots_of_length in Hle by done.
    destruct (length (temp_active_vertices acc) <? length (active_vertices_xyz s))
      eqn:Hdrop.
    + apply Nat.ltb_lt in Hdrop.
      assert (length (surviving earliest s) ≠ length (slots_of s)) as Hne.
      { rewrite slots_of_length by done. lia. }
      destruct (slots_of_unzip (surviving earliest s)
          {| active_vertices_xyz := temp_active_vertices acc;
             all_vertices := all_vertices s;
             active_vertices_index := temp_vertices_index acc;
             vertices_latest_time := temp_vertices_time acc;
             polygons := polygons s;
             adjacent_polygons := temp_adjacent_polygons acc;
             structure := structure s |}) as [Hrows Hcons]; [done..|].
      assert (∀ v, temp_adjacent_polygons acc !! v =
                if decide (v ∈ temp_vertices_index acc)
                then Some (default [] (adjacent_polygons s !! v))
                else if decide (length (surviving earliest s) = length (slots_of s))
                     then adjacent_polygons s !! v else None) as Hadj.
      { intros v. rewrite Htmp, Hi. destruct (decide (v ∈ _)); [done|].
        by rewrite decide_False. }
      destruct (reInitializeStructure (temp_active_vertices acc)) as [t|e];
        eexists _, _; (split; [done|]); simpl;
        split_and!; try done; try exact Hrows; try exact Hcons.
    + apply Nat.ltb_ge in Hdrop.
      assert (surviving earliest s = slots_of s) as Heq.
      { apply filter_length_eq. rewrite slots_of_length by done.
        fold (surviving earliest s). lia. }
      eexists _, _. split; [done|]. simpl. split_and!; try done.
      intros v. rewrite Hmem, Heq, slots_of_index by done.
        destruct (decide (v ∈ _)); [done|]. by rewrite decide_True.
Qed.

(** [pruneStoredMesh] on a store whose three parallel vectors agree in
    length (as they do in every reachable store, [reachable_invariant]): the
    call returns; it keeps exactly the slots last seen after the cutoff, with
    their positions, times and indices, and leaves [all_vertices_] and
    [polygons_] as they were. The adjacency map then has an entry (the old
    one, or an empty one) for every vertex that is still active; the entries
    of the other vertices are dropped when a slot was dropped and kept
    otherwise. When no slot is dropped nothing else changes and nothing is
    logged. *)
Theorem prune_effect (earliest : Z) (s : Store) :
  consistent s →
  ∃ log s', pruneStoredMesh earliest s = (log, Ret s') ∧ pruned earliest s log s'.
Proof. apply pruneStoredMesh_spec. Qed.

End prune.

Section surfaces.
Context `{B : Backend}.

Lemma same_vertex_set_elem (t1 t2 : Surface) v :
  same_vertex_set t1 t2 = true → v ∈ t1 ↔ v ∈ t2.
Proof.
  unfold same_vertex_set. rewrite andb_true_iff, !forallb_forall.
  intros [H12 H21]. split; intros Hv%list_elem_of_In.
  - by apply H12, bool_decide_eq_true in Hv.
  - by apply H21, bool_decide_eq_true in Hv.
Qed.

Lemma SurfaceExists_complete (t : Surface) adj (polys : list Surface) i t1 v :
  v ∈ t → i ∈ default [] (adj !! v) → polys !! i = Some t1 →
  same_vertex_set t1 t = true →
  SurfaceExists t adj polys = true.
Proof.
  intros Hv Hi Hp Hsame. unfold SurfaceExists.
  apply existsb_exists. exists v. split; [by apply list_elem_of_In|].
  apply existsb_exists. exists i. split; [by apply list_elem_of_In|].
  by rewrite Hp.
Qed.

Lemma push_at_lookup (k : nat) (adj : gmap nat (list nat)) (v w : nat) :
  default [] (push_at v k adj !! w) =
  if decide (v = w) then default [] (adj !! w) ++ [k] else default [] (adj !! w).
Proof.
  unfold push_at. destruct (decide (v = w)) as [->|Hne].
  - by rewrite lookup_insert_eq.
  - by rewrite lookup_insert_ne.
Qed.

Lemma fold_push_at_mono (k : nat) (t : Surface) (adj : gmap nat (list nat)) w x :
  x ∈ default [] (adj !! w) →
  x ∈ default [] (foldl (λ a v, push_at v k a) adj t !! w).
Proof.
  revert adj. induction t as [|v t IH]; intros adj Hx; simpl; [done|].
  apply IH. rewrite push_at_lookup. case_decide; [|done].
  apply elem_of_app. by left.
Qed.

Lemma fold_push_at_elem (k : nat) (t : Surface) (adj : gmap nat (list nat)) w :
  w ∈ t → k ∈ default [] (foldl (λ a v, push_at v k a) adj t !! w).
Proof.
  revert adj. induction t as [|v t IH]; intros adj Hw; simpl.
  - by apply elem_of_nil in Hw.
  - apply elem_of_cons in Hw as [->|Hw]; [|by apply IH].
    apply fold_push_at_mono. rewrite push_at_lookup, decide_True by done.
    apply elem_of_app. right. by left.
Qed.

Lemma reindex_surface_elem reindex (s : Surface) v :
  v ∈ reindex_surface reindex s → ∃ i, reindex !! i = Some v.
Proof.
  unfold reindex_surface. rewrite list_elem_of_omap.
  intros (i & _ & Hi). by exists i.
Qed.

Lemma surface_added_inv {R} N n0 reindex (s : Surface) (h : Heap R) :
  surface_inv N n0 reindex h →
  reindex_surface reindex s ≠ [] →
  existsb (λ v, N <=? v) (reindex_surface reindex s)
    || negb (SurfaceExists (reindex_surface reindex s)
               (adjacent_polygons (store h)) (polygons (store h))) = true →
  surface_inv N n0 reindex (surface_added (reindex_surface reindex s) h).
Proof.
  set (t := reindex_surface reindex s).
  intros [(Hib & Hpb & Hac) Hre Hdup Hold Hlen] Hne Hnew.
  assert (∀ v, v ∈ t → v ∈ active_vertices_index (store h)) as Hact.
  { intros v [i Hi]%reindex_surface_elem. by eapply Hre. }
  split; simpl.
  - split_and!.
    + exact Hib.
    + intros t' v [Ht'|Ht']%elem_of_app Hv; [by eapply Hpb|].
      apply list_elem_of_singleton in Ht'. subst t'.
      unfold index_bounded in Hib. rewrite Forall_forall in Hib. by apply Hib, Hact.
    + intros j t' v Hj Hv Hvact. simpl in *.
      apply lookup_app_Some in Hj as [Hj|[Hge Hj]].
      * apply fold_push_at_mono. by eapply Hac.
      * apply list_lookup_singleton_Some in Hj as [Hj Heq]. subst t'.
        replace j with (length (polygons (store h))) by lia.
        by apply fold_push_at_elem.
  - exact Hre.
  - intros i j t1 t2 Hij Hi Hj Hsame.
    apply lookup_app_Some in Hj as [Hj|[Hge Hj]].
    + rewrite lookup_app_l in Hi by (apply lookup_lt_Some in Hj; lia).
      by eapply Hdup.
    + apply list_lookup_singleton_Some in Hj as [Hj Heq]. subst t2.
      rewrite lookup_app_l in Hi by lia.
      destruct (existsb (λ v, N <=? v) t) eqn:Hex.
      * apply existsb_exists in Hex as (v & Hv%list_elem_of_In & HNv%Nat.leb_le).
        right. split; [|by exists v].
        destruct (decide (n0 ≤ i)) as [|Hlt]; [done|]. exfalso.
        assert (v < N); [|lia].
        eapply (Hold i t1 v); [lia | done |].
        by apply (same_vertex_set_elem _ _ _ Hsame).
      * exfalso. simpl in Hnew. apply negb_true_iff in Hnew.
        destruct t as [|v0 t'] eqn:Ht; [done|].
        assert (v0 ∈ v0 :: t') as Hv0 by by left.
        rewrite (SurfaceExists_complete (v0 :: t') _ _ i t1 v0) in Hnew; try done.
        eapply Hac; [done | | by apply Hact].
        by apply (same_vertex_set_elem _ _ _ Hsame).
  - intros i t' v Hi Hlook Hv.
    rewrite lookup_app_l in Hlook by lia. by eapply Hold.
  - rewrite length_app. simpl. lia.
Qed.

Lemma integrate_surface_inv {R} N n0 reindex u (s : Surface) (h : Heap R) :
  surface_inv N n0 reindex h →
  wp (integrate_surface N reindex u s)
     (λ _ h', surface_inv N n0 reindex h') (λ _ _, False) h.
Proof.
  intros Hinv. unfold integrate_surface. wp_run; try done.
  eapply wp_mono; [apply add_surface_spec | |]; simpl; [|done].
  intros _ h' ->. apply surface_added_inv; [done | | done].
  intros Hnil. rewrite Hnil in *. done.
Qed.

Lemma integrate_loop_inv {R} N n0 reindex (S : list Surface) (h : Heap R) :
  surface_inv N n0 reindex h →
  wp (foldM (integrate_surface N reindex) S ())
     (λ _ h', surface_inv N n0 reindex h') (λ _ _, False) h.
Proof.
  intros Hinv.
  apply (wp_foldM_inv (λ _ h', surface_inv N n0 reindex h')); [done|].
  intros s u h' _ Hinv'. by apply integrate_surface_inv.
Qed.

Lemma store_inv_touched {R} stamp (h h' : Heap R) :
  touched stamp h h' → store_inv (store h) → store_inv (store h').
Proof.
  intros Ht. unfold store_inv, index_bounded, polygons_bounded, adjacency_complete.
  by rewrite (touched_all _ _ _ Ht), (touched_index _ _ _ Ht),
    (touched_polygons _ _ _ Ht), (touched_adjacent _ _ _ Ht).
Qed.

Lemma committed_store_inv p stamp t (s : Store) :
  store_inv s → store_inv (committed p stamp t s).
Proof.
  intros (Hib & Hpb & Hac). split_and!.
  - unfold index_bounded in *. simpl. rewrite length_app. simpl.
    apply Forall_app. split; [|constructor; [lia | constructor]].
    eapply Forall_impl; [done|]. simpl. lia.
  - intros t' v Ht' Hv. simpl in *. rewrite length_app. simpl.
    specialize (Hpb t' v Ht' Hv). lia.
  - intros j t' v Hj Hv Hact. simpl in *.
    apply elem_of_app in Hact as [Hact|Hact]; [by eapply Hac|].
    apply list_elem_of_singleton in Hact as ->.
    apply list_elem_of_lookup_2 in Hj. specialize (Hpb t' _ Hj Hv). lia.
Qed.

Lemma reindex_active_committed reindex i p stamp t (s : Store) :
  reindex_active reindex s →
  reindex_active (<[i := length (all_vertices s)]> reindex) (committed p stamp t s).
Proof.
  intros Hre j v. simpl. destruct (decide (i = j)) as [->|Hne].
  - rewrite lookup_insert_eq. intros [= <-]. apply elem_of_app. right. by left.
  - rewrite lookup_insert_ne by done. intros Hj. apply elem_of_app. left.
    by eapply Hre.
Qed.

Lemma reindex_active_insert reindex i v (s : Store) :
  reindex_active reindex s → v ∈ active_vertices_index s →
  reindex_active (<[i := v]> reindex) s.
Proof.
  intros Hre Hv j w. destruct (decide (i = j)) as [->|Hne].
  - rewrite lookup_insert_eq. by intros [= <-].
  - rewrite lookup_insert_ne by done. apply Hre.
Qed.

Lemma classify_loop_active {R} stamp N (ips : list (nat * Vertex)) l0 (h : Heap R) :
  reindex_active (reindex l0) (store h) →
  wp (foldM (classify stamp N) ips l0)
     (λ l h', touched stamp h h' ∧ reindex_active (reindex l) (store h))
     (λ _ _, True) h.
Proof.
  intros Hre0.
  apply (wp_foldM_inv
    (λ l h', touched stamp h h' ∧ reindex_active (reindex l) (store h)));
    [by split; [apply touched_refl|]|].
  intros [i p] l h1 _ [Ht Hre].
  eapply wp_mono; [apply classify_spec | |]; simpl; [|done].
  intros l' h2 [Ht2 Hl']. split; [by eapply touched_trans|].
  rewrite (touched_structure _ _ _ Ht), (touched_index _ _ _ Ht) in Hl'.
  destruct (checkIfVertexUnique _ _) as [[r|]|]; try by rewrite Hl'.
  destruct Hl' as (id & Hid & ->). apply reindex_active_insert; [done|].
  by eapply list_elem_of_lookup_2.
Qed.

Lemma commit_inv_commit V stamp l i (h0 h : Heap (gmap nat nat)) :
  commit_inv h0 (reindex l) h →
  wp (commit V stamp l i) (λ l' h', commit_inv h0 (reindex l') h')
     (λ _ _, True) h.
Proof.
  intros (Hinv & Hre & Hpol & Hlen). unfold commit. wp_run; try done.
  eapply wp_mono; [apply commit_vertex_spec | |]; simpl; [|done].
  intros w h' (-> & t & _ & ->). wp_run; [|done]. unfold commit_inv. simpl.
  split_and!.
  - by apply committed_store_inv.
  - by apply reindex_active_committed.
  - done.
  - rewrite length_app. lia.
Qed.

(** What a store at entry gives the second iteration through the faces. *)
Lemma commit_inv_surface_inv {R} reindex (h0 h : Heap R) :
  store_inv (store h0) → commit_inv h0 reindex h →
  surface_inv (length (all_vertices (store h0))) (length (polygons (store h0)))
    reindex h.
Proof.
  intros (_ & Hpb & _) (Hinv & Hre & Hpol & Hlen). split; try done.
  - intros i j t1 t2 Hij Hi Hj _. left. rewrite Hpol in Hj.
    by eapply lookup_lt_Some.
  - intros i t v Hi Hlook Hv. rewrite Hpol in Hlook.
    eapply Hpb; [|done]. by eapply list_elem_of_lookup_2.
  - by rewrite Hpol.
Qed.

Lemma compressAndIntegrate_surfaces V S stamp (h : Heap (gmap nat nat)) :
  store_inv (store h) →
  wp (compressAndIntegrate V S stamp)
     (λ _ h', store_inv (store h') ∧ duplicates_are_fresh (store h) (store h'))
     (λ _ _, True) h.
Proof.
  intros Hinv.
  assert (commit_inv h ∅ h) as Hstart.
  { by split_and!. }
  unfold compressAndIntegrate. wp_run; [| |done].
  { split; [done|]. by apply commit_inv_surface_inv in Hstart as []. }
  eapply wp_mono; [apply classify_loop_active | |]; simpl; [| |done].
  { intros i v. by rewrite lookup_empty. }
  intros l1 h1 [Ht Hre]. wp_run.
  eapply wp_mono; [apply prefilter_loop_spec | |]; simpl; [|done].
  intros l2 h2 (-> & Hre2 & _). wp_run.
  eapply wp_mono.
  - apply (wp_foldM_inv (λ l' h', commit_inv h (reindex l') h') (λ _ _, True)).
    + unfold commit_inv. simpl. rewrite Hre2.
      rewrite (touched_polygons _ _ _ Ht), (touched_all _ _ _ Ht).
      split_and!; try done; [by eapply store_inv_touched|].
      unfold reindex_active. by rewrite (touched_index _ _ _ Ht).
    + intros i l' h' _ Hc. by apply commit_inv_commit.
  - intros l3 h3 Hc. simpl. wp_run.
    eapply wp_mono; [apply integrate_loop_inv | |]; simpl.
    + by apply commit_inv_surface_inv.
    + by intros _ h4 [].
    + done.
  - done.
Qed.

Lemma mesh_kept_refl (s : Store) : mesh_kept s s.
Proof. by split_and!. Qed.

Lemma mesh_kept_trans (s1 s2 s3 : Store) :
  mesh_kept s1 s2 → mesh_kept s2 s3 → mesh_kept s1 s3.
Proof. intros (?&?&?&?) (?&?&?&?). split_and!; congruence. Qed.

Lemma touched_mesh_kept {R} stamp (h h' : Heap R) :
  touched stamp h h' → mesh_kept (store h) (store h').
Proof. intros []. by split_and!. Qed.

Lemma classify_block_reindex {R} stamp N l p (h : Heap R) :
  wp (classify_block stamp N l p)
     (λ l' h', mesh_kept (store h) (store h') ∧ reindex (base l') = reindex (base l))
     (λ _ _, True) h.
Proof.
  unfold classify_block. wp_run; try done; try (split; [apply mesh_kept_refl | done]).
  eapply wp_mono; [apply reobserve_spec | |]; simpl; [|done].
  intros id h' [_ Ht]. wp_run. split; [by eapply touched_mesh_kept | done].
Qed.

Lemma close_surface_reindex {R} N l (h : Heap R) :
  wp (close_surface N l) (λ l' h', h' = h ∧ reindex (base l') = reindex (base l))
     (λ _ _, True) h.
Proof.
  unfold close_surface. wp_run.
  eapply wp_mono; [apply forM_at_spec | |]; simpl; [|done].
  intros t h' [-> _]. wp_run.
  eapply wp_mono; [apply check_surface_spec | |]; simpl; [|done].
  intros c h' [-> _]. by wp_run.
Qed.

Lemma block_vertex_reindex {R} stamp N bi l ip (h : Heap R) :
  wp (block_vertex stamp N bi l ip)
     (λ l' h', mesh_kept (store h) (store h') ∧ reindex (base l') = reindex (base l))
     (λ _ _, True) h.
Proof.
  unfold block_vertex. destruct ip as [i p]. wp_run.
  eapply wp_mono; [apply classify_block_reindex | |]; simpl; [|done].
  intros l1 h1 [Hk Hr]. wp_run; [|by split].
  eapply wp_mono; [apply close_surface_reindex | |]; simpl; [|done].
  intros l2 h2 [-> Hr2]. wp_run. split; [done | simpl; congruence].
Qed.

Lemma block_step_reindex (stamp : Z) (N : nat) (l : BlockLocals) (mb : MeshBlock)
    (h : Heap (gmap BlockIndex (gmap nat nat))) :
  wp (block_step stamp N l mb)
     (λ l' h', mesh_kept (store h) (store h') ∧ reindex (base l') = reindex (base l))
     (λ _ _, True) h.
Proof.
  unfold block_step. wp_run; [done|].
  apply (wp_foldM_inv (λ l' h', mesh_kept (store h) (store h') ∧
                                reindex (base l') = reindex (base l)));
    [by split; [apply mesh_kept_refl|]|].
  intros ip l' h' _ [Hk Hr].
  eapply wp_mono; [apply block_vertex_reindex | |]; simpl; [|done].
  intros l'' h'' [Hk' Hr']. split; [by eapply mesh_kept_trans | congruence].
Qed.

Lemma store_inv_mesh_kept (s s' : Store) :
  mesh_kept s s' → store_inv s → store_inv s'.
Proof.
  intros (Ha & Hi & Hp & Hadj).
  unfold store_inv, index_bounded, polygons_bounded, adjacency_complete.
  by rewrite Ha, Hi, Hp, Hadj.
Qed.

Lemma commit_inv_remapped {R} reindex (h0 h h' : Heap R) :
  remapped h h' → commit_inv h0 reindex h → commit_inv h0 reindex h'.
Proof. intros (Hs & _). unfold commit_inv. by rewrite Hs. Qed.

Lemma converge_commit_inv (l0 : BlockLocals) (input_idx v : nat) (l : BlockLocals)
    (m : nat) (h0 h : Heap (gmap BlockIndex (gmap nat nat))) :
  v ∈ active_vertices_index (store h) →
  commit_inv h0 (reindex (base l)) h →
  wp (converge l0 input_idx v l m)
     (λ l' h', store h' = store h ∧ commit_inv h0 (reindex (base l')) h')
     (λ _ _, True) h.
Proof.
  intros Hv Hc. unfold converge. wp_run; try done.
  eapply wp_mono; [apply remap_block_remapped | |]; simpl; [|done].
  intros _ h' Hr. wp_run. pose proof Hr as (Hs & _). split; [done|].
  eapply commit_inv_remapped; [done|].
  destruct Hc as (? & ? & ? & ?). split_and!; try done. simpl.
  by apply reindex_active_insert.
Qed.

Lemma commit_inv_commit_block (stamp : Z) (l : BlockLocals) (i : nat)
    (h0 h : Heap (gmap BlockIndex (gmap nat nat))) :
  commit_inv h0 (reindex (base l)) h →
  wp (commit_block stamp l i) (λ l' h', commit_inv h0 (reindex (base l')) h')
     (λ _ _, True) h.
Proof.
  intros (Hinv & Hre & Hpol & Hlen). unfold commit_block. wp_run; try done.
  eapply wp_mono; [apply commit_vertex_spec | |]; simpl; [|done].
  intros w h1 (-> & t & _ & ->). wp_run.
  eapply wp_mono; [apply remap_block_remapped | |]; simpl; [|done].
  intros _ h2 Hr2. wp_run.
  assert (commit_inv h0 (<[n := length (all_vertices (store h))]> (reindex (base l)))
            (with_store (λ _, committed v stamp t (store h)) h)) as Hc1.
  { unfold commit_inv. simpl. split_and!.
    - by apply committed_store_inv.
    - by apply reindex_active_committed.
    - done.
    - rewrite length_app. lia. }
  eapply wp_mono.
  - apply (wp_foldM_inv
      (λ l' h', store h' = store h2 ∧ commit_inv h0 (reindex (base l')) h')
      (λ _ _, True)).
    + split; [done|]. by eapply commit_inv_remapped.
    + intros m l' h' _ [Hs Hc].
      eapply wp_mono; [apply converge_commit_inv; [|done] | |]; simpl; [| |done].
      * destruct Hr2 as (Hs2 & _). rewrite Hs, Hs2. simpl.
        apply elem_of_app. right. by left.
      * intros l'' h'' [Hs' Hc']. split; [congruence | done].
  - intros l3 h3 [Hs3 Hc3]. wp_run. by unfold commit_inv in *.
  - done.
Qed.

Lemma compressAndIntegrateBlocks_surfaces (mesh : list MeshBlock) (stamp : Z)
    (h : Heap (gmap BlockIndex (gmap nat nat))) :
  store_inv (store h) →
  wp (compressAndIntegrateBlocks mesh stamp)
     (λ _ h', store_inv (store h') ∧ duplicates_are_fresh (store h) (store h'))
     (λ _ _, True) h.
Proof.
  intros Hinv. unfold compressAndIntegrateBlocks. wp_run; [|done].
  eapply wp_mono.
  - apply (wp_foldM_inv
      (λ l' h', mesh_kept (store h) (store h') ∧ reindex (base l') = ∅) (λ _ _, True));
      [by split; [apply mesh_kept_refl|]|].
    intros mb l' h' _ [Hk Hr].
    eapply wp_mono; [apply block_step_reindex | |]; simpl; [|done].
    intros l'' h'' [Hk' Hr']. split; [by eapply mesh_kept_trans | congruence].
  - intros l1 h1 [Hk Hr]. simpl. wp_run.
    eapply wp_mono.
    + apply (wp_foldM_inv (λ l' h', commit_inv h (reindex (base l')) h') (λ _ _, True)).
      * destruct Hk as (Ha & Hi & Hp & Hadj). unfold commit_inv. rewrite Hr, Hp, Ha.
        split_and!; try done.
        eapply store_inv_mesh_kept; [|done]. by split_and!.
      * intros i l' h' _ Hc. by apply commit_inv_commit_block.
    + intros l3 h3 Hc. simpl. wp_run.
      eapply wp_mono; [apply integrate_loop_inv | |]; simpl.
      * by apply commit_inv_surface_inv.
      * by intros _ h4 [].
      * done.
    + done.
  - done.
Qed.

Lemma pruneStoredMesh_polygons earliest (s s' : Store) log :
  pruneStoredMesh earliest s = (log, Ret s') →
  polygons s' = polygons s ∧ all_vertices s' = all_vertices s.
Proof.
  unfold pruneStoredMesh. intros Hrun.
  repeat case_match; simplify_eq; done.
Qed.

End surfaces.

Section keeps.
Context `{B : Backend} {R : Type} (rel erel : Heap R → Heap R → Prop).
Context `{!Reflexive rel, !Transitive rel, !Reflexive erel, !Absorbs rel erel}.

Lemma keeps_ret {A} (a : A) : keeps rel erel (mret a).
Proof. intros h. by apply wp_ret. Qed.

Lemma keeps_throw {A} e : keeps rel erel (throw (A:=A) e).
Proof. intros h. by apply wp_throw. Qed.

Lemma keeps_gets {A} (f : Heap R → A) : keeps rel erel (gets f).
Proof. intros h. by apply wp_gets. Qed.

Lemma keeps_call {A} (r : result A) : keeps rel erel (call r).
Proof. intros h. apply wp_call. by destruct r. Qed.

Lemma keeps_index {A} (v : list A) i : keeps rel erel (index v i).
Proof. intros h. apply wp_index. by destruct (v !! i). Qed.

Lemma keeps_at {A} (v : list A) i : keeps rel erel (at_ v i).
Proof. intros h. apply wp_at. by destruct (v !! i). Qed.

Lemma keeps_modify (f : Heap R → Heap R) :
  (∀ h, rel h (f h)) → keeps rel erel (modify f).
Proof. intros Hf h. by apply wp_modify. Qed.

Lemma keeps_bind {A C} (m : Run R A) (f : A → Run R C) :
  keeps rel erel m → (∀ a, keeps rel erel (f a)) → keeps rel erel (m ≫= f).
Proof.
  intros Hm Hf h. apply wp_bind.
  eapply wp_mono; [apply Hm | | done].
  intros a h1 H1. simpl.
  eapply wp_mono; [apply Hf | |]; simpl; intros ? h2 H2.
  - by transitivity h1.
  - exact (absorbs h h1 h2 H1 H2).
Qed.

Lemma keeps_foldM {A C} (f : C → A → Run R C) (l : list A) c :
  (∀ c a, keeps rel erel (f c a)) → keeps rel erel (foldM f l c).
Proof.
  intros Hf. revert c. induction l as [|a l IH]; intros c; simpl.
  - apply keeps_ret.
  - apply keeps_bind; [apply Hf | apply IH].
Qed.

Lemma keeps_forM {A C} (f : A → Run R C) (l : list A) :
  (∀ a, keeps rel erel (f a)) → keeps rel erel (forM f l).
Proof.
  intros Hf. induction l as [|a l IH]; simpl.
  - apply keeps_ret.
  - apply keeps_bind; [apply Hf|]. intros c.
    apply keeps_bind; [apply IH|]. intros cs. apply keeps_ret.
Qed.

End keeps.

Section absorbs.
Context `{B : Backend} {R : Type}.

#[global] Instance absorbs_self (rel : Heap R → Heap R → Prop) `{!Transitive rel} :
  Absorbs rel rel.
Proof. intros h1 h2 h3. apply transitivity. Qed.

#[global] Instance anywhere_refl : Reflexive (anywhere (R:=R)).
Proof. done. Qed.

#[global] Instance absorbs_anywhere (rel : Heap R → Heap R → Prop) :
  Absorbs rel anywhere.
Proof. done. Qed.

End absorbs.

Ltac keeps_step :=
  lazymatch goal with
  | |- keeps _ _ (mret _) => refine (keeps_ret _ _ _)
  | |- keeps _ _ (throw _) => refine (keeps_throw _ _ _)
  | |- keeps _ _ (gets _) => refine (keeps_gets _ _ _)
  | |- keeps _ _ (call _) => refine (keeps_call _ _ _)
  | |- keeps _ _ (index _ _) => refine (keeps_index _ _ _ _)
  | |- keeps _ _ (at_ _ _) => refine (keeps_at _ _ _ _)
  | |- keeps _ _ (_ ≫= _) => refine (keeps_bind _ _ _ _ _ _); [|intros ?]
  | |- keeps _ _ (foldM _ _ _) => refine (keeps_foldM _ _ _ _ _ _); intros ? ?
  | |- keeps _ _ (forM _ _) => refine (keeps_forM _ _ _ _ _); intros ?
  | |- keeps _ _ (if ?b then _ else _) => destruct b
  | |- keeps _ _ (match ?x with _ => _ end) => destruct x
  | |- keeps _ _ (let '(_, _) := ?x in _) => destruct x
  end.

Section failure.
Context `{B : Backend}.

Lemma extended_refl stamp (s : Store) : extended stamp s s.
Proof. split; auto. Qed.

Lemma extended_trans stamp (s1 s2 s3 : Store) :
  extended stamp s1 s2 → extended stamp s2 s3 → extended stamp s1 s3.
Proof.
  intros [Hp1 Ha1 Hv1 Hi1 Hx1 Ht1] [Hp2 Ha2 Hv2 Hi2 Hx2 Ht2].
  split; try congruence; try (by etrans).
  intros i t Hi. destruct (Ht1 i t Hi) as [H2|H2];
    destruct (Ht2 i _ H2); auto.
Qed.

Lemma times_touched_refl stamp (s : Store) : times_touched stamp s s.
Proof. split; auto. Qed.

Lemma times_touched_trans stamp (s1 s2 s3 : Store) :
  times_touched stamp s1 s2 → times_touched stamp s2 s3 → times_touched stamp s1 s3.
Proof.
  intros [? ? ? ? ? ? ? Ht1] [? ? ? ? ? ? ? Ht2]. split; try congruence.
  intros i t Hi. destruct (Ht2 i t Hi) as [|H2]; auto.
Qed.


#[local] Instance partial_update_refl {R} stamp : Reflexive (partial_update (R:=R) stamp).
Proof.
  intros h. split; [apply extended_refl | intros _; apply times_touched_refl].
Qed.

#[local] Instance partial_update_trans {R} stamp : Transitive (partial_update (R:=R) stamp).
Proof.
  intros h1 h2 h3 [He12 Ht12] [He23 Ht23]. split; [by eapply extended_trans|].
  intros Hlen.
  pose proof (prefix_length _ _ (extended_xyz _ _ _ He12)).
  pose proof (prefix_length _ _ (extended_xyz _ _ _ He23)).
  eapply times_touched_trans; [apply Ht12 | apply Ht23]; lia.
Qed.



















End failure.

(** ** A failure of the spatial index *)

Section surfaced_failure.
Context `{B : Backend}.








(** *** An index that takes no vertex *)






End surfaced_failure.

Section surfaced_block_failure.
Context `{B : Backend}.









(** *** An index that takes no vertex *)






End surfaced_block_failure.

Section query_failure.
Context `{B : Backend}.







End query_failure.

Section failure_surfaces.
Context `{B : Backend}.


End failure_surfaces.

Section stored_surfaces.
Context `{B : Backend}.

Lemma store_inv_empty : store_inv empty_store.
Proof.
  split_and!.
  - constructor.
  - intros t v Ht. by apply elem_of_nil in Ht.
  - by intros j t v Hj.
Qed.

Lemma surviving_index_subseteq earliest (s : Store) v :
  consistent s → v ∈ (surviving earliest s).*2 → v ∈ active_vertices_index s.
Proof.
  intros Hc Hv. rewrite <- (slots_of_index s Hc).
  apply list_elem_of_fmap in Hv as (row & -> & Hrow).
  apply list_elem_of_fmap. exists row. split; [done|].
  unfold surviving in Hrow. by apply list_elem_of_filter in Hrow as [_ ?].
Qed.

Lemma pruneStoredMesh_store_inv earliest (s s' : Store) log :
  consistent s → store_inv s →
  pruneStoredMesh earliest s = (log, Ret s') →
  store_inv s' ∧ consistent s'.
Proof.
  intros Hc (Hib & Hpb & Hac) Hrun.
  destruct (pruneStoredMesh_spec earliest s Hc)
    as (log' & s'' & Hrun' & Hall & Hpol & Hrows & Hc' & Hadj & _).
  rewrite Hrun in Hrun'. injection Hrun' as <- <-. split; [|done].
  assert (∀ v, v ∈ active_vertices_index s' → v ∈ active_vertices_index s) as Hsub.
  { intros v Hv. apply (surviving_index_subseteq earliest); [done|].
    by rewrite <- Hrows, slots_of_index. }
  split_and!.
  - unfold index_bounded in *. rewrite Forall_forall in *.
    intros v Hv. rewrite Hall. by apply Hib, Hsub.
  - intros t v Ht Hv. rewrite Hall. rewrite Hpol in Ht. by eapply Hpb.
  - intros j t v Hj Hv Hact. rewrite Hadj, decide_True by done. simpl.
    rewrite Hpol in Hj. eapply Hac; [done..|]. by apply Hsub.
Qed.

End stored_surfaces.

Section kept.
Context `{B : Backend} (P : Store → Prop).
Context (P_touched : ∀ R stamp (h h' : Heap R),
           touched stamp h h' → P (store h) → P (store h')).
Context (P_committed : ∀ p stamp t (s : Store),
           updateStructure (structure s) (active_vertices_xyz s ++ [xyz p]) = Ret t →
           P s → P (committed p stamp t s)).
Context (P_surface : ∀ R t (h : Heap R), P (store h) → P (store (surface_added t h))).

#[local] Instance kept_refl {R} : Reflexive (kept (R:=R) P).
Proof. intros h HP. exact HP. Qed.

#[local] Instance kept_trans {R} : Transitive (kept (R:=R) P).
Proof. intros h1 h2 h3 H12 H23 HP. by apply H23, H12. Qed.

Lemma same_store_kept {R} (h h' : Heap R) : store h' = store h → kept P h h'.
Proof. intros Hs. unfold kept. by rewrite Hs. Qed.

Lemma reobserve_kept {R} r stamp : keeps (kept (R:=R) P) anywhere (reobserve r stamp).
Proof.
  intros h. eapply wp_mono; [apply reobserve_spec | | done]. simpl.
  intros _ h' [_ Ht]. exact (P_touched _ stamp h h' Ht).
Qed.

Lemma commit_vertex_kept {R} p stamp :
  keeps (kept (R:=R) P) anywhere (commit_vertex p stamp).
Proof.
  intros h. eapply wp_mono; [apply commit_vertex_spec | | done]. simpl.
  intros _ h' (_ & t & Hupd & ->). exact (P_committed _ _ _ _ Hupd).
Qed.

Lemma add_surface_kept {R} t : keeps (kept (R:=R) P) anywhere (add_surface t).
Proof.
  intros h. eapply wp_mono; [apply add_surface_spec | | done]. simpl.
  intros _ h' ->. exact (P_surface _ _ _).
Qed.

Ltac keeps_kept :=
  repeat keeps_step;
  try (apply keeps_modify; intros ?; by apply same_store_kept);
  try apply reobserve_kept; try apply commit_vertex_kept;
  try apply add_surface_kept.

Lemma check_surface_kept {R} N c t :
  keeps (kept (R:=R) P) anywhere (check_surface N c t).
Proof. unfold check_surface, mark. keeps_kept. Qed.

Lemma integrate_surface_kept {R} N reindex u s :
  keeps (kept (R:=R) P) anywhere (integrate_surface N reindex u s).
Proof. unfold integrate_surface. keeps_kept. Qed.

Lemma compressAndIntegrate_kept V S stamp :
  keeps (kept P) anywhere (compressAndIntegrate V S stamp).
Proof.
  unfold compressAndIntegrate, classify, prefilter, commit. keeps_kept.
  - apply check_surface_kept.
  - apply integrate_surface_kept.
Qed.

Lemma remap_block_kept (ctb : gmap nat (BlockIndex * nat)) (idx v : nat) :
  keeps (kept P) anywhere (remap_block ctb idx v).
Proof. unfold remap_block. keeps_kept. Qed.

Lemma compressAndIntegrateBlocks_kept (mesh : list MeshBlock) (stamp : Z) :
  keeps (kept P) anywhere (compressAndIntegrateBlocks mesh stamp).
Proof.
  unfold compressAndIntegrateBlocks, block_step, block_vertex, classify_block,
    close_surface, commit_block, converge.
  keeps_kept; try apply check_surface_kept; try apply remap_block_kept.
  apply integrate_surface_kept.
Qed.

End kept.

(** A property of the store that holds however far a call gets. *)
Section kept_throughout.
Context `{B : Backend} (P : Store → Prop).
Context (P_touched : ∀ R stamp (h h' : Heap R),
           touched stamp h h' → P (store h) → P (store h')).
Context (P_committed : ∀ p stamp t (s : Store),
           P s → P (committed p stamp t s)).
Context (P_pushed : ∀ q (s : Store), P s → P (push_active_xyz q s)).
Context (P_surface : ∀ R t (h : Heap R), P (store h) → P (store (surface_added t h))).

#[local] Instance kept_throughout_refl {R} : Reflexive (kept (R:=R) P).
Proof. intros h HP. exact HP. Qed.

#[local] Instance kept_throughout_trans {R} : Transitive (kept (R:=R) P).
Proof. intros h1 h2 h3 H12 H23 HP. by apply H23, H12. Qed.

Lemma same_store_throughout {R} (h h' : Heap R) : store h' = store h → kept P h h'.
Proof. intros Hs. unfold kept. by rewrite Hs. Qed.

Lemma reobserve_throughout {R} r stamp :
  keeps (kept (R:=R) P) (kept P) (reobserve r stamp).
Proof.
  intros h. eapply wp_mono; [apply reobserve_spec | |]; simpl.
  - intros _ h' [_ Ht]. exact (P_touched _ stamp h h' Ht).
  - intros _ h' Ht. exact (P_touched _ stamp h h' Ht).
Qed.

Lemma commit_vertex_throughout {R} p stamp :
  keeps (kept (R:=R) P) (kept P) (commit_vertex p stamp).
Proof.
  intros h. eapply wp_mono; [apply commit_vertex_spec | |]; simpl.
  - intros _ h' (_ & t & _ & ->). exact (P_committed _ _ _ _).
  - intros _ h' (_ & ->). exact (P_pushed _ _).
Qed.

Lemma add_surface_throughout {R} t : keeps (kept (R:=R) P) (kept P) (add_surface t).
Proof.
  intros h. eapply wp_mono; [apply add_surface_spec | | done]. simpl.
  intros _ h' ->. exact (P_surface _ _ _).
Qed.

Ltac keeps_throughout :=
  repeat keeps_step;
  try (apply keeps_modify; intros ?; by apply same_store_throughout);
  try apply reobserve_throughout; try apply commit_vertex_throughout;
  try apply add_surface_throughout.

Lemma check_surface_throughout {R} N c t :
  keeps (kept (R:=R) P) (kept P) (check_surface N c t).
Proof. unfold check_surface, mark. keeps_throughout. Qed.

Lemma integrate_surface_throughout {R} N reindex u s :
  keeps (kept (R:=R) P) (kept P) (integrate_surface N reindex u s).
Proof. unfold integrate_surface. keeps_throughout. Qed.

Lemma compressAndIntegrate_throughout V S stamp :
  keeps (kept P) (kept P) (compressAndIntegrate V S stamp).
Proof.
  unfold compressAndIntegrate, classify, prefilter, commit. keeps_throughout.
  - apply check_surface_throughout.
  - apply integrate_surface_throughout.
Qed.

Lemma remap_block_throughout (ctb : gmap nat (BlockIndex * nat)) (idx v : nat) :
  keeps (kept P) (kept P) (remap_block ctb idx v).
Proof. unfold remap_block. keeps_throughout. Qed.

Lemma compressAndIntegrateBlocks_throughout (mesh : list MeshBlock) (stamp : Z) :
  keeps (kept P) (kept P) (compressAndIntegrateBlocks mesh stamp).
Proof.
  unfold compressAndIntegrateBlocks, block_step, block_vertex, classify_block,
    close_surface, commit_block, converge.
  keeps_throughout; try apply check_surface_throughout;
    try apply remap_block_throughout.
  apply integrate_surface_throughout.
Qed.

End kept_throughout.

(** ** Book-keeping that disagrees *)

Section stale_bookkeeping.
Context `{B : Backend}.
Implicit Types (s : Store).

Lemma slots_of_min s :
  cloud_leads s → length (slots_of s) = length (vertices_latest_time s).
Proof. intros [Ht Hi]. unfold slots_of. rewrite !length_zip_with. lia. Qed.

Lemma keep_slots_rows earliest s n :
  n ≤ length (slots_of s) →
  ∃ acc, keep_slots earliest s
           {| temp_active_vertices := []; temp_vertices_time := [];
              temp_vertices_index := []; temp_adjacent_polygons := ∅;
              member_adjacent_polygons := adjacent_polygons s |} (seq 0 n) = Some acc ∧
         copied s (filter (λ row, earliest < row.1.2)%Z (take n (slots_of s))) acc.
Proof.
  induction n as [|n IH]; intros Hn.
  - eexists. split; [done|]. unfold copied. simpl. repeat split; try done.
  - destruct IH as (acc & Hrun & Hcop); [lia|].
    destruct (lookup_lt_is_Some_2 (slots_of s) n) as [[[p t] v] Hrow]; [lia|].
    destruct (keep_slot_copied earliest s _ acc n p t v Hcop Hrow)
      as (acc' & Hstep & Hcop').
    exists acc'. split.
    + rewrite seq_S, keep_slots_app, Hrun. simpl. by rewrite Hstep.
    + by rewrite (take_S_r _ _ _ Hrow), filter_app.
Qed.

(** [pruneStoredMesh] whenever the cloud leads: it returns, having logged
    the lengths that disagree; the slots it keeps are those of the rows that
    are complete, and the vectors agree afterwards. *)
Lemma pruneStoredMesh_best_effort earliest s :
  cloud_leads s →
  ∃ log s', pruneStoredMesh earliest s = (log, Ret s') ∧
    (length (active_vertices_xyz s) ≠ 0 → length_checks s `prefix_of` log) ∧
    slots_of s' = surviving earliest s ∧ consistent s' ∧
    all_vertices s' = all_vertices s ∧ polygons s' = polygons s.
Proof.
  intros Hs. pose proof Hs as [Ht Hi]. unfold pruneStoredMesh.
  destruct (length (active_vertices_xyz s) =? 0) eqn:Hempty.
  - apply Nat.eqb_eq in Hempty.
    assert (slots_of s = []) as Hrows.
    { apply length_zero_iff_nil. rewrite slots_of_min by done. lia. }
    exists [], s. unfold surviving. rewrite Hrows.
    split_and!; try done. split; lia.
  - apply Nat.eqb_neq in Hempty.
    destruct (keep_slots_rows earliest s (length (vertices_latest_time s)))
      as (acc & -> & Hcop).
    { rewrite slots_of_min by done. lia. }
    rewrite take_ge in Hcop by (rewrite slots_of_min by done; lia).
    fold (surviving earliest s) in Hcop.
    destruct Hcop as (Hx & Htime & Hidx & _ & _).
    assert (length (temp_active_vertices acc) = length (surviving earliest s)) as Hlen.
    { by rewrite Hx, !length_fmap. }
    pose proof (length_filter (λ row, earliest < row.1.2)%Z (slots_of s)) as Hle.
    fold (surviving earliest s) in Hle. rewrite slots_of_min in Hle by done.
    destruct (length (temp_active_vertices acc) <? length (active_vertices_xyz s))
      eqn:Hdrop.
    + destruct (slots_of_unzip (surviving earliest s)
          {| active_vertices_xyz := temp_active_vertices acc;
             all_vertices := all_vertices s;
             active_vertices_index := temp_vertices_index acc;
             vertices_latest_time := temp_vertices_time acc;
             polygons := polygons s;
             adjacent_polygons := temp_adjacent_polygons acc;
             structure := structure s |}) as [Hrows Hcons]; [done..|].
      destruct (reInitializeStructure (temp_active_vertices acc)) as [t|e];
        eexists _, _; (split; [done|]); simpl;
        (split_and!; [intros _; try done; by apply prefix_app_r
                     |exact Hrows|exact Hcons|done|done]).
    + apply Nat.ltb_ge in Hdrop.
      assert (consistent s) as Hc by (split; lia).
      assert (surviving earliest s = slots_of s) as Heq.
      { apply filter_length_eq. fold (surviving earliest s).
        rewrite slots_of_min by done. lia. }
      eexists _, _. split; [done|]. simpl. rewrite Heq.
      split_and!; done.
Qed.

Lemma cloud_leads_touched {R} stamp (h h' : Heap R) :
  touched stamp h h' → cloud_leads (store h) → cloud_leads (store h').
Proof.
  intros [Hx _ Hi _ _ _ _ _ _ Hlen _ _] [? ?]. unfold cloud_leads.
  rewrite Hx, Hi, Hlen. done.
Qed.

Lemma cloud_leads_committed p stamp t s :
  cloud_leads s → cloud_leads (committed p stamp t s).
Proof. intros [? ?]. unfold cloud_leads. simpl. rewrite !length_app. simpl. lia. Qed.

Lemma cloud_leads_pushed q s : cloud_leads s → cloud_leads (push_active_xyz q s).
Proof. intros [? ?]. unfold cloud_leads. simpl. rewrite !length_app. simpl. lia. Qed.

Lemma visited_cloud_leads s : visited s → cloud_leads s.
Proof.
  induction 1 as [|V S stamp h _ IH|mesh stamp h _ IH|earliest s log s' _ IH Hrun].
  - split; simpl; lia.
  - pose proof (compressAndIntegrate_throughout cloud_leads
                  (@cloud_leads_touched) cloud_leads_committed cloud_leads_pushed
                  (λ R t h, id) V S stamp h) as Hwp.
    unfold wp, kept in Hwp.
    destruct (compressAndIntegrate V S stamp h); by apply Hwp.
  - pose proof (compressAndIntegrateBlocks_throughout cloud_leads
                  (@cloud_leads_touched) cloud_leads_committed cloud_leads_pushed
                  (λ R t h, id) mesh stamp h) as Hwp.
    unfold wp, kept in Hwp.
    destruct (compressAndIntegrateBlocks mesh stamp h); by apply Hwp.
  - destruct (pruneStoredMesh_best_effort earliest s IH)
      as (log' & s'' & Hrun' & _ & _ & [Hct Hci] & _).
    rewrite Hrun in Hrun'. injection Hrun' as _ <-. split; lia.
Qed.

(** C7. In every store the compressor can be in, after calls that returned
    or ended with an exception, [vertices_latest_time_] is the shortest of
    the three parallel vectors, so that the loop of [pruneStoredMesh] runs
    over the minimum of the three lengths. When the lengths disagree, the
    call logs the two mismatches, reads no vector past its end and returns;
    it keeps the slots seen after the cutoff among the rows that are
    complete, and leaves vectors that agree. *)
Theorem prune_is_best_effort (earliest : Z) (s : Store) :
  visited s → ¬ consistent s →
  length (vertices_latest_time s) ≤ length (active_vertices_xyz s) ∧
  length (vertices_latest_time s) ≤ length (active_vertices_index s) ∧
  ∃ log s', pruneStoredMesh earliest s = (log, Ret s') ∧
    TimeLengthMismatch ∈ log ∧ IndexLengthMismatch ∈ log ∧
    slots_of s' = surviving earliest s ∧ consistent s' ∧
    all_vertices s' = all_vertices s ∧ polygons s' = polygons s.
Proof.
  intros Hs%visited_cloud_leads Hstale. pose proof Hs as [Ht Hi].
  split; [lia|]. split; [lia|].
  destruct (pruneStoredMesh_best_effort earliest s Hs)
    as (log & s' & Hrun & Hlog & Hrows & Hc & Hall & Hpolys).
  exists log, s'. split; [done|].
  assert (length (active_vertices_index s) ≠ length (active_vertices_xyz s)) as Hne.
  { intros Heq. apply Hstale. split; lia. }
  assert (length_checks s = [TimeLengthMismatch; IndexLengthMismatch]) as Hchecks.
  { unfold length_checks. rewrite !bool_decide_eq_false_2; [done|done|lia]. }
  rewrite Hchecks in Hlog. destruct Hlog as [rest ->]; [lia|].
  split_and!; try done.
  - by left.
  - right. by left.
Qed.

End stale_bookkeeping.

Section reachable_stores.
Context `{B : Backend}.

Lemma consistent_touched R stamp (h h' : Heap R) :
  touched stamp h h' → consistent (store h) → consistent (store h').
Proof.
  intros Ht. unfold consistent.
  by rewrite (touched_times_length _ _ _ Ht), (touched_xyz _ _ _ Ht),
    (touched_index _ _ _ Ht).
Qed.

Lemma consistent_committed p stamp t (s : Store) :
  consistent s → consistent (committed p stamp t s).
Proof. unfold consistent. simpl. rewrite !length_app. simpl. lia. Qed.

(** The invariants of the store hold after every call that returned. *)
Lemma reachable_invariant (s : Store) :
  reachable s → consistent s ∧ store_inv s.
Proof.
  induction 1 as [|V S stamp h h' _ [Hc Hinv] Hrun
                  |mesh stamp h h' _ [Hc Hinv] Hrun
                  |earliest s log s' _ [Hc Hinv] Hrun].
  - split; [done | apply store_inv_empty].
  - split.
    + refine (wp_normal _ _ _ _ _ _
                (compressAndIntegrate_kept consistent _ _ _ V S stamp h) Hrun Hc).
      * apply consistent_touched.
      * intros p st t s _. apply consistent_committed.
      * by intros R t h0.
    + by destruct (wp_normal _ _ _ _ _ _
                     (compressAndIntegrate_surfaces V S stamp h Hinv) Hrun).
  - split.
    + refine (wp_normal _ _ _ _ _ _
                (compressAndIntegrateBlocks_kept consistent _ _ _ mesh stamp h)
                Hrun Hc).
      * apply consistent_touched.
      * intros p st t s _. apply consistent_committed.
      * by intros R t h0.
    + by destruct (wp_normal _ _ _ _ _ _
                     (compressAndIntegrateBlocks_surfaces mesh stamp h Hinv) Hrun).
  - by destruct (pruneStoredMesh_store_inv earliest s s' log Hc Hinv Hrun).
Qed.

(** Every store reached through calls that returned has parallel vectors of
    one length, indices that point into [all_vertices_], and complete
    adjacency lists for its active vertices. *)
Theorem reachable_well_formed (s : Store) :
  reachable s → consistent s ∧ store_inv s.
Proof. apply reachable_invariant. Qed.

End reachable_stores.

Section stored_duplicates.
Context `{B : Backend}.

(** C3, as the code has it. [pruneStoredMesh] never changes [polygons_].
    [compressAndIntegrate] asks [SurfaceExists] only about faces built from
    vertices stored before the call. From a reachable store, two stored
    polygons with the same vertex set after a call were both stored before
    it, or were both appended by it and contain a vertex committed in the
    same call. *)
Theorem stored_duplicates_are_fresh (s : Store) :
  reachable s →
  (∀ V S stamp (h h' : Heap (gmap nat nat)),
     store h = s → compressAndIntegrate V S stamp h = Normal () h' →
     duplicates_are_fresh s (store h')) ∧
  (∀ mesh stamp (h h' : Heap (gmap BlockIndex (gmap nat nat))),
     store h = s → compressAndIntegrateBlocks mesh stamp h = Normal () h' →
     duplicates_are_fresh s (store h')) ∧
  (∀ earliest log s',
     pruneStoredMesh earliest s = (log, Ret s') → polygons s' = polygons s).
Proof.
  intros [_ Hinv]%reachable_invariant. split_and!.
  - intros V S stamp h h' <- Hrun.
    by destruct (wp_normal _ _ _ _ _ _
                   (compressAndIntegrate_surfaces V S stamp h Hinv) Hrun).
  - intros mesh stamp h h' <- Hrun.
    by destruct (wp_normal _ _ _ _ _ _
                   (compressAndIntegrateBlocks_surfaces mesh stamp h Hinv) Hrun).
  - intros earliest log s' Hrun.
    by apply pruneStoredMesh_polygons in Hrun as [? _].
Qed.

End stored_duplicates.

Section total.
Context `{B : Backend} `{L : !Lawful}.

Lemma wp_returns {R A} (m : Run R A) Q (h : Heap R) :
  wp m Q never h → ∃ a h', m h = Normal a h' ∧ Q a h'.
Proof. unfold wp. destruct (m h) as [a h'|e h']; [eauto | done]. Qed.

Lemma touched_ready {R} stamp (h h' : Heap R) :
  touched stamp h h' → ready (store h) → ready (store h').
Proof.
  intros Ht (Hc & Hb & Hi). unfold ready, consistent, index_bounded, indexed.
  by rewrite (touched_times_length _ _ _ Ht), (touched_xyz _ _ _ Ht),
    (touched_index _ _ _ Ht), (touched_all _ _ _ Ht), (touched_structure _ _ _ Ht).
Qed.

Lemma surfaced_ready {R} (h h' : Heap R) :
  surfaced h h' → ready (store h) → ready (store h').
Proof.
  intros Hs (Hc & Hb & Hi). unfold ready, consistent, index_bounded, indexed.
  by rewrite (surfaced_times _ _ Hs), (surfaced_xyz _ _ Hs),
    (surfaced_index _ _ Hs), (surfaced_all _ _ Hs), (surfaced_structure _ _ Hs).
Qed.

Lemma touched_reobserved {R} r id stamp (h : Heap R) :
  touched stamp h
    (with_store (set_latest_time (λ ts, <[r:=stamp]> ts))
       (with_new_indices (push_if_absent id) h)).
Proof.
  split; simpl; auto.
  - by rewrite length_insert.
  - intros i t. destruct (decide (i = r)) as [->|].
    + intros Ht. apply list_lookup_insert_Some in Ht as [(_ & <- & _)|[? _]];
        [by left | done].
    + rewrite list_lookup_insert_ne by done. auto.
  - unfold push_if_absent. case_bool_decide; [done|]. by apply prefix_app_r.
Qed.

Lemma reobserve_returns {R} r stamp (h : Heap R) :
  consistent (store h) → r < length (active_vertices_xyz (store h)) →
  wp (reobserve r stamp)
     (λ id h', active_vertices_index (store h) !! r = Some id ∧ touched stamp h h')
     never h.
Proof.
  intros [Hct Hci] Hr.
  destruct (lookup_lt_is_Some_2 (active_vertices_index (store h)) r) as [id Hid];
    [lia|].
  unfold reobserve, touch. wp_run; simplify_eq/=; try lia.
  split; [done | apply touched_reobserved].
Qed.

Lemma classify_returns {R} stamp N n l i p (h : Heap R) :
  ready (store h) → length (all_vertices (store h)) = N →
  candidates_ok N n l → i < n →
  wp (classify stamp N l (i, p))
     (λ l' h', touched stamp h h' ∧ candidates_ok N n l' ∧
               length (temp_reindex l') = S (length (temp_reindex l)))
     never h.
Proof.
  intros (Hc & Hb & Hi) HN [Hk Hcl Htemp Hinp Hre Hcnt] Hin. unfold classify.
  destruct (indexes_check _ _ (xyz p) Hi) as (hit & Hhit & Hr).
  apply wp_bind, wp_gets, wp_bind. rewrite Hhit. apply wp_call.
  destruct hit as [r|].
  - apply wp_bind.
    eapply wp_mono; [apply reobserve_returns; [done | by apply Hr] | | done].
    intros id h' [Hid Ht]. apply wp_ret. split; [done|].
    assert (id < N) as HidN.
    { subst N. by eapply (Forall_lookup_1 _ _ _ _ Hb). }
    split; [split|]; simpl; rewrite ?length_app; simpl; try done; try lia.
    apply Forall_app. split; [done|]. constructor; [lia | done].
  - destruct (temp_indexes_check _ _ (xyz p) Htemp) as (thit & Hthit & Hk').
    apply wp_bind. rewrite Hthit. apply wp_call.
    destruct thit as [k|].
    + apply wp_ret. split; [apply touched_refl|].
      specialize (Hk' k eq_refl).
      split; [split|]; simpl; rewrite ?length_app; simpl; try done; try lia.
      apply Forall_app. split; [done|]. constructor; [lia | done].
    + destruct (temp_indexes_update _ _ (xyz p) Htemp) as (t' & Hupd & Ht').
      apply wp_bind. rewrite Hupd. apply wp_call, wp_ret.
      split; [apply touched_refl|].
      split; [split|]; simpl; rewrite ?length_app; simpl; try done; try lia.
      * apply Forall_app. split; [done | by constructor].
      * apply Forall_app. split.
        -- eapply Forall_impl; [exact Hre|]. simpl. lia.
        -- constructor; [lia | done].
Qed.

Lemma classify_loop_returns {R} stamp N (V : list Vertex) l0 (h : Heap R) :
  ready (store h) → length (all_vertices (store h)) = N →
  candidates_ok N (length V) l0 →
  wp (foldM (classify stamp N) (imap pair V) l0)
     (λ l h', touched stamp h h' ∧ candidates_ok N (length V) l ∧
              length (temp_reindex l) = length (temp_reindex l0) + length V)
     never h.
Proof.
  intros Hr HN Hl0.
  eapply wp_mono; [| |].
  - apply (wp_foldM (λ pre l h', touched stamp h h' ∧ candidates_ok N (length V) l ∧
        length (temp_reindex l) = length (temp_reindex l0) + length pre) never).
    + split; [apply touched_refl|]. split; [done|]. simpl. lia.
    + intros pre [i p] post l h1 Hsplit (Ht & Hl & Hlen).
      apply imap_pair_split in Hsplit as [Hi Hp]. simpl in *. subst i.
      eapply wp_mono; [apply classify_returns | | done].
      * by eapply touched_ready.
      * by rewrite (touched_all _ _ _ Ht).
      * done.
      * by eapply lookup_lt_Some.
      * intros l' h2 (Ht2 & Hl' & Hlen'). split; [by eapply touched_trans|].
        split; [done|]. rewrite length_app. simpl. lia.
  - intros l h' (Ht & Hl & Hlen). by rewrite length_imap in Hlen.
  - done.
Qed.

Lemma forM_at_returns {R A} (v : list A) (s : list nat) (h : Heap R) :
  Forall (λ i, i < length v) s →
  wp (forM (at_ v) s)
     (λ cs h', h' = h ∧ Forall2 (λ i c, v !! i = Some c) s cs) never h.
Proof.
  intros Hs. eapply wp_mono.
  - apply (wp_forM (λ h', h' = h) (λ i c, v !! i = Some c) never); [done|].
    intros i h' Hi ->. rewrite Forall_forall in Hs.
    destruct (lookup_lt_is_Some_2 v i (Hs i Hi)) as [c Hc].
    apply wp_at. by rewrite Hc.
  - done.
  - done.
Qed.

Lemma mark_returns {R} N c v (h : Heap R) :
  v < N + length c →
  wp (mark N c v) (λ c' h', h' = h ∧ length c' = length c) never h.
Proof.
  intros Hv. unfold mark. destruct (N <=? v) eqn:HNv; [|by apply wp_ret].
  apply Nat.leb_le in HNv. rewrite bool_decide_true by lia.
  apply wp_ret. split; [done|]. by rewrite length_insert.
Qed.

Lemma check_surface_returns {R} N c t (h : Heap R) :
  Forall (λ v, v < N + length c) t →
  wp (check_surface N c t) (λ c' h', h' = h ∧ length c' = length c) never h.
Proof.
  intros Ht. unfold check_surface. wp_run; try done.
  apply (wp_foldM_inv (λ c' h', h' = h ∧ length c' = length c)); [done|].
  intros v c' h' Hv [-> Hlen].
  eapply wp_mono; [apply mark_returns | | done].
  - rewrite Forall_forall in Ht. rewrite Hlen. by apply Ht.
  - simpl. intros c'' h'' [-> ?]. split; [done | congruence].
Qed.

Lemma prefilter_returns {R} N n l s (h : Heap R) :
  candidates_ok N n l → Forall (λ i, i < length (temp_reindex l)) s →
  wp (prefilter N l s)
     (λ l' h', h' = h ∧ candidates_ok N n l' ∧
               length (temp_reindex l') = length (temp_reindex l))
     never h.
Proof.
  intros Hl Hs. unfold prefilter. apply wp_bind.
  eapply wp_mono; [by apply forM_at_returns | | done].
  simpl. intros t h' [-> Ht]. apply wp_bind.
  destruct Hl as [Hk Hcl Htemp Hinp Hre Hcnt].
  eapply wp_mono; [apply check_surface_returns | | done].
  - rewrite Hk. rewrite Forall_forall in Hre. apply Forall_forall. intros v Hv.
    apply (list_elem_of_lookup_1 t) in Hv as [j Hj].
    destruct (Forall2_lookup_r _ _ _ _ _ Ht Hj) as (i & _ & Hi).
    apply Hre. by eapply list_elem_of_lookup_2.
  - simpl. intros c h' [-> Hlen]. apply wp_ret. split; [done|].
    split; [|done]. split; simpl; try done. congruence.
Qed.

Lemma ready_committed p stamp t (s : Store) :
  ready s → indexes t (active_vertices_xyz s ++ [xyz p]) →
  ready (committed p stamp t s).
Proof.
  intros ([Hct Hci] & Hb & _) Ht. split_and!; simpl; [| |done].
  - split; simpl; rewrite !length_app; simpl; lia.
  - unfold index_bounded. simpl. rewrite length_app. simpl.
    apply Forall_app. split.
    + eapply Forall_impl; [exact Hb|]. simpl. lia.
    + constructor; [lia | done].
Qed.

Lemma commit_returns V stamp N l i (h : Heap (gmap nat nat)) :
  ready (store h) → candidates_ok N (length V) l →
  i < length (potential_new_vertices l) →
  wp (commit V stamp l i)
     (λ l' h', ready (store h') ∧ candidates_ok N (length V) l' ∧
               potential_new_vertices l' = potential_new_vertices l)
     never h.
Proof.
  intros Hr Hl Hi. pose proof Hl as [Hk Hcl Htemp Hinp Hre Hcnt]. unfold commit.
  destruct (lookup_lt_is_Some_2 (potential_new_vertices_check l) i) as [chk Hchk];
    [lia|].
  apply wp_bind, wp_index. rewrite Hchk. destruct chk; [|by apply wp_ret].
  destruct (lookup_lt_is_Some_2 (potential_new_vertices l) i Hi) as [input_idx Hinput].
  apply wp_bind, wp_index. rewrite Hinput.
  destruct (lookup_lt_is_Some_2 V input_idx) as [p Hp].
  { by eapply (Forall_lookup_1 _ _ _ _ Hinp). }
  apply wp_bind, wp_at. rewrite Hp. apply wp_bind.
  destruct (indexes_update _ _ (xyz p) (proj2 (proj2 Hr))) as (t' & Hupd & Ht').
  eapply wp_mono; [apply commit_vertex_spec | |].
  - intros v h' (-> & t & Hupd' & ->). rewrite Hupd in Hupd'. simplify_eq.
    destruct (lookup_lt_is_Some_2 (temp_reindex l) i) as [tri Htri]; [lia|].
    apply wp_bind, wp_modify, wp_bind, wp_index. rewrite Htri.
    apply wp_bind, wp_modify, wp_bind, wp_modify, wp_bind, wp_modify, wp_ret.
    simpl. split_and!; [by apply ready_committed | by destruct Hl | done].
  - intros e h' [Hfail _]. rewrite Hupd in Hfail. discriminate.
Qed.

(** The flat overload returns when the spatial index keeps its promises and
    the surfaces only name input vertices. *)
Lemma compressAndIntegrate_returns V S stamp (h : Heap (gmap nat nat)) :
  ready (store h) → surfaces_in_range V S →
  wp (compressAndIntegrate V S stamp) (λ _ h', ready (store h')) never h.
Proof.
  intros Hr HS. unfold compressAndIntegrate.
  destruct ((length V <? 3) || (length S =? 0)); [by apply wp_ret|].
  apply wp_bind, wp_gets, wp_bind.
  destruct temp_indexes_build as (t & Ht & Htemp). rewrite Ht. apply wp_call.
  apply wp_bind.
  eapply wp_mono; [apply classify_loop_returns; [done | done |] | | done].
  { by split; simpl. }
  simpl. intros l1 h1 (Ht1 & Hl1 & Hlen1). apply wp_bind.
  eapply wp_mono; [| | done].
  { apply (wp_foldM_inv (λ l' h', h' = h1 ∧
             candidates_ok (length (all_vertices (store h))) (length V) l' ∧
             length (temp_reindex l') = length V) never); [done|].
    intros s l' h' Hs (-> & Hl' & Hlen').
    eapply wp_mono; [apply prefilter_returns; [done|] | | done].
    - rewrite Hlen'. unfold surfaces_in_range in HS.
      rewrite Forall_forall in HS. by apply HS.
    - simpl. intros l'' h'' (-> & Hl'' & Hlen''). split_and!; [done | done | lia]. }
  simpl. intros l2 h2 (-> & Hl2 & Hlen2).
  apply wp_bind, wp_modify, wp_bind.
  eapply wp_mono; [| | done].
  { apply (wp_foldM_inv (λ l' h', ready (store h') ∧
             candidates_ok (length (all_vertices (store h))) (length V) l' ∧
             potential_new_vertices l' = potential_new_vertices l2) never).
    - split_and!; [|done|done]. simpl. by eapply touched_ready.
    - intros i l' h' Hi (Hr' & Hl' & Hp').
      apply elem_of_seq in Hi.
      eapply wp_mono; [apply commit_returns; [done | done | rewrite Hp'; lia] | | done].
      simpl. intros l'' h'' (Hr'' & Hl'' & Hp''). split_and!; [done | done | congruence]. }
  simpl. intros l3 h3 (Hr3 & _).
  eapply wp_mono; [apply integrate_loop_surfaced | | done].
  simpl. intros _ h4 Hs. by eapply surfaced_ready.
Qed.

End total.

Section total_blocks.
Context `{B : Backend} `{L : !Lawful}.

Lemma lookup_snoc_eq {A} (l : list A) (x : A) (i j : nat) :
  i < length l → l !! i = l !! j → (l ++ [x]) !! i = (l ++ [x]) !! j.
Proof.
  intros Hi Heq. destruct (lookup_lt_is_Some_2 l i Hi) as [y Hy].
  rewrite (lookup_app_l_Some _ _ _ _ Hy). symmetry.
  apply lookup_app_l_Some. by rewrite <- Heq.
Qed.

(** One more input vertex that did not become a candidate: [v] is its entry
    in [temp_reindex]. *)
Lemma block_ok_seen (N : nat) (keys : gset BlockIndex) (bi : BlockIndex)
    (i : nat) (p : Vertex) (l : BlockLocals) (v : nat) :
  block_ok N keys l → bi ∈ keys →
  v < N + length (potential_new_vertices (base l)) →
  block_ok N keys (next_count (with_base (push_temp_reindex v) (book_keep bi i p l))).
Proof.
  intros [[Hk Hcl Htemp Hinp Hre Hcnt] Hlen Hpts Hblk Hfirst Hconv] Hbi Hv.
  split; simpl.
  - split; simpl; rewrite ?length_app; simpl; try done; try lia.
    + eapply Forall_impl; [exact Hinp|]. simpl. lia.
    + apply Forall_app. split; [done|]. constructor; [lia | done].
  - rewrite length_app. simpl. lia.
  - rewrite length_app. simpl. lia.
  - intros c Hc. destruct (decide (c = count l)) as [->|Hne].
    + exists bi, i. by rewrite lookup_insert_eq.
    + rewrite lookup_insert_ne by done. apply Hblk. lia.
  - intros k j Hj. apply lookup_app_l_Some. by apply Hfirst.
  - intros j ms m Hms Hm. destruct (Hconv j ms m Hms Hm) as [Hlt Heq].
    split; [lia|]. apply lookup_snoc_eq; [lia | done].
Qed.

(** One more input vertex that fell onto candidate [k]. *)
Lemma block_ok_converged (N : nat) (keys : gset BlockIndex) (bi : BlockIndex)
    (i : nat) (p : Vertex) (l : BlockLocals) (k first : nat) :
  block_ok N keys l → bi ∈ keys →
  potential_new_vertices (base l) !! k = Some first →
  block_ok N keys
    (next_count (with_converged (push_at first (count l))
                   (with_base (push_temp_reindex (N + k)) (book_keep bi i p l)))).
Proof.
  intros Hl Hbi Hk.
  assert (k < length (potential_new_vertices (base l))) as Hlt
    by by eapply lookup_lt_Some.
  pose proof (block_ok_seen N keys bi i p l (N + k) Hl Hbi ltac:(lia))
    as [Hb Hlen Hpts Hblk Hfirst Hconv].
  split; try done. simpl in *.
  intros j ms m Hms Hm. unfold push_at in Hms.
  destruct (decide (j = first)) as [->|Hne].
  - rewrite lookup_insert_eq in Hms. simplify_eq.
    apply elem_of_app in Hm as [Hm|Hm%list_elem_of_singleton].
    + destruct (converged_vertices l !! first) as [ms|] eqn:Hold; simpl in Hm.
      * by eapply Hconv.
      * by apply elem_of_nil in Hm.
    + subst m. split; [lia|]. rewrite (Hfirst k first Hk).
      rewrite <- (bo_temp _ _ _ Hl). by rewrite list_lookup_middle.
  - rewrite lookup_insert_ne in Hms by done. by eapply Hconv.
Qed.

(** One more input vertex that became a candidate. *)
Lemma block_ok_candidate (N : nat) (keys : gset BlockIndex) (bi : BlockIndex)
    (i : nat) (p : Vertex) (l : BlockLocals) (t : TempStructure) :
  block_ok N keys l → bi ∈ keys →
  temp_indexes t (temp_new_vertices (base l) ++ [xyz p]) →
  block_ok N keys
    (next_count
       (with_converged (insert_new (count l) [])
          (with_base (λ b, push_temp_reindex
                             (N + length (temp_new_vertices (base l) ++ [xyz p]) - 1)
                             (add_candidate (count l)
                                (temp_new_vertices (base l) ++ [xyz p]) t b))
             (book_keep bi i p l)))).
Proof.
  intros [[Hk Hcl Htemp Hinp Hre Hcnt] Hlen Hpts Hblk Hfirst Hconv] Hbi Ht.
  split; simpl.
  - split; simpl; rewrite ?length_app; simpl; try done; try lia.
    + apply Forall_app. split; [|constructor; [lia | done]].
      eapply Forall_impl; [exact Hinp|]. simpl. lia.
    + apply Forall_app. split; [|constructor; [lia | done]].
      eapply Forall_impl; [exact Hre|]. simpl. lia.
  - rewrite length_app. simpl. lia.
  - rewrite length_app. simpl. lia.
  - intros c Hc. destruct (decide (c = count l)) as [->|Hne].
    + exists bi, i. by rewrite lookup_insert_eq.
    + rewrite lookup_insert_ne by done. apply Hblk. lia.
  - intros k j Hj. apply lookup_app_Some in Hj as [Hj|[Hge Hj]].
    + apply lookup_app_l_Some. by apply Hfirst.
    + apply list_lookup_singleton_Some in Hj as [Hk0 <-].
      rewrite <- Hlen, length_app. simpl.
      replace (N + (length (temp_new_vertices (base l)) + 1) - 1) with (N + k) by lia.
      by rewrite list_lookup_middle.
  - intros j ms m Hms Hm. unfold insert_new in Hms.
    assert (converged_vertices l !! j = Some ms) as Hold.
    { destruct (converged_vertices l !! count l) eqn:Hc; [done|].
      destruct (decide (j = count l)) as [->|Hne].
      - rewrite lookup_insert_eq in Hms. simplify_eq. by apply elem_of_nil in Hm.
      - by rewrite lookup_insert_ne in Hms. }
    destruct (Hconv j ms m Hold Hm) as [Hlt Heq].
    split; [lia|]. apply lookup_snoc_eq; [lia | done].
Qed.

Lemma classify_block_returns {R : Type} (stamp : Z) (N : nat) (keys : gset BlockIndex)
    (bi : BlockIndex) (i : nat) (p : Vertex) (l : BlockLocals) (h : Heap R) :
  ready (store h) → length (all_vertices (store h)) = N →
  block_ok N keys l → bi ∈ keys →
  wp (classify_block stamp N (book_keep bi i p l) p)
     (λ l' h', touched stamp h h' ∧ block_ok N keys (next_count l'))
     never h.
Proof.
  intros (Hc & Hb & Hi) HN Hl Hbi. unfold classify_block.
  destruct (indexes_check _ _ (xyz p) Hi) as (hit & Hhit & Hr).
  apply wp_bind, wp_gets, wp_bind. rewrite Hhit. apply wp_call.
  destruct hit as [r|].
  - apply wp_bind.
    eapply wp_mono; [apply reobserve_returns; [done | by apply Hr] | | done].
    intros id h' [Hid Ht]. apply wp_ret. split; [done|].
    apply block_ok_seen; [done | done |].
    assert (id < N); [|lia]. subst N. by eapply (Forall_lookup_1 _ _ _ _ Hb).
  - pose proof (co_temp _ _ _ (bo_base _ _ _ Hl)) as Htemp. simpl.
    destruct (temp_indexes_check _ _ (xyz p) Htemp) as (thit & Hthit & Hk).
    apply wp_bind. rewrite Hthit. apply wp_call.
    destruct thit as [k|].
    + specialize (Hk k eq_refl).
      rewrite (co_cloud _ _ _ (bo_base _ _ _ Hl)) in Hk.
      destruct (lookup_lt_is_Some_2 _ _ Hk) as [first Hfirst].
      apply wp_bind, wp_index. rewrite Hfirst. apply wp_ret.
      split; [apply touched_refl|]. by apply block_ok_converged.
    + destruct (temp_indexes_update _ _ (xyz p) Htemp) as (t' & Hupd & Ht').
      apply wp_bind. rewrite Hupd. apply wp_call, wp_ret.
      split; [apply touched_refl|]. by apply block_ok_candidate.
Qed.

Lemma block_ok_checked (N : nat) (keys : gset BlockIndex) (l : BlockLocals)
    (c : list bool) (s : Surface) :
  block_ok N keys (next_count l) →
  length c = length (potential_new_vertices_check (base l)) →
  block_ok N keys (next_count (with_base (set_check c) (push_input_surface s l))).
Proof.
  intros [[Hk Hcl Htemp Hinp Hre Hcnt] Hlen Hpts Hblk Hfirst Hconv] Hc.
  split; try done. split; try done. simpl in *. congruence.
Qed.

Lemma close_surface_returns {R : Type} (N : nat) (keys : gset BlockIndex)
    (l : BlockLocals) (h : Heap R) :
  block_ok N keys (next_count l) →
  wp (close_surface N l) (λ l' h', h' = h ∧ block_ok N keys (next_count l'))
     never h.
Proof.
  intros Hl. unfold close_surface. apply wp_bind.
  pose proof (bo_temp _ _ _ Hl) as Hlen. simpl in Hlen.
  pose proof (bo_base _ _ _ Hl) as [Hk _ _ _ Hre _]. simpl in Hk, Hre.
  eapply wp_mono; [apply forM_at_returns | | done].
  { repeat constructor; lia. }
  simpl. intros t h' [-> Ht]. apply wp_bind.
  eapply wp_mono; [apply check_surface_returns | | done].
  - rewrite Hk. rewrite Forall_forall in Hre. apply Forall_forall. intros v Hv.
    apply (list_elem_of_lookup_1 t) in Hv as [j Hj].
    destruct (Forall2_lookup_r _ _ _ _ _ Ht Hj) as (i & _ & Hi).
    apply Hre. by eapply list_elem_of_lookup_2.
  - simpl. intros c h' [-> Hc]. apply wp_ret. split; [done|].
    by apply block_ok_checked.
Qed.

Lemma block_vertex_returns {R : Type} (stamp : Z) (N : nat) (keys : gset BlockIndex)
    (bi : BlockIndex) (l : BlockLocals) (i : nat) (p : Vertex) (h : Heap R) :
  ready (store h) → length (all_vertices (store h)) = N →
  block_ok N keys l → bi ∈ keys →
  wp (block_vertex stamp N bi l (i, p))
     (λ l' h', touched stamp h h' ∧ block_ok N keys l') never h.
Proof.
  intros Hr HN Hl Hbi. unfold block_vertex. apply wp_bind.
  eapply wp_mono; [by apply classify_block_returns | | done].
  cbv beta. intros l1 h1 [Ht Hl1]. apply wp_bind.
  destruct (i mod 3 =? 2).
  - eapply wp_mono; [by apply close_surface_returns | | done].
    simpl. intros l2 h2 [-> Hl2]. by apply wp_ret.
  - by apply wp_ret, wp_ret.
Qed.

Lemma block_ok_keys (N : nat) (keys keys' : gset BlockIndex) (l : BlockLocals) :
  keys ⊆ keys' → block_ok N keys l → block_ok N keys' l.
Proof.
  intros Hsub [Hb Hlen Hpts Hblk Hfirst Hconv]. split; try done.
  intros c Hc. destruct (Hblk c Hc) as (bi & k & Hk & Hbi).
  exists bi, k. split; [done|]. by apply Hsub.
Qed.

Lemma block_step_returns (stamp : Z) (N : nat) (l : BlockLocals) (mb : MeshBlock)
    (h : Heap (gmap BlockIndex (gmap nat nat))) :
  ready (store h) → length (all_vertices (store h)) = N →
  block_ok N (dom (remapping h)) l →
  length (block_points mb) mod 3 = 0 →
  wp (block_step stamp N l mb)
     (λ l' h', ready (store h') ∧ length (all_vertices (store h')) = N ∧
               block_ok N (dom (remapping h')) l')
     never h.
Proof.
  intros Hr HN Hl Hmod. unfold block_step. rewrite Hmod. simpl.
  apply wp_bind, wp_modify.
  set (h1 := with_remapping (insert_new (block_index mb) ∅) h).
  assert (block_index mb ∈ dom (remapping h1)) as Hbi.
  { simpl. rewrite insert_new_dom. apply elem_of_union_l. by apply elem_of_singleton. }
  assert (block_ok N (dom (remapping h1)) l) as Hl1.
  { eapply block_ok_keys; [|done]. simpl. rewrite insert_new_dom.
    apply union_subseteq_r. }
  eapply wp_mono; [| | done].
  - apply (wp_foldM_inv (λ l' h', touched stamp h1 h' ∧
             block_ok N (dom (remapping h1)) l') never).
    + split; [apply touched_refl | done].
    + intros [i p] l' h' _ [Ht Hl'].
      eapply wp_mono; [apply block_vertex_returns | | done].
      * by eapply (touched_ready _ h1).
      * by rewrite (touched_all _ _ _ Ht).
      * done.
      * done.
      * simpl. intros l'' h'' [Ht' Hl'']. split; [|done]. by eapply touched_trans.
  - simpl. intros l' h' [Ht Hl']. split_and!.
    + by eapply (touched_ready _ h1).
    + by rewrite (touched_all _ _ _ Ht).
    + by rewrite (touched_remapping _ _ _ Ht).
Qed.

Lemma remap_block_returns (ctb : gmap nat (BlockIndex * nat)) (idx v : nat)
    (b : BlockIndex) (k : nat) (h : Heap (gmap BlockIndex (gmap nat nat))) :
  ctb !! idx = Some (b, k) → b ∈ dom (remapping h) →
  wp (remap_block ctb idx v)
     (λ _ h', dom (remapping h') = dom (remapping h) ∧ store h' = store h)
     never h.
Proof.
  intros Hidx [inner Hb]%elem_of_dom. unfold remap_block. rewrite Hidx.
  apply wp_bind, wp_gets. rewrite Hb. apply wp_modify. simpl. split; [|done].
  rewrite dom_insert_L. apply subseteq_union_1_L, singleton_subseteq_l.
  by apply elem_of_dom.
Qed.

Lemma block_ok_reindex (N : nat) (keys : gset BlockIndex) (l : BlockLocals)
    (m v : nat) :
  block_ok N keys l → block_ok N keys (with_base (add_reindex m v) l).
Proof.
  intros [[Hk Hcl Htemp Hinp Hre Hcnt] Hlen Hpts Hblk Hfirst Hconv].
  split; try done.
Qed.

Lemma converge_returns (N : nat) (l0 : BlockLocals) (input_idx v : nat)
    (l : BlockLocals) (m : nat) (ms : list nat)
    (h : Heap (gmap BlockIndex (gmap nat nat))) :
  block_ok N (dom (remapping h)) l0 →
  converged_vertices l0 !! input_idx = Some ms → m ∈ ms →
  wp (converge l0 input_idx v l m)
     (λ l' h', dom (remapping h') = dom (remapping h) ∧ store h' = store h ∧
               l' = with_base (add_reindex m v) l)
     never h.
Proof.
  intros Hl0 Hms Hm. unfold converge.
  destruct (bo_conv _ _ _ Hl0 _ _ _ Hms Hm) as [Hlt Heq].
  destruct (lookup_lt_is_Some_2 (temp_reindex (base l0)) m) as [x Hx].
  { by rewrite (bo_temp _ _ _ Hl0). }
  apply wp_bind, wp_index. rewrite <- Heq, Hx.
  apply wp_bind, wp_index. rewrite Hx. rewrite Nat.eqb_refl. simpl.
  destruct (bo_blocks _ _ _ Hl0 m Hlt) as (b & k & Hk & Hb).
  apply wp_bind.
  eapply wp_mono; [by eapply remap_block_returns | | done].
  simpl. intros _ h' [Hd Hs]. by apply wp_ret.
Qed.

Lemma commit_block_returns (stamp : Z) (N : nat) (l : BlockLocals) (i : nat)
    (h : Heap (gmap BlockIndex (gmap nat nat))) :
  ready (store h) → block_ok N (dom (remapping h)) l →
  i < length (potential_new_vertices (base l)) →
  wp (commit_block stamp l i)
     (λ l' h', ready (store h') ∧ block_ok N (dom (remapping h')) l' ∧
               potential_new_vertices (base l') = potential_new_vertices (base l))
     never h.
Proof.
  intros Hr Hl Hi. pose proof (bo_base _ _ _ Hl) as [Hk Hcl Htemp Hinp Hre Hcnt].
  unfold commit_block.
  destruct (lookup_lt_is_Some_2 (potential_new_vertices_check (base l)) i)
    as [chk Hchk]; [lia|].
  apply wp_bind, wp_index. rewrite Hchk. destruct chk; [|by apply wp_ret].
  destruct (lookup_lt_is_Some_2 (potential_new_vertices (base l)) i Hi)
    as [input_idx Hinput].
  apply wp_bind, wp_index. rewrite Hinput.
  assert (input_idx < count l) as Hlt by by eapply (Forall_lookup_1 _ _ _ _ Hinp).
  destruct (lookup_lt_is_Some_2 (all_parsed_points l) input_idx) as [p Hp].
  { by rewrite (bo_points _ _ _ Hl). }
  apply wp_bind, wp_index. rewrite Hp. apply wp_bind.
  destruct (indexes_update _ _ (xyz p) (proj2 (proj2 Hr))) as (t' & Hupd & Ht').
  eapply wp_mono; [apply commit_vertex_spec | |].
  - intros v h1 (-> & t & Hupd' & ->). rewrite Hupd in Hupd'. simplify_eq.
    destruct (bo_blocks _ _ _ Hl input_idx Hlt) as (b & k & Hbk & Hb).
    apply wp_bind.
    eapply wp_mono; [by eapply remap_block_returns | | done].
    simpl. intros _ h2 [Hd2 Hs2]. apply wp_bind.
    eapply wp_mono; [| | done].
    + apply (wp_foldM_inv (λ l' h', store h' = store h2 ∧
               dom (remapping h') = dom (remapping h) ∧
               block_ok N (dom (remapping h)) l' ∧
               potential_new_vertices (base l') = potential_new_vertices (base l))
               never).
      * split_and!; [done | done | by apply block_ok_reindex | done].
      * intros m l' h' Hm (Hs' & Hd' & Hl' & Hp').
        destruct (converged_vertices l !! input_idx) as [ms|] eqn:Hms;
          [|by apply elem_of_nil in Hm].
        eapply wp_mono; [eapply converge_returns; [|done|done] | | done].
        -- by rewrite Hd'.
        -- simpl. intros l'' h'' (Hd'' & Hs'' & ->).
           split_and!; [congruence | congruence | by apply block_ok_reindex | done].
    + simpl. intros l3 h3 (Hs3 & Hd3 & Hl3 & Hp3).
      apply wp_bind, wp_modify, wp_bind, wp_modify, wp_ret. simpl.
      rewrite Hs3, Hs2, Hd3. split_and!; [by apply ready_committed | done | done].
  - intros e h' [Hfail _]. rewrite Hupd in Hfail. discriminate.
Qed.

(** The voxblox overload returns when the spatial index keeps its promises
    and every block holds whole triangles. *)
Lemma compressAndIntegrateBlocks_returns (mesh : list MeshBlock) (stamp : Z)
    (h : Heap (gmap BlockIndex (gmap nat nat))) :
  ready (store h) → whole_triangles mesh →
  wp (compressAndIntegrateBlocks mesh stamp) (λ _ h', ready (store h')) never h.
Proof.
  intros Hr Hmesh. unfold compressAndIntegrateBlocks.
  apply wp_bind, wp_gets, wp_bind.
  destruct temp_indexes_build as (t & Ht & Htemp). rewrite Ht. apply wp_call.
  apply wp_bind.
  eapply wp_mono; [| | done].
  { apply (wp_foldM_inv (λ l' h', ready (store h') ∧
             length (all_vertices (store h')) = length (all_vertices (store h)) ∧
             block_ok (length (all_vertices (store h))) (dom (remapping h')) l')
             never).
    - split_and!; [done | done |]. split; simpl; try done.
      intros c Hc. lia.
    - intros mb l' h' Hmb (Hr' & HN' & Hl').
      unfold whole_triangles in Hmesh. rewrite Forall_forall in Hmesh.
      by apply block_step_returns; [| | |apply Hmesh]. }
  simpl. intros l1 h1 (Hr1 & HN1 & Hl1). apply wp_bind.
  eapply wp_mono; [| | done].
  { apply (wp_foldM_inv (λ l' h', ready (store h') ∧
             block_ok (length (all_vertices (store h))) (dom (remapping h')) l' ∧
             potential_new_vertices (base l') = potential_new_vertices (base l1))
             never); [done|].
    intros i l' h' Hi (Hr' & Hl' & Hp'). apply elem_of_seq in Hi.
    eapply wp_mono; [apply commit_block_returns; [done | done | rewrite Hp'; lia] | | done].
    simpl. intros l'' h'' (Hr'' & Hl'' & Hp''). split_and!; [done | done | congruence]. }
  simpl. intros l2 h2 (Hr2 & _).
  eapply wp_mono; [apply integrate_loop_surfaced | | done].
  simpl. intros _ h3 Hs. by eapply surfaced_ready.
Qed.

End total_blocks.

Section returns.
Context `{B : Backend} `{L : !Lawful}.

Lemma indexed_touched R stamp (h h' : Heap R) :
  touched stamp h h' → indexed (store h) → indexed (store h').
Proof.
  intros Ht. unfold indexed.
  by rewrite (touched_structure _ _ _ Ht), (touched_xyz _ _ _ Ht).
Qed.

Lemma indexed_committed p stamp t (s : Store) :
  updateStructure (structure s) (active_vertices_xyz s ++ [xyz p]) = Ret t →
  indexed s → indexed (committed p stamp t s).
Proof.
  intros Hupd Hi. destruct (indexes_update _ _ (xyz p) Hi) as (t' & Hupd' & Ht').
  rewrite Hupd in Hupd'. by simplify_eq.
Qed.

Lemma pruneStoredMesh_indexed earliest (s s' : Store) log :
  indexed s → pruneStoredMesh earliest s = (log, Ret s') → indexed s'.
Proof.
  intros Hi. unfold pruneStoredMesh.
  destruct (length (active_vertices_xyz s) =? 0); [by intros [= _ <-]|].
  destruct (keep_slots _ _ _ _) as [acc|]; [|done].
  destruct (length (temp_active_vertices acc) <? length (active_vertices_xyz s)).
  - destruct (indexes_build (temp_active_vertices acc)) as (t & -> & Ht).
    by intros [= _ <-].
  - by intros [= _ <-].
Qed.

(** With a lawful spatial index, every reachable store is one on which
    calls return. *)
Lemma reachable_ready (s : Store) : reachable s → ready s.
Proof.
  intros Hreach. destruct (reachable_invariant s Hreach) as [Hc (Hb & _)].
  split_and!; [done | done |]. clear Hc Hb.
  induction Hreach as [|V S stamp h h' _ Hi Hrun
                       |mesh stamp h h' _ Hi Hrun
                       |earliest s log s' _ Hi Hrun].
  - apply indexes_empty.
  - refine (wp_normal _ _ _ _ _ _
              (compressAndIntegrate_kept indexed _ _ _ V S stamp h) Hrun Hi).
    + apply indexed_touched.
    + apply indexed_committed.
    + by intros R t h0.
  - refine (wp_normal _ _ _ _ _ _
              (compressAndIntegrateBlocks_kept indexed _ _ _ mesh stamp h) Hrun Hi).
    + apply indexed_touched.
    + apply indexed_committed.
    + by intros R t h0.
  - by eapply pruneStoredMesh_indexed.
Qed.

(** With a spatial index that keeps its promises, every call on a reachable
    store returns: the flat overload when the surfaces name input vertices,
    the voxblox overload when every block holds whole triangles, and
    [pruneStoredMesh] always. *)
Theorem calls_on_reachable_stores_return (s : Store) :
  reachable s →
  (∀ V S stamp (h : Heap (gmap nat nat)),
     store h = s → surfaces_in_range V S →
     ∃ h', compressAndIntegrate V S stamp h = Normal () h') ∧
  (∀ mesh stamp (h : Heap (gmap BlockIndex (gmap nat nat))),
     store h = s → whole_triangles mesh →
     ∃ h', compressAndIntegrateBlocks mesh stamp h = Normal () h') ∧
  (∀ earliest, ∃ log s', pruneStoredMesh earliest s = (log, Ret s')).
Proof.
  intros Hr%reachable_ready. split_and!.
  - intros V S stamp h <- HS.
    destruct (wp_returns _ _ _ (compressAndIntegrate_returns V S stamp h Hr HS))
      as ([] & h' & Hrun & _).
    by exists h'.
  - intros mesh stamp h <- Hmesh.
    destruct (wp_returns _ _ _
                (compressAndIntegrateBlocks_returns mesh stamp h Hr Hmesh))
      as ([] & h' & Hrun & _).
    by exists h'.
  - intros earliest. destruct Hr as (Hc & _).
    destruct (pruneStoredMesh_spec earliest s Hc) as (log & s' & Hrun & _).
    by exists log, s'.
Qed.

End returns.

(** ** The grid keeps its promises *)

Section grid_lawful.
Context (res : Z).

Lemma grid_update_indexes (g : gmap (Z * Z * Z) nat) (cloud : list (Z * Z * Z))
    (p : Z * Z * Z) :
  grid_indexes g cloud →
  ∃ g', grid_update res None g (cloud ++ [p]) = Ret g' ∧
        grid_indexes g' (cloud ++ [p]).
Proof.
  intros Hg. unfold grid_update. rewrite last_snoc. eexists. split; [done|].
  intros c r. unfold insert_new. rewrite length_app. simpl.
  destruct (g !! cell res p) eqn:Hcell.
  - intros Hr%Hg. lia.
  - intros [[_ <-]|[_ Hr%Hg]]%lookup_insert_Some; lia.
Qed.

Lemma grid_fill_indexes (g : gmap (Z * Z * Z) nat) (done todo : list (Z * Z * Z)) :
  grid_indexes g done →
  ∃ g', grid_fill res None g done todo = Ret g' ∧ grid_indexes g' (done ++ todo).
Proof.
  revert g done. induction todo as [|p todo IH]; intros g done Hg; simpl.
  - exists g. by rewrite app_nil_r.
  - destruct (grid_update_indexes g done p Hg) as (g' & -> & Hg').
    destruct (IH g' (done ++ [p]) Hg') as (g'' & Hfill & Hg'').
    exists g''. split; [done|]. by rewrite <- app_assoc in Hg''.
Qed.

Lemma grid_build_indexes (cloud : list (Z * Z * Z)) :
  ∃ g, grid_build res None cloud = Ret g ∧ grid_indexes g cloud.
Proof. by apply (grid_fill_indexes ∅ [] cloud). Qed.

Lemma grid_query_indexes (g : gmap (Z * Z * Z) nat) (cloud : list (Z * Z * Z))
    (p : Z * Z * Z) :
  grid_indexes g cloud →
  ∃ hit, grid_query res None g p = Ret hit ∧ ∀ r, hit = Some r → r < length cloud.
Proof. intros Hg. eexists. split; [done|]. intros r. apply Hg. Qed.

#[global] Instance grid_lawful : Lawful (B:=grid_backend res None) :=
  @Build_Lawful (grid_backend res None) grid_indexes grid_indexes
    ltac:(done) grid_build_indexes grid_query_indexes grid_update_indexes
    (grid_build_indexes []) grid_query_indexes grid_update_indexes.

End grid_lawful.

(** ** The older compressor *)

Section octree_facts.
Context `{O : OctreeCompression.Octree}.
Import OctreeCompression.

(** [OctreeCompression]: the first pass ends with no exception. As long as
    no [try] block reads past the end of [temp_active_vertices_index], the
    pass visits every vertex, each in the state the vertex before left,
    also after a block that threw; it logs one line for each block that
    threw and no other. A pass that does not return has read past the
    end. *)
Theorem octree_first_pass_catches A (t : Temps) log input :
  (Forall (λ r, past_the_end r = false) (attempts A t input) →
   first_pass A t log input =
     (log ++ replicate (length (filter (λ r, caught r = true) (attempts A t input)))
                       FailedToInsert,
      Ret (temps_after A t input))) ∧
  (∀ log' e, first_pass A t log input = (log', Fail e) →
     e = OutOfBounds ∧ Exists (λ r, past_the_end r = true) (attempts A t input)).
Proof.
  revert t log. induction input as [|[i p] input IH]; intros t log.
  - split; [|done]. intros _. simpl. by rewrite app_nil_r.
  - cbn [first_pass attempts temps_after foldl fst snd].
    destruct (IH (insert_vertex A t i p).1 log) as [IHret IHfail].
    destruct (IH (insert_vertex A t i p).1 (log ++ [FailedToInsert]))
      as [IHret' IHfail'].
    destruct (insert_vertex A t i p) as [t' r]. cbn [fst snd] in *.
    fold (temps_after A t' input).
    split.
    + intros [Hr Hrest]%Forall_cons.
      destruct r as [[]|[]]; try done.
      * rewrite filter_cons_False by done. by apply IHret.
      * rewrite filter_cons_True by done. rewrite IHret' by done.
        by rewrite <- app_assoc.
      * rewrite filter_cons_True by done. rewrite IHret' by done.
        by rewrite <- app_assoc.
      * rewrite filter_cons_True by done. rewrite IHret' by done.
        by rewrite <- app_assoc.
    + intros log' e. destruct r as [[]|[]].
      * intros Hrun. destruct (IHfail log' e Hrun). split; [done|]. by right.
      * intros Hrun. destruct (IHfail' log' e Hrun). split; [done|]. by right.
      * intros Hrun. destruct (IHfail' log' e Hrun). split; [done|]. by right.
      * intros [= _ <-]. split; [done|]. by left.
      * intros Hrun. destruct (IHfail' log' e Hrun). split; [done|]. by right.
Qed.

Lemma first_pass_broken n (t : Temps) log (input : list (nat * PointT)) :
  (∀ tree, getBoundingBox tree = Fail BackendFailure) →
  first_pass n t log input = (log ++ replicate (length input) FailedToInsert, Ret t).
Proof.
  intros Hbroken. revert log. induction input as [|[i p] input IH]; intros log; simpl.
  - by rewrite app_nil_r.
  - unfold insert_vertex. rewrite Hbroken. rewrite IH. by rewrite <- app_assoc.
Qed.

(** [OctreeCompression]: with an octree that throws on every call, a batch
    is not refused: the call returns, the compressor and the caller's
    buffers are as before, and one error is logged per input vertex. *)
Theorem broken_octree_is_not_surfaced (m : Members) (out : Outputs)
    (V : list PointT) (S : list Surface) (stamp : Z) :
  (∀ tree, getBoundingBox tree = Fail BackendFailure) →
  3 ≤ length V → S ≠ [] →
  compressAndIntegrate m out V S stamp =
    {| members_after := m; outputs_after := out;
       logged := replicate (length V) FailedToInsert; ended := None |}.
Proof.
  intros Hbroken HV HS. unfold compressAndIntegrate.
  destruct (length V <? 3) eqn:HV'; [apply Nat.ltb_lt in HV'; lia|].
  destruct (length S =? 0) eqn:HS'.
  { apply Nat.eqb_eq in HS'. by destruct S. }
  simpl. rewrite first_pass_broken by done. simpl. by rewrite length_imap.
Qed.

End octree_facts.

(** * What the calls add and keep *)

Section appended.
Context `{B : Backend}.

#[local] Instance appended_refl {R} stamp : Reflexive (appended (R:=R) stamp).
Proof.
  intros h. split.
  - exists []. simpl. rewrite !app_nil_r. split_and!; auto.
  - exists []. by rewrite !app_nil_r.
Qed.

#[local] Instance appended_trans {R} stamp : Transitive (appended (R:=R) stamp).
Proof.
  intros h1 h2 h3 [(a1 & Hv1 & Hn1 & Hx1 & Hi1 & Hl1 & Ht1) (t1 & Hp1 & Hq1 & Hd1)]
    [(a2 & Hv2 & Hn2 & Hx2 & Hi2 & Hl2 & Ht2) (t2 & Hp2 & Hq2 & Hd2)].
  split.
  - exists (a1 ++ a2). split_and!.
    + by rewrite Hv2, Hv1, app_assoc.
    + by rewrite Hn2, Hn1, app_assoc.
    + by rewrite Hx2, Hx1, fmap_app, app_assoc.
    + rewrite Hi2, Hi1, Hv1, !length_app, seq_app, <- app_assoc. done.
    + rewrite Hl2, Hl1, length_app. lia.
    + intros i t Hi. destruct (Ht2 i t Hi) as [|Hi']; [by left | by apply Ht1].
  - exists (t1 ++ t2). split_and!.
    + by rewrite Hp2, Hp1, app_assoc.
    + by rewrite Hq2, Hq1, app_assoc.
    + by apply Forall_app.
Qed.

Lemma touched_appended {R} stamp (h h' : Heap R) :
  touched stamp h h' → appended stamp h h'.
Proof.
  intros Ht. split.
  - exists []. simpl. rewrite !app_nil_r.
    split_and!; try by destruct Ht.
    rewrite (touched_times_length _ _ _ Ht). lia.
  - exists []. rewrite !app_nil_r. split_and!; [by destruct Ht.. | done].
Qed.

(** A change of the remapping or of [new_indices]. *)
Lemma bookkeeping_appended {R} stamp (h h' : Heap R) :
  store h' = store h → new_vertices h' = new_vertices h →
  new_triangles h' = new_triangles h → appended stamp h h'.
Proof.
  intros Hs Hv Ht. split.
  - exists []. rewrite Hs, Hv. simpl. rewrite !app_nil_r. split_and!; auto.
  - exists []. by rewrite Hs, Ht, !app_nil_r.
Qed.

Lemma surface_added_appended {R} stamp t (h : Heap R) :
  degenerate t = false → appended stamp h (surface_added t h).
Proof.
  intros Hd. split.
  - exists []. simpl. rewrite !app_nil_r. split_and!; auto.
  - exists [t]. simpl. split_and!; [done | done | by constructor].
Qed.

(** A vertex committed and reported in [new_vertices]. *)
Lemma committed_appended {R} stamp p t (h h' : Heap R) :
  store h' = committed p stamp t (store h) →
  new_vertices h' = new_vertices h ++ [p] →
  new_triangles h' = new_triangles h →
  appended stamp h h'.
Proof.
  intros Hs Hv Ht. split.
  - exists [p]. rewrite Hs, Hv. simpl. split_and!; try done.
    + rewrite length_app. simpl. lia.
    + intros i t' Hi. apply lookup_app_Some in Hi as [Hi|[_ Hi]]; [by right|].
      apply list_lookup_singleton_Some in Hi as [_ <-]. by left.
  - exists []. by rewrite Hs, Ht, !app_nil_r.
Qed.

Lemma reobserve_appended {R} r stamp :
  keeps (appended (R:=R) stamp) anywhere (reobserve r stamp).
Proof.
  intros h. eapply wp_mono; [apply reobserve_spec | | done]. simpl.
  intros _ h' [_ Ht]. by apply touched_appended.
Qed.

Lemma check_surface_appended {R} stamp N c t :
  keeps (appended (R:=R) stamp) anywhere (check_surface N c t).
Proof. unfold check_surface, mark. repeat keeps_step. Qed.

Lemma integrate_surface_appended {R} stamp N reindex u s :
  keeps (appended (R:=R) stamp) anywhere (integrate_surface N reindex u s).
Proof.
  intros h. unfold integrate_surface. wp_run; try reflexivity.
  eapply wp_mono; [apply add_surface_spec | | done]. simpl.
  intros _ h' ->. by apply surface_added_appended.
Qed.

Lemma commit_appended V stamp l i :
  keeps (appended stamp) anywhere (commit V stamp l i).
Proof.
  intros h. unfold commit. wp_run; try done; try reflexivity.
  eapply wp_mono; [apply commit_vertex_spec | | done]. simpl.
  intros w h' (-> & t & _ & ->). wp_run; [|done].
  by eapply committed_appended.
Qed.

Ltac keeps_appended :=
  repeat keeps_step;
  try (apply keeps_modify; intros ?; by apply bookkeeping_appended);
  try apply reobserve_appended; try apply check_surface_appended;
  try apply integrate_surface_appended; try apply commit_appended.

Lemma compressAndIntegrate_appended V S stamp :
  keeps (appended stamp) anywhere (compressAndIntegrate V S stamp).
Proof. unfold compressAndIntegrate, classify, prefilter. keeps_appended. Qed.

Lemma remapped_appended {R} stamp (h h' : Heap R) :
  remapped h h' → appended stamp h h'.
Proof. intros (Hs & Hv & _ & Ht). by apply bookkeeping_appended. Qed.

Lemma commit_block_appended (stamp : Z) (l : BlockLocals) (i : nat) :
  keeps (appended stamp) anywhere (commit_block stamp l i).
Proof.
  intros h. unfold commit_block. wp_run; try done; try reflexivity.
  eapply wp_mono; [apply commit_vertex_spec | | done]. simpl.
  intros w h1 (-> & t & _ & ->). wp_run.
  eapply wp_mono; [apply remap_block_remapped | | done]. simpl.
  intros _ h2 (Hs2 & Hv2 & _ & Ht2). wp_run.
  eapply wp_mono; [apply converge_loop_remapped | | done]. simpl.
  intros l3 h3 (Hs3 & Hv3 & _ & Ht3). wp_run.
  eapply committed_appended; simpl.
  - by rewrite Hs3, Hs2.
  - by rewrite Hv3, Hv2.
  - by rewrite Ht3, Ht2.
Qed.

Lemma compressAndIntegrateBlocks_appended (mesh : list MeshBlock) (stamp : Z) :
  keeps (appended stamp) anywhere (compressAndIntegrateBlocks mesh stamp).
Proof.
  unfold compressAndIntegrateBlocks, block_step, block_vertex, classify_block,
    close_surface.
  keeps_appended. apply commit_block_appended.
Qed.

(** Both overloads, when they return: [all_vertices_] has only grown, by
    the vertices reported in [new_vertices]; each of them is an active slot
    with the next index and the stamp of the call; the last-seen time of an
    older slot is as before or the stamp. *)
Theorem returned_vertices_are_the_appended :
  (∀ V S stamp (h h' : Heap (gmap nat nat)),
     compressAndIntegrate V S stamp h = Normal () h' →
     vertices_appended stamp h h') ∧
  (∀ mesh stamp (h h' : Heap (gmap BlockIndex (gmap nat nat))),
     compressAndIntegrateBlocks mesh stamp h = Normal () h' →
     vertices_appended stamp h h').
Proof.
  split.
  - intros V S stamp h h' Hrun.
    exact (proj1 (wp_normal _ _ _ _ _ _ (compressAndIntegrate_appended V S stamp h) Hrun)).
  - intros mesh stamp h h' Hrun.
    exact (proj1 (wp_normal _ _ _ _ _ _
                    (compressAndIntegrateBlocks_appended mesh stamp h) Hrun)).
Qed.

(** Both overloads, when they return: [polygons_] has only grown, by the
    triangles reported in [new_triangles], and none of them is degenerate. *)
Theorem returned_triangles_are_the_appended :
  (∀ V S stamp (h h' : Heap (gmap nat nat)),
     compressAndIntegrate V S stamp h = Normal () h' →
     triangles_appended h h') ∧
  (∀ mesh stamp (h h' : Heap (gmap BlockIndex (gmap nat nat))),
     compressAndIntegrateBlocks mesh stamp h = Normal () h' →
     triangles_appended h h').
Proof.
  split.
  - intros V S stamp h h' Hrun.
    exact (proj2 (wp_normal _ _ _ _ _ _ (compressAndIntegrate_appended V S stamp h) Hrun)).
  - intros mesh stamp h h' Hrun.
    exact (proj2 (wp_normal _ _ _ _ _ _
                    (compressAndIntegrateBlocks_appended mesh stamp h) Hrun)).
Qed.

End appended.

Section adjacency.
Context `{B : Backend}.

Lemma fold_push_at_inv (k : nat) (t : Surface) (adj : gmap nat (list nat)) w x :
  x ∈ default [] (foldl (λ a v, push_at v k a) adj t !! w) →
  x ∈ default [] (adj !! w) ∨ (x = k ∧ w ∈ t).
Proof.
  revert adj. induction t as [|v t IH]; intros adj; simpl; [by left|].
  intros [Hx|[-> Hw]]%IH.
  - rewrite push_at_lookup in Hx. destruct (decide (v = w)) as [->|]; [|by left].
    apply elem_of_app in Hx as [Hx|Hx%list_elem_of_singleton]; [by left|].
    right. split; [done | by left].
  - right. split; [done | by right].
Qed.

Lemma adjacency_sound_surface {R} t (h : Heap R) :
  adjacency_sound (store h) → adjacency_sound (store (surface_added t h)).
Proof.
  intros Hs v j. simpl. intros [Hj|[-> Hv]]%fold_push_at_inv.
  - destruct (Hs v j Hj) as (t' & Ht' & Hv). exists t'. split; [|done].
    by apply lookup_app_l_Some.
  - exists t. split; [|done]. by rewrite list_lookup_middle.
Qed.

Lemma adjacency_sound_touched R stamp (h h' : Heap R) :
  touched stamp h h' → adjacency_sound (store h) → adjacency_sound (store h').
Proof.
  intros Ht. unfold adjacency_sound.
  by rewrite (touched_adjacent _ _ _ Ht), (touched_polygons _ _ _ Ht).
Qed.

Lemma adjacency_sound_pruned earliest (s s' : Store) log :
  pruned earliest s log s' → adjacency_sound s → adjacency_sound s'.
Proof.
  intros (_ & Hp & _ & _ & Hadj & _) Hs v j. rewrite Hadj, Hp.
  destruct (decide (v ∈ active_vertices_index s')); simpl.
  - apply Hs.
  - destruct (decide _); [apply Hs|]. simpl. by intros ?%elem_of_nil.
Qed.

Lemma reachable_adjacency_sound (s : Store) : reachable s → adjacency_sound s.
Proof.
  intros Hreach.
  induction Hreach as [|V S stamp h h' Hr Hi Hrun
                       |mesh stamp h h' Hr Hi Hrun
                       |earliest s log s' Hr Hi Hrun].
  - intros v j. simpl. rewrite lookup_empty. simpl. by intros ?%elem_of_nil.
  - refine (wp_normal _ _ _ _ _ _
              (compressAndIntegrate_kept adjacency_sound _ _ _ V S stamp h) Hrun Hi).
    + apply adjacency_sound_touched.
    + by intros p st t s _.
    + intros R t h0. apply adjacency_sound_surface.
  - refine (wp_normal _ _ _ _ _ _
              (compressAndIntegrateBlocks_kept adjacency_sound _ _ _ mesh stamp h)
              Hrun Hi).
    + apply adjacency_sound_touched.
    + by intros p st t s _.
    + intros R t h0. apply adjacency_sound_surface.
  - destruct (reachable_invariant s Hr) as [Hc _].
    destruct (pruneStoredMesh_spec earliest s Hc) as (log0 & s0 & Hrun0 & Hpr).
    rewrite Hrun in Hrun0. simplify_eq. by eapply adjacency_sound_pruned.
Qed.

(** In every reachable store the adjacency map is exact for the active
    vertices: the list of an active vertex names a stored polygon if and
    only if that polygon contains the vertex; and no list, of any vertex,
    names anything but a stored polygon that contains it. *)
Theorem reachable_adjacency_is_exact (s : Store) :
  reachable s →
  adjacency_sound s ∧
  ∀ v j, v ∈ active_vertices_index s →
    j ∈ default [] (adjacent_polygons s !! v) ↔
    ∃ t, polygons s !! j = Some t ∧ v ∈ t.
Proof.
  intros Hreach. pose proof (reachable_adjacency_sound s Hreach) as Hs.
  destruct (reachable_invariant s Hreach) as [_ (_ & _ & Hcomplete)].
  split; [done|]. intros v j Hv. split; [apply Hs|].
  intros (t & Ht & Hvt). by eapply Hcomplete.
Qed.

End adjacency.

Section seen.
Context `{B : Backend}.

#[local] Instance held_refl {R} (P : Heap R → Prop) : Reflexive (held P).
Proof. intros h HP. exact HP. Qed.

#[local] Instance held_trans {R} (P : Heap R → Prop) : Transitive (held P).
Proof. intros h1 h2 h3 H12 H23 HP. by apply H23, H12. Qed.

(** A change of the remapping, [new_vertices] or [new_triangles]. *)
Lemma seen_inv_bookkeeping {R} stamp (h h' : Heap R) :
  store h' = store h → new_indices h' = new_indices h →
  held (seen_inv stamp) h h'.
Proof. intros Hs Hn. unfold held, seen_inv, reported_seen. by rewrite Hs, Hn. Qed.

Lemma reobserve_seen {R} r stamp :
  keeps (held (seen_inv (R:=R) stamp)) anywhere (reobserve r stamp).
Proof.
  intros h. unfold reobserve, touch. wp_run; try done.
  intros [Hlen Hseen]. split; simpl; [by rewrite length_insert|].
  intros v Hv.
  assert (v = n ∨ v ∈ new_indices h) as [->|Hold].
  { unfold push_if_absent in Hv. simpl in Hv.
    destruct (bool_decide (n ∈ new_indices h)); [by right|].
    apply elem_of_app in Hv as [?|?%list_elem_of_singleton]; auto. }
  - exists r. simpl. split; [done|]. by apply list_lookup_insert_eq.
  - destruct (Hseen v Hold) as (r' & Hi & Ht). exists r'. simpl. split; [done|].
    destruct (decide (r' = r)) as [->|Hne].
    + apply list_lookup_insert_eq. by eapply lookup_lt_Some.
    + by rewrite list_lookup_insert_ne.
Qed.

(** A vertex committed and reported in [new_indices]. *)
Lemma seen_inv_committed {R} stamp p t (h h' : Heap R) :
  store h' = committed p stamp t (store h) →
  new_indices h' = new_indices h ++ [length (all_vertices (store h))] →
  held (seen_inv stamp) h h'.
Proof.
  intros Hs Hn [Hlen Hseen]. unfold seen_inv, reported_seen. rewrite Hs, Hn. simpl.
  split; [rewrite !length_app; simpl; lia|].
  intros v [Hv|Hv%list_elem_of_singleton]%elem_of_app.
  - destruct (Hseen v Hv) as (r & Hi & Ht). exists r.
    split; by apply lookup_app_l_Some.
  - subst v. exists (length (active_vertices_index (store h))). split.
    + by rewrite list_lookup_middle.
    + rewrite Hlen. by rewrite list_lookup_middle.
Qed.

Lemma check_surface_seen {R} stamp N c t :
  keeps (held (seen_inv (R:=R) stamp)) anywhere (check_surface N c t).
Proof. unfold check_surface, mark. repeat keeps_step. Qed.

Lemma integrate_surface_seen {R} stamp N reindex u s :
  keeps (held (seen_inv (R:=R) stamp)) anywhere (integrate_surface N reindex u s).
Proof.
  intros h. eapply wp_mono; [apply integrate_surface_surfaced | | done]. simpl.
  intros _ h' Hs. unfold held, seen_inv, reported_seen.
  by rewrite (surfaced_index _ _ Hs), (surfaced_times _ _ Hs),
    (surfaced_new_indices _ _ Hs).
Qed.

Lemma commit_seen V stamp l i :
  keeps (held (seen_inv stamp)) anywhere (commit V stamp l i).
Proof.
  intros h. unfold commit. wp_run; try done; try reflexivity.
  eapply wp_mono; [apply commit_vertex_spec | | done]. simpl.
  intros w h' (-> & t & _ & ->). wp_run; [|done].
  by eapply seen_inv_committed.
Qed.

Lemma commit_block_seen (stamp : Z) (l : BlockLocals) (i : nat) :
  keeps (held (seen_inv stamp)) anywhere (commit_block stamp l i).
Proof.
  intros h. unfold commit_block. wp_run; try done; try reflexivity.
  eapply wp_mono; [apply commit_vertex_spec | | done]. simpl.
  intros w h1 (-> & t & _ & ->). wp_run.
  eapply wp_mono; [apply remap_block_remapped | | done]. simpl.
  intros _ h2 (Hs2 & _ & Hn2 & _). wp_run.
  eapply wp_mono; [apply converge_loop_remapped | | done]. simpl.
  intros l3 h3 (Hs3 & _ & Hn3 & _). wp_run.
  eapply seen_inv_committed; simpl.
  - by rewrite Hs3, Hs2.
  - by rewrite Hn3, Hn2.
Qed.

Ltac keeps_seen :=
  repeat keeps_step;
  try (apply keeps_modify; intros ?; by apply seen_inv_bookkeeping);
  try apply reobserve_seen; try apply check_surface_seen;
  try apply integrate_surface_seen; try apply commit_seen;
  try apply commit_block_seen.

Lemma compressAndIntegrate_seen V S stamp :
  keeps (held (seen_inv stamp)) anywhere (compressAndIntegrate V S stamp).
Proof. unfold compressAndIntegrate, classify, prefilter. keeps_seen. Qed.

Lemma compressAndIntegrateBlocks_seen (mesh : list MeshBlock) (stamp : Z) :
  keeps (held (seen_inv stamp)) anywhere (compressAndIntegrateBlocks mesh stamp).
Proof.
  unfold compressAndIntegrateBlocks, block_step, block_vertex, classify_block,
    close_surface.
  keeps_seen.
Qed.

(** Both overloads, called with an empty [new_indices] on a store whose
    index and time vectors are parallel: when the call returns, every index
    it reports in [new_indices] belongs to an active slot whose last-seen
    time is the stamp of the call, so [pruneStoredMesh] with a cutoff before
    the stamp keeps it. *)
Theorem reported_indices_are_seen (s : Store) :
  length (active_vertices_index s) = length (vertices_latest_time s) →
  (∀ V S stamp (h h' : Heap (gmap nat nat)),
     store h = s → new_indices h = [] →
     compressAndIntegrate V S stamp h = Normal () h' →
     reported_seen stamp h') ∧
  (∀ mesh stamp (h h' : Heap (gmap BlockIndex (gmap nat nat))),
     store h = s → new_indices h = [] →
     compressAndIntegrateBlocks mesh stamp h = Normal () h' →
     reported_seen stamp h').
Proof.
  intros Hlen.
  assert (∀ R stamp (h : Heap R), store h = s → new_indices h = [] → seen_inv stamp h)
    as Hstart.
  { intros R stamp h Hs Hn. split; [by rewrite Hs|].
    intros v. rewrite Hn. by intros ?%elem_of_nil. }
  split.
  - intros V S stamp h h' Hs Hn Hrun.
    exact (proj2 (wp_normal _ _ _ _ _ _ (compressAndIntegrate_seen V S stamp h) Hrun
                    (Hstart _ stamp h Hs Hn))).
  - intros mesh stamp h h' Hs Hn Hrun.
    exact (proj2 (wp_normal _ _ _ _ _ _
                    (compressAndIntegrateBlocks_seen mesh stamp h) Hrun
                    (Hstart _ stamp h Hs Hn))).
Qed.

End seen.

Section remap_range.
Context `{B : Backend}.

Lemma in_range_map_insert_new n M (r : gmap nat nat) m v :
  in_range_map n M r → m < n → v < M → in_range_map n M (insert_new m v r).
Proof.
  intros Hr Hm Hv m' v'. unfold insert_new.
  destruct (r !! m) eqn:Hlook; [apply Hr|].
  intros [[<- <-]|[_ Hold]]%lookup_insert_Some; [done | by eapply Hr].
Qed.

Lemma in_range_map_insert n M (r : gmap nat nat) m v :
  in_range_map n M r → m < n → v < M → in_range_map n M (<[m:=v]> r).
Proof.
  intros Hr Hm Hv m' v'.
  intros [[<- <-]|[_ Hold]]%lookup_insert_Some; [done | by eapply Hr].
Qed.

Lemma in_range_map_mono n M M' (r : gmap nat nat) :
  in_range_map n M r → M ≤ M' → in_range_map n M' r.
Proof. intros Hr HM m v Hm. destruct (Hr m v Hm). lia. Qed.

Lemma fan_out_in_range n M input_idx v tri (temp : list nat) (r : gmap nat nat) :
  in_range_map n M r → length temp ≤ n → v < M →
  in_range_map n M (fan_out input_idx v tri temp r).
Proof.
  intros Hr Hlen Hv. unfold fan_out.
  assert (Forall (λ mt : nat * nat, mt.1 < n) (imap pair temp)) as Hkeys.
  { apply Forall_forall. intros [m tm] Hin.
    apply list_elem_of_lookup_1 in Hin as [j Hj].
    rewrite list_lookup_imap in Hj.
    destruct (temp !! j) eqn:Htj; simplify_eq/=.
    apply lookup_lt_Some in Htj. lia. }
  revert r Hr. induction Hkeys as [|[m tm] l Hm _ IH]; intros r Hr; simpl; [done|].
  apply IH. destruct (negb (input_idx =? m) && (tri =? tm)); [|done].
  by apply in_range_map_insert_new.
Qed.

(** The first loop: the keys of [reindex] and the candidates are inputs
    already seen, the values of [reindex] are stored indices, and
    [temp_reindex] has one entry per input. *)
Lemma classify_loop_range {R} stamp N (V : list Vertex) l0 (h : Heap R) :
  index_bounded (store h) → N = length (all_vertices (store h)) →
  reindex l0 = ∅ → potential_new_vertices l0 = [] → temp_reindex l0 = [] →
  wp (foldM (classify stamp N) (imap pair V) l0)
     (λ l h', touched stamp h h' ∧ in_range_map (length V) N (reindex l) ∧
              Forall (λ i, i < length V) (potential_new_vertices l) ∧
              length (temp_reindex l) = length V)
     (λ _ _, True) h.
Proof.
  intros Hb HN Hr0 Hp0 Ht0.
  eapply wp_mono; [| |done].
  - apply (wp_foldM (λ pre l h', touched stamp h h' ∧
             in_range_map (length pre) N (reindex l) ∧
             Forall (λ i, i < length pre) (potential_new_vertices l) ∧
             length (temp_reindex l) = length pre) (λ _ _, True)).
    + split; [apply touched_refl|]. rewrite Hr0, Hp0, Ht0. by split_and!.
    + intros pre [i p] post l h1 Hsplit (Ht & Hre & Hpn & Hlen).
      apply imap_pair_split in Hsplit as [Hi _]. simpl in Hi. subst i.
      assert (∀ r : gmap nat nat, in_range_map (length pre) N r →
                in_range_map (length (pre ++ [(length pre, p)])) N r) as Hgrow.
      { intros r Hr m v Hm. destruct (Hr m v Hm). rewrite length_app. simpl. lia. }
      assert (∀ l' : list nat, Forall (λ i, i < length pre) l' →
                Forall (λ i, i < length (pre ++ [(length pre, p)])) l') as Hgrow'.
      { intros l' Hl'. eapply Forall_impl; [done|]. simpl. intros x Hx.
        rewrite length_app. simpl. lia. }
      unfold classify. wp_run; try done.
      * eapply wp_mono; [apply reobserve_spec | | done]. simpl.
        intros id h2 [Hid Ht2]. wp_run. split_and!; simpl.
        -- by eapply touched_trans.
        -- apply in_range_map_insert; [by apply Hgrow | rewrite length_app; simpl; lia |].
           rewrite (touched_index _ _ _ Ht) in Hid. subst N.
           by eapply (Forall_lookup_1 _ _ _ _ Hb).
        -- by apply Hgrow'.
        -- rewrite !length_app. simpl. lia.
      * split_and!; simpl; [done | by apply Hgrow | by apply Hgrow' |].
        rewrite !length_app. simpl. lia.
      * split_and!; simpl; [done | by apply Hgrow | |].
        -- apply Forall_app. split; [by apply Hgrow'|]. constructor; [|done].
           rewrite length_app. simpl. lia.
        -- rewrite !length_app. simpl. lia.
  - simpl. intros l h' (Ht & Hre & Hpn & Hlen). by rewrite length_imap in *.
Qed.

Lemma commit_range V stamp l i (h : Heap (gmap nat nat)) :
  Forall (λ i, i < length V) (potential_new_vertices l) →
  length (temp_reindex l) = length V →
  in_range_map (length V) (length (all_vertices (store h))) (remapping h) →
  wp (commit V stamp l i)
     (λ l' h', potential_new_vertices l' = potential_new_vertices l ∧
               temp_reindex l' = temp_reindex l ∧
               in_range_map (length V) (length (all_vertices (store h')))
                 (remapping h'))
     (λ _ _, True) h.
Proof.
  intros Hpn Hlen Hr. unfold commit. wp_run; try done.
  eapply wp_mono; [apply commit_vertex_spec | | done]. simpl.
  intros w h1 (-> & t & _ & ->). wp_run; [|done]. simpl.
  split_and!; [done | done |]. rewrite length_app. simpl.
  apply fan_out_in_range; [|lia|lia].
  apply in_range_map_insert_new; [|by eapply (Forall_lookup_1 _ _ _ _ Hpn)|lia].
  eapply in_range_map_mono; [done | lia].
Qed.

(** The flat overload, when it has work to do and returns: whatever the
    remapping buffer held before, every entry it holds now sends the index
    of an input vertex to an index into [all_vertices_]. *)
Theorem flat_remapping_is_in_range (V : list Vertex) (S : list Surface) (stamp : Z)
    (h h' : Heap (gmap nat nat)) :
  index_bounded (store h) → 3 ≤ length V → S ≠ [] →
  compressAndIntegrate V S stamp h = Normal () h' →
  ∀ m v, remapping h' !! m = Some v →
    m < length V ∧ v < length (all_vertices (store h')).
Proof.
  intros Hb HV HS Hrun.
  cut (wp (compressAndIntegrate V S stamp)
          (λ _ h', in_range_map (length V) (length (all_vertices (store h')))
                     (remapping h')) (λ _ _, True) h).
  { intros Hwp. exact (wp_normal _ _ _ _ _ _ Hwp Hrun). }
  unfold compressAndIntegrate.
  destruct (length V <? 3) eqn:HV'; [apply Nat.ltb_lt in HV'; lia|].
  destruct (length S =? 0) eqn:HS'.
  { apply Nat.eqb_eq in HS'. by destruct S. }
  simpl. wp_run; [|done].
  eapply wp_mono; [by apply classify_loop_range | | done]. simpl.
  intros l1 h1 (Ht & Hre & Hpn & Hlen). wp_run.
  eapply wp_mono; [apply prefilter_loop_spec | | done]. simpl.
  intros l2 h2 (-> & Hre2 & Ht2 & Hp2 & _). wp_run.
  eapply wp_mono; [| | done].
  { apply (wp_foldM_inv (λ l' h',
             potential_new_vertices l' = potential_new_vertices l1 ∧
             temp_reindex l' = temp_reindex l1 ∧
             in_range_map (length V) (length (all_vertices (store h')))
               (remapping h')) (λ _ _, True)).
    - split_and!; [done | done |]. simpl. rewrite Hre2.
      by rewrite (touched_all _ _ _ Ht).
    - intros i l' k _ (Hp' & Ht' & Hr').
      eapply wp_mono; [apply commit_range; [by rewrite Hp' | by rewrite Ht' | done] | | done].
      simpl. intros l'' k' (Hp'' & Ht'' & Hr''). split_and!; [congruence.. | done]. }
  simpl. intros l3 h3 (_ & _ & Hr3). wp_run.
  eapply wp_mono; [apply integrate_loop_surfaced | | done]. simpl.
  intros _ h4 Hs. by rewrite (surfaced_remapping _ _ Hs), (surfaced_all _ _ Hs).
Qed.

End remap_range.

Section prune_again.
Context `{B : Backend}.

Lemma filter_idemp {A} (P : A → Prop) `{∀ x, Decision (P x)} (l : list A) :
  filter P (filter P l) = filter P l.
Proof.
  induction l as [|x l IH]; [done|]. rewrite (filter_cons P x l).
  destruct (decide (P x)); [|done]. rewrite filter_cons_True by done. by rewrite IH.
Qed.

Lemma set_adjacent_same (s : Store) : set_adjacent (λ _, adjacent_polygons s) s = s.
Proof. by destruct s. Qed.

Lemma pruned_again earliest (s s' s'' : Store) log log' :
  pruned earliest s log s' → pruned earliest s' log' s'' → log' = [] ∧ s'' = s'.
Proof.
  intros (_ & _ & Hslots & Hc & Hadj & _) (_ & _ & Hslots' & _ & Hadj' & Hsame).
  assert (surviving earliest s' = slots_of s') as Hkeep.
  { unfold surviving at 1. rewrite Hslots. apply filter_idemp. }
  destruct Hsame as [-> Hs'']; [by rewrite Hkeep|]. split; [done|].
  assert (adjacent_polygons s'' = adjacent_polygons s') as Heq.
  { apply map_eq. intros v. rewrite Hadj'.
    assert (active_vertices_index s'' = active_vertices_index s') as ->
      by by rewrite Hs''.
    destruct (decide (v ∈ active_vertices_index s')) as [Hv|Hv].
    - rewrite (Hadj v). by rewrite decide_True.
    - rewrite decide_True; [done | by rewrite Hkeep]. }
  rewrite Hs'', Heq. apply set_adjacent_same.
Qed.

(** [pruneStoredMesh] twice with the same cutoff: on a store whose parallel
    vectors agree in length, both calls return, and the second one drops
    nothing, logs nothing and leaves the store exactly as the first call
    left it. *)
Theorem pruning_again_changes_nothing earliest (s : Store) :
  consistent s →
  ∃ log s', pruneStoredMesh earliest s = (log, Ret s') ∧
            pruneStoredMesh earliest s' = ([], Ret s').
Proof.
  intros Hc.
  destruct (pruneStoredMesh_spec earliest s Hc) as (log & s' & Hrun & Hpr).
  exists log, s'. split; [done|].
  destruct (pruneStoredMesh_spec earliest s' (proj1 (proj2 (proj2 (proj2 Hpr)))))
    as (log' & s'' & Hrun' & Hpr').
  by destruct (pruned_again _ _ _ _ _ _ Hpr Hpr') as [-> ->].
Qed.

Lemma filter_all {A} (P : A → Prop) `{∀ x, Decision (P x)} (l : list A) :
  Forall P l → filter P l = l.
Proof.
  induction 1 as [|x l Hx _ IH]; [done|]. by rewrite filter_cons_True, IH.
Qed.

(** [pruneStoredMesh] with nothing to drop: on a store whose parallel
    vectors agree in length, whose slots were all seen after the cutoff and
    whose active vertices all have an entry in [adjacent_polygons_], the
    call logs nothing and leaves the store exactly as it was. *)
Theorem prune_without_drop_is_noop earliest (s : Store) :
  consistent s →
  Forall (λ t, earliest < t)%Z (vertices_latest_time s) →
  (∀ v, v ∈ active_vertices_index s → is_Some (adjacent_polygons s !! v)) →
  pruneStoredMesh earliest s = ([], Ret s).
Proof.
  intros Hc Hseen Hentries.
  destruct (pruneStoredMesh_spec earliest s Hc)
    as (log & s' & -> & _ & _ & Hslots & _ & Hadj & Hsame).
  assert (surviving earliest s = slots_of s) as Hkeep.
  { unfold surviving. apply filter_all, Forall_forall. intros [[p t] v] Hrow.
    apply list_elem_of_lookup_1 in Hrow as [i Hi].
    apply slots_of_lookup in Hi as (_ & Ht & _). simpl.
    exact (Forall_lookup_1 _ _ _ _ Hseen Ht). }
  destruct Hsame as [-> Hs']; [by rewrite Hkeep|].
  assert (active_vertices_index s' = active_vertices_index s) as Hidx
    by by rewrite Hs'.
  assert (adjacent_polygons s' = adjacent_polygons s) as Heq.
  { apply map_eq. intros v. rewrite Hadj, Hidx, Hkeep.
    destruct (decide (v ∈ active_vertices_index s)) as [Hv|Hv].
    - destruct (Hentries v Hv) as [js ->]. done.
    - by rewrite decide_True. }
  by rewrite Hs', Heq, set_adjacent_same.
Qed.

End prune_again.

(** ** Pruning in the older compressor *)

Section octree_prune_facts.
Context `{O : OctreeCompression.Octree} `{F : !OctreeCompression.OctreeFromCloud}.
Import OctreeCompression.

Lemma octree_keep_slots_app earliest (m : Members) acc l1 l2 :
  keep_slots earliest m acc (l1 ++ l2) =
  match keep_slots earliest m acc l1 with
  | Ret acc' => keep_slots earliest m acc' l2
  | Fail e => Fail e
  end.
Proof.
  revert acc. induction l1 as [|i l1 IH]; intros acc; simpl; [done|].
  destruct (keep_slot earliest m acc i); [apply IH | done].
Qed.

Lemma octree_keep_slot_fails earliest (m : Members) acc i e :
  keep_slot earliest m acc i = Fail e → e = OutOfBounds.
Proof.
  unfold keep_slot. repeat case_match; naive_solver.
Qed.

Lemma octree_keep_slots_fails earliest (m : Members) acc slots e :
  keep_slots earliest m acc slots = Fail e → e = OutOfBounds.
Proof.
  revert acc. induction slots as [|i slots IH]; intros acc; simpl; [done|].
  destruct (keep_slot earliest m acc i) eqn:Hstep; [apply IH|].
  intros [= <-]. by eapply octree_keep_slot_fails.
Qed.

Lemma octree_keep_slot_length earliest (m : Members) acc acc' i t :
  vertices_latest_time m !! i = Some t →
  keep_slot earliest m acc i = Ret acc' →
  length (kept_vertices_index acc') =
    length (kept_vertices_index acc) + length (filter (λ t : Z, (earliest < t)%Z) [t]).
Proof.
  intros Ht. unfold keep_slot. rewrite Ht.
  rewrite filter_cons, filter_nil.
  case_bool_decide as Hseen.
  - rewrite decide_True by done. repeat case_match; try done.
    intros [= <-]. simpl. by rewrite length_app.
  - rewrite decide_False by done. intros [= <-]. simpl. lia.
Qed.

(** The slots kept so far are as many as the times seen after the cutoff. *)
Lemma octree_keep_slots_length earliest (m : Members) acc0 n acc :
  n ≤ length (vertices_latest_time m) →
  keep_slots earliest m acc0 (seq 0 n) = Ret acc →
  length (kept_vertices_index acc) =
    length (kept_vertices_index acc0) +
    length (filter (λ t : Z, (earliest < t)%Z) (take n (vertices_latest_time m))).
Proof.
  revert acc. induction n as [|n IH]; intros acc Hn.
  - simpl. intros [= <-]. lia.
  - rewrite seq_S, octree_keep_slots_app. simpl.
    destruct (keep_slots earliest m acc0 (seq 0 n)) as [acc1|] eqn:Hrun; [|done].
    destruct (keep_slot earliest m acc1 n) as [acc2|] eqn:Hstep; [|done].
    intros [= <-].
    destruct (lookup_lt_is_Some_2 (vertices_latest_time m) n) as [t Ht]; [lia|].
    rewrite (take_S_r _ _ _ Ht), filter_app, length_app.
    rewrite (octree_keep_slot_length _ _ _ _ _ _ Ht Hstep), (IH acc1); [lia | lia | done].
Qed.

Lemma filter_length_lt {A} (P : A → Prop) `{∀ x, Decision (P x)} (l : list A) j x :
  l !! j = Some x → ¬ P x → length (filter P l) < length l.
Proof.
  revert j. induction l as [|y l IH]; intros j; [done|].
  rewrite filter_cons. destruct j as [|j]; simpl.
  - intros [= ->] Hx. rewrite decide_False by done.
    pose proof (length_filter P l). lia.
  - intros Hj Hx. specialize (IH j Hj Hx). destruct (decide (P y)); simpl; lia.
Qed.

(** [OctreeCompression::pruneStoredMesh]: as soon as a slot to keep comes
    after a slot to drop, the loop reads [temp_vertices_index[i]] past the
    end of the vector of kept slots. *)
Theorem octree_prune_reads_past_kept earliest (m : Members) i j ti tj :
  j < i →
  vertices_latest_time m !! j = Some tj → (tj ≤ earliest)%Z →
  vertices_latest_time m !! i = Some ti → (earliest < ti)%Z →
  active_vertices m ≠ [] →
  (pruneStoredMesh earliest m).2 = Fail OutOfBounds.
Proof.
  intros Hji Hj Htj Hi Hti Hactive. unfold pruneStoredMesh.
  pose proof (lookup_lt_Some _ _ _ Hi) as Hin.
  destruct (length (active_vertices m) =? 0) eqn:Hempty.
  { apply Nat.eqb_eq in Hempty. by destruct (active_vertices m). }
  set (acc0 := {| kept_active_vertices := []; kept_vertices_time := [];
                  kept_vertices_index := []; kept_adjacent_polygons := ∅;
                  member_adjacent_polygons := adjacent_polygons m |}).
  assert (∃ e, keep_slots earliest m acc0 (seq 0 (length (vertices_latest_time m)))
               = Fail e) as [e He].
  { replace (length (vertices_latest_time m))
      with (i + S (length (vertices_latest_time m) - S i)) by lia.
    rewrite seq_app, octree_keep_slots_app. simpl.
    destruct (keep_slots earliest m acc0 (seq 0 i)) as [acc|e] eqn:Hrun; [|by eexists].
    apply octree_keep_slots_length in Hrun; [|lia]. simpl in Hrun.
    assert (length (filter (λ t : Z, (earliest < t)%Z) (take i (vertices_latest_time m))) < i)
      as Hfew.
    { pose proof (filter_length_lt (λ t : Z, (earliest < t)%Z)
                    (take i (vertices_latest_time m)) j tj) as Hlt.
      rewrite length_take, lookup_take_lt in Hlt by done.
      specialize (Hlt Hj ltac:(simpl; lia)). simpl in Hlt. lia. }
    unfold keep_slot at 1. rewrite Hi. rewrite bool_decide_true by done.
    destruct (active_vertices m !! i); [|by eexists].
    destruct (active_vertices_index m !! i); [|by eexists].
    rewrite lookup_ge_None_2; [by eexists|].
    rewrite length_app. simpl. lia. }
  rewrite He. simpl. f_equal. by eapply octree_keep_slots_fails.
Qed.

Lemma take_min_length {A} (l : list A) n k :
  length l = n → take (n `min` k) l = take k l.
Proof.
  intros Hlen. destruct (decide (k ≤ n)).
  - by rewrite Nat.min_r.
  - rewrite Nat.min_l by lia. by rewrite !take_ge by lia.
Qed.

(** While the slots to keep come first, the loop copies them in order. *)
Lemma octree_keep_slots_prefix earliest (m : Members) k n :
  length (active_vertices m) = length (vertices_latest_time m) →
  length (active_vertices_index m) = length (vertices_latest_time m) →
  (∀ i t, vertices_latest_time m !! i = Some t → (earliest < t)%Z ↔ i < k) →
  n ≤ length (vertices_latest_time m) →
  ∃ acc, keep_slots earliest m
           {| kept_active_vertices := []; kept_vertices_time := [];
              kept_vertices_index := []; kept_adjacent_polygons := ∅;
              member_adjacent_polygons := adjacent_polygons m |} (seq 0 n) = Ret acc ∧
         kept_active_vertices acc = take (n `min` k) (active_vertices m) ∧
         kept_vertices_time acc = take (n `min` k) (vertices_latest_time m) ∧
         kept_vertices_index acc = take (n `min` k) (active_vertices_index m).
Proof.
  intros Hla Hli Hk. induction n as [|n IH]; intros Hn.
  - eexists. split; [done|]. by rewrite !take_0.
  - destruct IH as (acc & Hrun & Ha & Ht & Hi); [lia|].
    destruct (lookup_lt_is_Some_2 (vertices_latest_time m) n) as [t Htime]; [lia|].
    destruct (lookup_lt_is_Some_2 (active_vertices m) n) as [p Hp]; [lia|].
    destruct (lookup_lt_is_Some_2 (active_vertices_index m) n) as [v Hv]; [lia|].
    rewrite seq_S, octree_keep_slots_app, Hrun. cbn [keep_slots Nat.add].
    unfold keep_slot. rewrite Htime. specialize (Hk n t Htime).
    destruct (decide (n < k)) as [Hlt|Hge].
    + rewrite bool_decide_true by by apply Hk.
      rewrite Hp, Hv. rewrite Nat.min_l in Ha, Ht, Hi by lia.
      assert ((kept_vertices_index acc ++ [v]) !! n = Some v) as ->.
      { rewrite Hi. rewrite lookup_app_r; rewrite length_take; [|lia].
        by replace (n - n `min` length (active_vertices_index m)) with 0 by lia. }
      eexists. split; [done|].
      cbn [kept_active_vertices kept_vertices_time kept_vertices_index].
      rewrite Nat.min_l by lia.
      by rewrite Ha, Ht, Hi, (take_S_r _ _ _ Hp), (take_S_r _ _ _ Htime),
        (take_S_r _ _ _ Hv).
    + rewrite bool_decide_false by (intros ?%Hk; lia).
      exists acc. split; [done|].
      replace (S n `min` k) with (n `min` k) by lia. done.
Qed.

(** [OctreeCompression::pruneStoredMesh]: when the slots seen after the
    cutoff are exactly the first [k] (the parallel vectors agreeing in
    length), the call returns and the active slots are those [k], in order;
    [all_vertices_] and [polygons_] are as before. *)
Theorem octree_prune_keeps_prefix earliest (m : Members) k :
  length (active_vertices m) = length (vertices_latest_time m) →
  length (active_vertices_index m) = length (vertices_latest_time m) →
  (∀ i t, vertices_latest_time m !! i = Some t → (earliest < t)%Z ↔ i < k) →
  ∃ log m', pruneStoredMesh earliest m = (log, Ret m') ∧
    active_vertices m' = take k (active_vertices m) ∧
    vertices_latest_time m' = take k (vertices_latest_time m) ∧
    active_vertices_index m' = take k (active_vertices_index m) ∧
    all_vertices m' = all_vertices m ∧ polygons m' = polygons m.
Proof.
  intros Hla Hli Hk. unfold pruneStoredMesh.
  destruct (length (active_vertices m) =? 0) eqn:Hempty.
  { apply Nat.eqb_eq in Hempty. exists [], m. split; [done|].
    rewrite !take_ge by lia. done. }
  destruct (octree_keep_slots_prefix earliest m k (length (vertices_latest_time m))
              Hla Hli Hk ltac:(lia)) as (acc & -> & Ha & Ht & Hi).
  rewrite take_min_length in Ha by done. rewrite take_min_length in Ht by done.
  rewrite take_min_length in Hi by done.
  destruct (length (kept_active_vertices acc) <? length (active_vertices m)) eqn:Hdrop.
  - destruct (addPointsFromInputCloud (kept_active_vertices acc));
      eexists _, _; (split; [done|]); by simpl.
  - apply Nat.ltb_ge in Hdrop. rewrite Ha, length_take in Hdrop.
    eexists _, _. split; [done|]. simpl. by rewrite !take_ge by lia.
Qed.

End octree_prune_facts.

(** * How calls compose *)

Section survive.
Context `{B : Backend}.

Lemma reported_seen_pruned {R} stamp earliest (h : Heap R) :
  consistent (store h) → reported_seen stamp h → (earliest < stamp)%Z →
  ∃ log s', pruneStoredMesh earliest (store h) = (log, Ret s') ∧
            ∀ v, v ∈ new_indices h → v ∈ active_vertices_index s'.
Proof.
  intros Hc Hseen Hlt.
  destruct (pruneStoredMesh_spec earliest (store h) Hc) as (log & s' & Hrun & Hpr).
  exists log, s'. split; [done|]. intros v Hv.
  destruct Hpr as (_ & _ & Hslots & Hc' & _).
  destruct (Hseen v Hv) as (r & Hi & Ht).
  destruct (lookup_lt_is_Some_2 (active_vertices_xyz (store h)) r) as [p Hp].
  { destruct Hc as [_ <-]. by eapply lookup_lt_Some. }
  assert ((p, stamp, v) ∈ slots_of s') as Hrow.
  { rewrite Hslots. apply list_elem_of_filter. split; [done|].
    eapply list_elem_of_lookup_2. by apply slots_of_lookup. }
  rewrite <- (slots_of_index s' Hc').
  apply list_elem_of_fmap. by exists (p, stamp, v).
Qed.

(** A call that returns, and then [pruneStoredMesh] with a cutoff before
    the stamp of the call (the parallel vectors agreeing in length at the
    start): the pruning returns, and every index the call reported in
    [new_indices] is still active after it. *)
Theorem reported_indices_survive_pruning (s : Store) :
  consistent s →
  (∀ V S stamp earliest (h h' : Heap (gmap nat nat)),
     store h = s → new_indices h = [] →
     compressAndIntegrate V S stamp h = Normal () h' →
     (earliest < stamp)%Z →
     ∃ log s', pruneStoredMesh earliest (store h') = (log, Ret s') ∧
               ∀ v, v ∈ new_indices h' → v ∈ active_vertices_index s') ∧
  (∀ mesh stamp earliest (h h' : Heap (gmap BlockIndex (gmap nat nat))),
     store h = s → new_indices h = [] →
     compressAndIntegrateBlocks mesh stamp h = Normal () h' →
     (earliest < stamp)%Z →
     ∃ log s', pruneStoredMesh earliest (store h') = (log, Ret s') ∧
               ∀ v, v ∈ new_indices h' → v ∈ active_vertices_index s').
Proof.
  intros Hc.
  assert (∀ R stamp (h : Heap R), store h = s → new_indices h = [] → seen_inv stamp h)
    as Hstart.
  { intros R stamp h Hs Hn. split; [rewrite Hs; destruct Hc; congruence|].
    intros v. rewrite Hn. by intros ?%elem_of_nil. }
  split.
  - intros V S stamp earliest h h' Hs Hn Hrun Hlt.
    apply (reported_seen_pruned stamp); [ | | done].
    + refine (wp_normal _ _ _ _ _ _
                (compressAndIntegrate_kept consistent _ _ _ V S stamp h) Hrun _).
      * apply consistent_touched.
      * intros p st t s0 _. apply consistent_committed.
      * by intros R t h0.
      * by rewrite Hs.
    + exact (proj2 (wp_normal _ _ _ _ _ _ (compressAndIntegrate_seen V S stamp h) Hrun
                      (Hstart _ stamp h Hs Hn))).
  - intros mesh stamp earliest h h' Hs Hn Hrun Hlt.
    apply (reported_seen_pruned stamp); [ | | done].
    + refine (wp_normal _ _ _ _ _ _
                (compressAndIntegrateBlocks_kept consistent _ _ _ mesh stamp h) Hrun _).
      * apply consistent_touched.
      * intros p st t s0 _. apply consistent_committed.
      * by intros R t h0.
      * by rewrite Hs.
    + exact (proj2 (wp_normal _ _ _ _ _ _
                      (compressAndIntegrateBlocks_seen mesh stamp h) Hrun
                      (Hstart _ stamp h Hs Hn))).
Qed.

End survive.

Section block_remapping.
Context `{B : Backend}.

#[local] Instance remapping_grown_refl : Reflexive remapping_grown.
Proof. intros h b inner Hb. by exists inner. Qed.

#[local] Instance remapping_grown_trans : Transitive remapping_grown.
Proof.
  intros h1 h2 h3 H12 H23 b inner Hb.
  destruct (H12 b inner Hb) as (inner2 & Hb2 & Hsub2).
  destruct (H23 b inner2 Hb2) as (inner3 & Hb3 & Hsub3).
  exists inner3. split; [done | by etrans].
Qed.

Lemma same_remapping_grown (h h' : Heap (gmap BlockIndex (gmap nat nat))) :
  remapping h' = remapping h → remapping_grown h h'.
Proof. intros Hr b inner Hb. exists inner. by rewrite Hr. Qed.

Lemma reobserve_remapping_grown r stamp :
  keeps remapping_grown anywhere (reobserve r stamp).
Proof.
  intros h. eapply wp_mono; [apply reobserve_spec | | done]. simpl.
  intros _ h' [_ Ht]. apply same_remapping_grown. by destruct Ht.
Qed.

Lemma commit_vertex_remapping_grown p stamp :
  keeps remapping_grown anywhere (commit_vertex p stamp).
Proof.
  intros h. eapply wp_mono; [apply commit_vertex_spec | | done]. simpl.
  intros _ h' (_ & t & _ & ->). by apply same_remapping_grown.
Qed.

Lemma add_surface_remapping_grown t :
  keeps remapping_grown anywhere (add_surface t).
Proof.
  intros h. eapply wp_mono; [apply add_surface_spec | | done]. simpl.
  intros _ h' ->. by apply same_remapping_grown.
Qed.

Lemma remap_block_remapping_grown (ctb : gmap nat (BlockIndex * nat)) (idx v : nat) :
  keeps remapping_grown anywhere (remap_block ctb idx v).
Proof.
  intros h. unfold remap_block.
  destruct (ctb !! idx) as [[b k]|]; [|by apply wp_throw].
  apply wp_bind, wp_gets.
  destruct (remapping h !! b) as [inner|] eqn:Hb; [|by apply wp_throw].
  apply wp_modify. intros b' inner' Hb'. simpl.
  destruct (decide (b = b')) as [<-|Hne].
  - rewrite lookup_insert_eq. eexists. split; [done|].
    simplify_eq. apply insert_new_subseteq.
  - rewrite lookup_insert_ne by done. by exists inner'.
Qed.

Lemma new_block_remapping_grown (bi : BlockIndex) :
  keeps remapping_grown anywhere (modify (with_remapping (insert_new bi ∅))).
Proof.
  apply keeps_modify. intros h b inner Hb. exists inner. split; [|done]. simpl.
  by apply (lookup_weaken _ _ _ _ Hb), insert_new_subseteq.
Qed.

Ltac keeps_grown :=
  repeat keeps_step;
  try apply new_block_remapping_grown;
  try (apply keeps_modify; intros ?; by apply same_remapping_grown);
  try apply reobserve_remapping_grown; try apply commit_vertex_remapping_grown;
  try apply add_surface_remapping_grown; try apply remap_block_remapping_grown.

Lemma compressAndIntegrateBlocks_remapping_grown (mesh : list MeshBlock) (stamp : Z) :
  keeps remapping_grown anywhere (compressAndIntegrateBlocks mesh stamp).
Proof.
  unfold compressAndIntegrateBlocks, block_step, block_vertex, classify_block,
    close_surface, commit_block, converge, integrate_surface, check_surface, mark.
  keeps_grown.
Qed.

Lemma compressAndIntegrateBlocks_keys (mesh : list MeshBlock) (stamp : Z)
    (h : Heap (gmap BlockIndex (gmap nat nat))) :
  wp (compressAndIntegrateBlocks mesh stamp)
     (λ _ h', dom (remapping h') =
              dom (remapping h) ∪ list_to_set (block_index <$> mesh))
     (λ _ _, True) h.
Proof.
  unfold compressAndIntegrateBlocks. wp_run; [|done].
  eapply wp_mono; [| | done].
  - apply (wp_foldM (λ pre _ h', dom (remapping h') =
             dom (remapping h) ∪ list_to_set (block_index <$> pre)) (λ _ _, True)).
    + rewrite fmap_nil, list_to_set_nil. by rewrite (right_id_L ∅ (∪)).
    + intros pre b post l h1 _ HI.
      eapply wp_mono; [apply block_step_keys | | done]. simpl.
      intros l' h2 Hd. rewrite Hd, HI, fmap_app, list_to_set_app_L.
      rewrite fmap_cons, fmap_nil, list_to_set_cons, list_to_set_nil.
      rewrite (right_id_L ∅ (∪)). rewrite (comm_L (∪) {[block_index b]}).
      by rewrite (assoc_L (∪)).
  - simpl. intros l1 h1 HI. wp_run.
    eapply wp_mono; [| | done].
    + apply (wp_foldM_inv (λ _ h', dom (remapping h') = dom (remapping h1))
               (λ _ _, True)); [done|].
      intros i l' h2 _ Hd.
      eapply wp_mono; [apply commit_block_keys | | done]. simpl.
      intros _ h3 Hd'. congruence.
    + simpl. intros l2 h2 Hd. wp_run.
      eapply wp_mono; [apply integrate_loop_surfaced | | done]. simpl.
      intros _ h3 Hs. by rewrite (surfaced_remapping _ _ Hs), Hd.
Qed.

(** The voxblox overload, when it returns, has only added to the remapping
    it was given: the block keys are the old ones and the block indices of
    the input, and every block that was there still has the entries it
    had. *)
Theorem block_remapping_only_grows (mesh : list MeshBlock) (stamp : Z)
    (h h' : Heap (gmap BlockIndex (gmap nat nat))) :
  compressAndIntegrateBlocks mesh stamp h = Normal () h' →
  dom (remapping h') = dom (remapping h) ∪ list_to_set (block_index <$> mesh) ∧
  ∀ b inner, remapping h !! b = Some inner →
    ∃ inner', remapping h' !! b = Some inner' ∧ inner ⊆ inner'.
Proof.
  intros Hrun. split.
  - exact (wp_normal _ _ _ _ _ _ (compressAndIntegrateBlocks_keys mesh stamp h) Hrun).
  - exact (wp_normal _ _ _ _ _ _
             (compressAndIntegrateBlocks_remapping_grown mesh stamp h) Hrun).
Qed.

End block_remapping.

(** * What the older compressor adds *)

Section octree_growth.
Context `{O : OctreeCompression.Octree}.
Import OctreeCompression.

Lemma commit_index_appended N (t : Temps) have stamp (m : Members) (out : Outputs)
    (s s' : Second) idx added :
  octree_appended m out (members s) (outputs s) added [] →
  commit_index N t have stamp s idx = (s', Ret ()) →
  ∃ added', octree_appended m out (members s') (outputs s') added' [].
Proof.
  intros (Ha & Hn & Hx & Hi & Hp & Hq). unfold commit_index.
  destruct (have !! idx) as [[]|]; [| intros [= <-]; by exists added | done].
  destruct (N <=? idx).
  - destruct (temp_all_vertices t !! idx) as [p|]; [|done]. simpl.
    destruct (addPointFromCloud _ _ _) as [tree|]; [|done].
    intros [= <-]. exists (added ++ [p]). unfold octree_appended. cbn -[seq length].
    rewrite Ha, Hn, Hx, Hi, Hp, Hq. rewrite (length_app added), seq_app.
    rewrite !length_app. cbn [length seq]. rewrite <- !app_assoc.
    split_and!; try done. do 3 f_equal. lia.
  - simpl. case_bool_decide; [|done]. intros [= <-]. exists added. simpl.
    by rewrite Ha, Hn, Hx, Hi, Hp, Hq.
Qed.

Lemma second_pass_appended N (t : Temps) have stamp (m : Members) (out : Outputs)
    (s s' : Second) indices added :
  octree_appended m out (members s) (outputs s) added [] →
  second_pass N t have stamp s indices = (s', Ret ()) →
  ∃ added', octree_appended m out (members s') (outputs s') added' [].
Proof.
  revert s added. induction indices as [|idx indices IH]; intros s added Hs; simpl.
  - intros [= <-]. by exists added.
  - destruct (commit_index N t have stamp s idx) as [s1 [[]|e]] eqn:Hstep; [|done].
    destruct (commit_index_appended _ _ _ _ _ _ _ _ _ _ Hs Hstep) as (added1 & Hs1).
    by apply (IH s1 added1).
Qed.

Lemma add_triangles_appended (m : Members) (out : Outputs) (s : Second) added ts tris :
  octree_appended m out (members s) (outputs s) added ts →
  ∃ ts', octree_appended m out (members (foldl add_triangle s tris))
           (outputs (foldl add_triangle s tris)) added ts'.
Proof.
  revert s ts. induction tris as [|t tris IH]; intros s ts Hs; simpl; [by exists ts|].
  eapply (IH _ (ts ++ [remap_polygon (second_remapping s) t])).
  destruct Hs as (Ha & Hn & Hx & Hi & Hp & Hq). unfold octree_appended. simpl.
  rewrite Ha, Hn, Hx, Hi, Hp, Hq, <- !app_assoc. done.
Qed.

(** [OctreeCompression::compressAndIntegrate], when it returns: the vertex
    and polygon vectors have only grown, by what was pushed to
    [new_vertices] and [new_triangles]; every new vertex is an active slot
    with the next index into [all_vertices_]. *)
Theorem octree_returns_what_it_appended (m : Members) (out : Outputs)
    (V : list PointT) (S : list Surface) (stamp : Z) :
  ended (compressAndIntegrate m out V S stamp) = None →
  ∃ added ts,
    octree_appended m out
      (members_after (compressAndIntegrate m out V S stamp))
      (outputs_after (compressAndIntegrate m out V S stamp)) added ts.
Proof.
  assert (octree_appended m out m out [] []) as Hrefl.
  { unfold octree_appended. by rewrite !app_nil_r. }
  unfold compressAndIntegrate.
  destruct ((length V <? 3) || (length S =? 0)); [by exists [], []|].
  destruct (first_pass _ _ _ _) as [log [t|e]]; [|done].
  destruct (length (temp_new_indices t) <? 3); [by exists [], []|].
  destruct (length _ =? 0); [by exists [], []|].
  destruct (second_pass _ _ _ _ _ _) as [s [[]|e]] eqn:Hsecond; [|done].
  intros _. simpl.
  destruct (second_pass_appended _ _ _ _ m out
              {| members := m; outputs := out; second_remapping := ∅ |}
              _ _ [] Hrefl Hsecond) as (added & Hs).
  destruct (length (new_indices (outputs s)) =? 0); [by exists added, []|].
  match goal with
  | |- context [foldl add_triangle s ?tris] =>
      destruct (add_triangles_appended m out s added [] tris Hs) as (ts & Hts)
  end.
  by exists added, ts.
Qed.

End octree_growth.

Section octree_range.
Context `{O : OctreeCompression.Octree}.
Import OctreeCompression.

Lemma insert_vertex_tracked A (t t' : Temps) i p r :
  tracked A t → insert_vertex A t i p = (t', r) → tracked A t'.
Proof.
  intros [Hr Hk]. unfold insert_vertex.
  destruct (getBoundingBox _); [|by intros [= <- <-]].
  destruct (if inside _ _ then _ else _) as [occupied|]; [|by intros [= <- <-]].
  destruct (negb _ || negb _).
  - destruct (addPointFromCloud _ _ _) as [tree|]; intros [= <- <-]; [|done].
    split; simpl.
    + intros j v. destruct (decide (j = i)) as [->|].
      * rewrite lookup_insert_eq. intros [= <-]. apply elem_of_app. right. by left.
      * rewrite lookup_insert_ne by done. intros ?%Hr. apply elem_of_app. by left.
    + intros k v Hle [Hv|[_ Hv]]%lookup_app_Some.
      * apply elem_of_app. left. by apply (Hk k).
      * apply list_lookup_singleton_Some in Hv as [_ <-].
        apply elem_of_app. right. by left.
  - destruct (approxNearestSearch _ _ _) as [result_idx|]; [|by intros [= <- <-]].
    destruct (temp_active_vertices_index t !! result_idx) as [id|] eqn:Hid;
      intros [= <- <-]; [|done].
    assert (id ∈ (if (result_idx <? A) && negb (bool_decide (id ∈ temp_new_indices t))
                  then temp_new_indices t ++ [id] else temp_new_indices t)) as Hin.
    { destruct (result_idx <? A) eqn:Hlt; simpl.
      - case_bool_decide; simpl; [done|]. apply elem_of_app. right. by left.
      - apply Nat.ltb_ge in Hlt. by apply (Hk result_idx). }
    assert (∀ v, v ∈ temp_new_indices t →
              v ∈ (if (result_idx <? A) && negb (bool_decide (id ∈ temp_new_indices t))
                   then temp_new_indices t ++ [id] else temp_new_indices t)) as Hold.
    { intros v Hv. destruct (_ && _); [|done]. apply elem_of_app. by left. }
    split; simpl.
    + intros j v. destruct (decide (j = i)) as [->|].
      * rewrite lookup_insert_eq. by intros [= <-].
      * rewrite lookup_insert_ne by done. intros ?%Hr. by apply Hold.
    + intros k v Hle Hv. by apply Hold, (Hk k).
Qed.

Lemma first_pass_tracked A (t t' : Temps) log log' input :
  tracked A t → first_pass A t log input = (log', Ret t') → tracked A t'.
Proof.
  revert t log. induction input as [|[i p] input IH]; intros t log Ht; simpl.
  - by intros [= _ <-].
  - destruct (insert_vertex A t i p) as [t1 r] eqn:Hstep.
    apply insert_vertex_tracked in Hstep; [|done].
    destruct r as [[]|[]]; try done; by apply IH.
Qed.

Lemma copy_members_tracked (m : Members) :
  length (active_vertices_index m) ≤ length (active_vertices m) →
  tracked (length (active_vertices m)) (copy_members m).
Proof.
  intros Hle. split; simpl; [done|].
  intros k v Hk Hv%lookup_lt_Some. lia.
Qed.

Lemma flags_set (have : gmap nat bool) (poly : Surface) v :
  v ∈ poly ∨ have !! v = Some true →
  foldl (λ have v, <[v := true]> have) have poly !! v = Some true.
Proof.
  revert have. induction poly as [|x poly IH]; intros have; simpl.
  - intros [?%elem_of_nil|?]; done.
  - intros Hv. apply IH. destruct (decide (v = x)) as [->|Hne].
    + right. by rewrite lookup_insert_eq.
    + rewrite lookup_insert_ne by done.
      destruct Hv as [[?|?]%elem_of_cons|?]; [done|by left|by right].
Qed.

Lemma degenerate_nonzero (tri : Surface) :
  degenerate tri = false → ∃ v, v ∈ tri ∧ v ≠ 0.
Proof.
  destruct tri as [|a [|b [|c tri]]]; try done. simpl.
  intros [[Hab _]%orb_false_elim _]%orb_false_elim. apply Nat.eqb_neq in Hab.
  destruct (decide (a = 0)) as [->|]; [exists b|exists a]; split; try done.
  - right. by left.
  - by left.
Qed.

Lemma check_polygon_flagged N (m : Members) remap new acc polygon :
  (∀ i v, remap !! i = Some v → v ∈ new) →
  flagged new acc → flagged new (check_polygon N m remap acc polygon).
Proof.
  intros Hremap Hacc. unfold check_polygon.
  destruct (degenerate _) eqn:Hdeg; [done|].
  destruct (_ || _); [|done].
  intros tri. simpl. intros [Htri|Htri%list_elem_of_singleton]%elem_of_app.
  2: subst tri.
  - destruct (Hacc tri Htri) as (v & ? & ? & ?). exists v. split_and!; try done.
    apply flags_set. by right.
  - destruct (degenerate_nonzero _ Hdeg) as (v & Hv & Hne). exists v.
    split_and!; [done| |apply flags_set; by left].
    apply list_elem_of_fmap in Hv as (idx & -> & _).
    destruct (remap !! idx) as [w|] eqn:Hw; [by apply (Hremap idx)|done].
Qed.

Lemma check_polygons_flagged N (m : Members) remap new acc S :
  (∀ i v, remap !! i = Some v → v ∈ new) →
  flagged new acc → flagged new (foldl (check_polygon N m remap) acc S).
Proof.
  intros Hremap. revert acc. induction S as [|polygon S IH]; intros acc Hacc; [done|].
  simpl. by apply IH, check_polygon_flagged.
Qed.

Lemma commit_index_stored N (t : Temps) have stamp (out : Outputs) (s s' : Second)
    idx idxs :
  N ≤ length (all_vertices (members s)) →
  stored_indices out s idxs →
  commit_index N t have stamp s idx = (s', Ret ()) →
  N ≤ length (all_vertices (members s')) ∧
  (∃ idxs', stored_indices out s' idxs') ∧
  (∀ k, is_Some (second_remapping s !! k) → is_Some (second_remapping s' !! k)) ∧
  (have !! idx = Some true → is_Some (second_remapping s' !! idx)).
Proof.
  intros HN Hs. pose proof Hs as (Ht & Hi & Hv & Hr). unfold commit_index.
  destruct (have !! idx) as [[]|]; [| |done].
  2: { intros [= <-]. split_and!; [done|by exists idxs|done|done]. }
  destruct (N <=? idx) eqn:Hidx.
  - destruct (temp_all_vertices t !! idx) as [p|]; [|done]. simpl.
    destruct (addPointFromCloud _ _ _) as [tree|]; [|done].
    assert (length (all_vertices (members s) ++ [p]) - 1 =
            length (all_vertices (members s))) as Hlast.
    { rewrite length_app. simpl. lia. }
    assert (length (all_vertices (members s)) <
            length (all_vertices (members s) ++ [p])) as Hgrown.
    { rewrite length_app. simpl. lia. }
    intros [= <-]. split_and!.
    + simpl. lia.
    + exists (idxs ++ [length (all_vertices (members s))]). split_and!; simpl.
      * done.
      * by rewrite Hlast, Hi, <- app_assoc.
      * intros v [?%Hv|Heq%list_elem_of_singleton]%elem_of_app; lia.
      * rewrite Hlast. intros k v. destruct (decide (k = idx)) as [->|].
        -- rewrite lookup_insert_eq. intros [= <-]. lia.
        -- rewrite lookup_insert_ne by done. intros ?%Hr. lia.
    + simpl. intros k Hk. destruct (decide (k = idx)) as [->|].
      * by rewrite lookup_insert_eq.
      * by rewrite lookup_insert_ne.
    + simpl. intros _. by rewrite lookup_insert_eq.
  - apply Nat.leb_gt in Hidx. simpl. case_bool_decide; [|done].
    intros [= <-]. simpl. split_and!.
    + done.
    + exists (idxs ++ [idx]). split_and!; simpl.
      * done.
      * by rewrite Hi, <- app_assoc.
      * intros v [?%Hv|Heq%list_elem_of_singleton]%elem_of_app; lia.
      * intros k v. destruct (decide (k = idx)) as [->|].
        -- rewrite lookup_insert_eq. intros [= <-]. lia.
        -- rewrite lookup_insert_ne by done. apply Hr.
    + intros k Hk. destruct (decide (k = idx)) as [->|].
      * by rewrite lookup_insert_eq.
      * by rewrite lookup_insert_ne.
    + intros _. by rewrite lookup_insert_eq.
Qed.

Lemma second_pass_stored N (t : Temps) have stamp (out : Outputs) (s s' : Second)
    indices idxs :
  N ≤ length (all_vertices (members s)) →
  stored_indices out s idxs →
  second_pass N t have stamp s indices = (s', Ret ()) →
  (∃ idxs', stored_indices out s' idxs') ∧
  (∀ k, is_Some (second_remapping s !! k) → is_Some (second_remapping s' !! k)) ∧
  (∀ idx, idx ∈ indices → have !! idx = Some true →
          is_Some (second_remapping s' !! idx)).
Proof.
  revert s idxs. induction indices as [|idx indices IH]; intros s idxs HN Hs; simpl.
  - intros [= <-]. split_and!; eauto. by intros ? ?%elem_of_nil.
  - destruct (commit_index N t have stamp s idx) as [s1 [[]|e]] eqn:Hstep; [|done].
    destruct (commit_index_stored _ _ _ _ _ _ _ _ _ HN Hs Hstep)
      as (HN1 & [idxs1 Hs1] & Hmono & Hidx).
    intros Hrest. destruct (IH s1 idxs1 HN1 Hs1 Hrest) as (Hs' & Hmono' & Hall).
    split_and!; [done|by eauto|].
    intros k [->|Hk]%elem_of_cons Hflag; [by apply Hmono', Hidx|by apply Hall].
Qed.

Lemma add_triangles_spec (s : Second) tris :
  all_vertices (members (foldl add_triangle s tris)) = all_vertices (members s) ∧
  new_indices (outputs (foldl add_triangle s tris)) = new_indices (outputs s) ∧
  new_triangles (outputs (foldl add_triangle s tris)) =
    new_triangles (outputs s) ++ (remap_polygon (second_remapping s) <$> tris).
Proof.
  revert s. induction tris as [|tri tris IH]; intros s; simpl.
  - by rewrite app_nil_r.
  - destruct (IH (add_triangle s tri)) as (-> & -> & ->). simpl.
    by rewrite <- app_assoc.
Qed.

(** [OctreeCompression::compressAndIntegrate], when it returns: every index
    it pushed to [new_indices] is an index into [all_vertices_]; so is every
    vertex of every triangle it pushed to [new_triangles], provided the
    compressor had no more active indices than active vertices. *)
Theorem octree_reports_stored_vertices (m : Members) (out : Outputs)
    (V : list PointT) (S : list Surface) (stamp : Z) :
  ended (compressAndIntegrate m out V S stamp) = None →
  (∀ v, v ∈ drop (length (new_indices out))
              (new_indices (outputs_after (compressAndIntegrate m out V S stamp))) →
        v < length (all_vertices (members_after (compressAndIntegrate m out V S stamp)))) ∧
  (length (active_vertices_index m) ≤ length (active_vertices m) →
   ∀ tri v,
     tri ∈ drop (length (new_triangles out))
              (new_triangles (outputs_after (compressAndIntegrate m out V S stamp))) →
     v ∈ tri →
     v < length (all_vertices (members_after (compressAndIntegrate m out V S stamp)))).
Proof.
  assert (∀ A (l : list A), drop (length l) l = []) as Hdrop.
  { intros A l. by rewrite drop_all. }
  assert (stored_indices out {| members := m; outputs := out; second_remapping := ∅ |} [])
    as Hinit.
  { split_and!; simpl; [done|by rewrite app_nil_r|by intros ? ?%elem_of_nil|done]. }
  unfold compressAndIntegrate.
  destruct ((length V <? 3) || (length S =? 0)).
  { simpl. rewrite !Hdrop. split; [by intros ? ?%elem_of_nil|by intros _ ? ? ?%elem_of_nil]. }
  destruct (first_pass _ _ _ _) as [log [t|e]] eqn:Hfirst; [|done].
  destruct (length (temp_new_indices t) <? 3).
  { simpl. rewrite !Hdrop. split; [by intros ? ?%elem_of_nil|by intros _ ? ? ?%elem_of_nil]. }
  destruct (length _ =? 0) eqn:Hnone.
  { simpl. rewrite !Hdrop. split; [by intros ? ?%elem_of_nil|by intros _ ? ? ?%elem_of_nil]. }
  destruct (second_pass _ _ _ _ _ _) as [s [[]|e]] eqn:Hsecond; [|done].
  intros _. simpl.
  destruct (second_pass_stored _ _ _ _ out _ _ _ [] (le_n _) Hinit Hsecond)
    as ([idxs (Ht & Hi & Hv & Hr)] & _ & Hall).
  destruct (length (new_indices (outputs s)) =? 0).
  - rewrite Ht, Hi, drop_app_length, Hdrop.
    split; [done|by intros _ ? ? ?%elem_of_nil].
  - match goal with
    | |- context [foldl add_triangle s ?tris] =>
        destruct (add_triangles_spec s tris) as (-> & -> & ->)
    end.
    rewrite Ht, Hi, !drop_app_length. split; [done|].
    intros Hle tri v (tri0 & -> & Htri0)%list_elem_of_fmap (x & -> & _)%list_elem_of_fmap.
    destruct (second_remapping s !! x) as [w|] eqn:Hw; simpl; [by apply (Hr x)|].
    pose proof (first_pass_tracked _ _ _ _ _ _ (copy_members_tracked m Hle) Hfirst)
      as [Hremap _].
    destruct (check_polygons_flagged (length (all_vertices m)) m (remapping t)
                (temp_new_indices t) ([], temp_have_adjacent_polygons t) S Hremap)
      with (tri := tri0) as (v0 & _ & Hnew & Hflag); [by intros ? ?%elem_of_nil|done|].
    destruct (Hall v0 Hnew Hflag) as [w Hw0]. specialize (Hr v0 w Hw0). lia.
Qed.

End octree_range.

Section octree_invariant.
Context `{O : OctreeCompression.Octree}.
Import OctreeCompression.

Lemma insert_vertex_bounded A (t t' : Temps) i p r :
  bounded_temps t → insert_vertex A t i p = (t', r) → bounded_temps t'.
Proof.
  intros [Ha Hn]. unfold insert_vertex.
  destruct (getBoundingBox _); [|by intros [= <- <-]].
  destruct (if inside _ _ then _ else _) as [occupied|]; [|by intros [= <- <-]].
  destruct (negb _ || negb _).
  - destruct (addPointFromCloud _ _ _) as [tree|]; intros [= <- <-]; [|done].
    assert (length (temp_all_vertices t ++ [p]) - 1 = length (temp_all_vertices t))
      as Hlast by (rewrite length_app; simpl; lia).
    split; simpl; rewrite Hlast, length_app; simpl.
    + intros v [?%Ha|?%list_elem_of_singleton]%elem_of_app; lia.
    + intros v [[? ?]%Hn|Heq%list_elem_of_singleton]%elem_of_app.
      * split; [lia|]. destruct (decide (v = length (temp_all_vertices t))) as [->|].
        -- by rewrite lookup_insert_eq.
        -- by rewrite lookup_insert_ne.
      * subst v. split; [lia|]. by rewrite lookup_insert_eq.
  - destruct (approxNearestSearch _ _ _) as [result_idx|]; [|by intros [= <- <-]].
    destruct (temp_active_vertices_index t !! result_idx) as [id|] eqn:Hid;
      intros [= <- <-]; [|done].
    apply list_elem_of_lookup_2 in Hid. split; simpl; [done|].
    destruct (_ && _); [|done].
    intros v [[? ?]%Hn|Heq%list_elem_of_singleton]%elem_of_app.
    + split; [done|]. destruct (decide (v = id)) as [->|].
      * by rewrite lookup_insert_eq.
      * by rewrite lookup_insert_ne.
    + subst v. split; [by apply Ha|]. by rewrite lookup_insert_eq.
Qed.

Lemma first_pass_bounded A (t t' : Temps) log log' input :
  bounded_temps t → first_pass A t log input = (log', Ret t') → bounded_temps t'.
Proof.
  revert t log. induction input as [|[i p] input IH]; intros t log Ht; simpl.
  - by intros [= _ <-].
  - destruct (insert_vertex A t i p) as [t1 r] eqn:Hstep.
    apply insert_vertex_bounded in Hstep; [|done].
    destruct r as [[]|[]]; try done; by apply IH.
Qed.

Lemma first_pass_fails A (t : Temps) log log' input e :
  first_pass A t log input = (log', Fail e) → e = OutOfBounds.
Proof.
  revert t log. induction input as [|[i p] input IH]; intros t log; simpl; [done|].
  destruct (insert_vertex A t i p) as [t1 [[]|[]]]; try (by apply IH).
  by intros [= _ <-].
Qed.

Lemma copy_members_bounded (m : Members) :
  octree_consistent m → bounded_temps (copy_members m).
Proof.
  intros (_ & _ & Hi & _). split; simpl; [done|]. by intros ? ?%elem_of_nil.
Qed.

Lemma flags_kept (have : gmap nat bool) (poly : Surface) v :
  is_Some (have !! v) → is_Some (foldl (λ have v, <[v := true]> have) have poly !! v).
Proof.
  revert have. induction poly as [|x poly IH]; intros have Hv; simpl; [done|].
  apply IH. destruct (decide (v = x)) as [->|].
  - by rewrite lookup_insert_eq.
  - by rewrite lookup_insert_ne.
Qed.

Lemma check_polygons_keep_flags N (m : Members) remap acc S v :
  is_Some (acc.2 !! v) → is_Some ((foldl (check_polygon N m remap) acc S).2 !! v).
Proof.
  revert acc. induction S as [|polygon S IH]; intros acc Hv; simpl; [done|].
  apply IH. unfold check_polygon.
  destruct (degenerate _); [done|]. destruct (_ || _); [|done].
  by apply flags_kept.
Qed.

Lemma commit_index_parallel N (t : Temps) have stamp (s s' : Second) idx r :
  N ≤ length (all_vertices (members s)) → parallel s →
  is_Some (have !! idx) → idx < length (temp_all_vertices t) →
  commit_index N t have stamp s idx = (s', r) →
  match r with
  | Ret _ => N ≤ length (all_vertices (members s')) ∧ parallel s'
  | Fail _ => half_added (members s')
  end.
Proof.
  intros HN [Ha Ht] [flag Hflag] Hidx. unfold commit_index. rewrite Hflag.
  destruct flag; [|by intros [= <- <-]].
  destruct (N <=? idx) eqn:Hnew.
  - destruct (lookup_lt_is_Some_2 _ _ Hidx) as [p ->]. simpl.
    destruct (addPointFromCloud _ _ _) as [tree|]; intros [= <- <-].
    + unfold parallel. simpl. rewrite !length_app. simpl. lia.
    + unfold half_added. simpl. rewrite length_app. simpl. lia.
  - apply Nat.leb_gt in Hnew. simpl. case_bool_decide; [|lia].
    intros [= <- <-]. unfold parallel. simpl. by rewrite length_insert.
Qed.

Lemma second_pass_parallel N (t : Temps) have stamp (s s' : Second) indices r :
  N ≤ length (all_vertices (members s)) → parallel s →
  (∀ idx, idx ∈ indices →
          is_Some (have !! idx) ∧ idx < length (temp_all_vertices t)) →
  second_pass N t have stamp s indices = (s', r) →
  match r with
  | Ret _ => parallel s'
  | Fail _ => half_added (members s')
  end.
Proof.
  revert s. induction indices as [|idx indices IH]; intros s HN Hs Hin; simpl.
  - by intros [= <- <-].
  - destruct (Hin idx) as [Hflag Hidx]; [by left|].
    destruct (commit_index N t have stamp s idx) as [s1 r1] eqn:Hstep.
    pose proof (commit_index_parallel _ _ _ _ _ _ _ _ HN Hs Hflag Hidx Hstep) as H1.
    destruct r1 as [[]|e].
    + destruct H1 as [HN1 Hs1]. apply IH; [done|done|].
      intros k Hk. apply Hin. by right.
    + by intros [= <- <-].
Qed.

Lemma add_triangles_members (s : Second) tris :
  active_vertices (members (foldl add_triangle s tris)) = active_vertices (members s) ∧
  active_vertices_index (members (foldl add_triangle s tris)) =
    active_vertices_index (members s) ∧
  vertices_latest_time (members (foldl add_triangle s tris)) =
    vertices_latest_time (members s) ∧
  all_vertices (members (foldl add_triangle s tris)) = all_vertices (members s) ∧
  polygons (members (foldl add_triangle s tris)) =
    polygons (members s) ++ (remap_polygon (second_remapping s) <$> tris).
Proof.
  revert s. induction tris as [|tri tris IH]; intros s; simpl.
  - by rewrite app_nil_r.
  - destruct (IH (add_triangle s tri)) as (-> & -> & -> & -> & ->). simpl.
    by rewrite <- app_assoc.
Qed.

Lemma reindexed_stored (s : Second) (L : nat) new have tris :
  (∀ k v, second_remapping s !! k = Some v → v < L) →
  (∀ idx, idx ∈ new → have !! idx = Some true →
          is_Some (second_remapping s !! idx)) →
  flagged new (tris, have) →
  ∀ tri v, tri ∈ tris → v ∈ remap_polygon (second_remapping s) tri → v < L.
Proof.
  intros Hr Hall Hflagged tri v Htri (x & -> & _)%list_elem_of_fmap.
  destruct (second_remapping s !! x) as [w|] eqn:Hw; simpl; [by apply (Hr x)|].
  destruct (Hflagged tri Htri) as (v0 & _ & Hnew & Hflag).
  destruct (Hall v0 Hnew Hflag) as [w Hw0]. specialize (Hr v0 w Hw0). lia.
Qed.

(** The checks of the second pass for the indices the first pass found. *)
Lemma first_pass_indices (m : Members) log t (V : list PointT) (S : list Surface) :
  octree_consistent m →
  first_pass (length (active_vertices m)) (copy_members m) [] (imap pair V)
    = (log, Ret t) →
  ∀ idx, idx ∈ temp_new_indices t →
    is_Some ((foldl (check_polygon (length (all_vertices m)) m (remapping t))
                ([], temp_have_adjacent_polygons t) S).2 !! idx) ∧
    idx < length (temp_all_vertices t).
Proof.
  intros Hm Hfirst idx Hidx.
  destruct (first_pass_bounded _ _ _ _ _ _ (copy_members_bounded m Hm) Hfirst)
    as [_ Hn].
  destruct (Hn idx Hidx) as [Hlt Hflag]. split; [|done].
  by apply check_polygons_keep_flags.
Qed.

(** [OctreeCompression::compressAndIntegrate] keeps the members in
    agreement when it returns. *)
Theorem octree_stays_consistent (m : Members) (out : Outputs)
    (V : list PointT) (S : list Surface) (stamp : Z) :
  octree_consistent m →
  ended (compressAndIntegrate m out V S stamp) = None →
  octree_consistent (members_after (compressAndIntegrate m out V S stamp)).
Proof.
  intros Hm. pose proof Hm as (Ha & Ht & Hi & Hp).
  unfold compressAndIntegrate.
  destruct ((length V <? 3) || (length S =? 0)); [done|].
  destruct (first_pass _ _ _ _) as [log [t|e]] eqn:Hfirst; [|done].
  destruct (length (temp_new_indices t) <? 3); [done|].
  destruct (length _ =? 0); [done|].
  destruct (second_pass _ _ _ _ _ _) as [s [[]|e]] eqn:Hsecond; [|done].
  intros _. simpl.
  assert (octree_appended m out m out [] []) as Hrefl.
  { unfold octree_appended. by rewrite !app_nil_r. }
  assert (stored_indices out {| members := m; outputs := out; second_remapping := ∅ |} [])
    as Hinit.
  { split_and!; simpl; [done|by rewrite app_nil_r|by intros ? ?%elem_of_nil|done]. }
  destruct (second_pass_appended _ _ _ _ m out
              {| members := m; outputs := out; second_remapping := ∅ |}
              _ _ [] Hrefl Hsecond) as (added & Hall & _ & _ & Hindex & Hpolys & _).
  destruct (second_pass_stored _ _ _ _ out _ _ _ [] (le_n _) Hinit Hsecond)
    as ([idxs (_ & _ & _ & Hr)] & _ & Hmapped).
  pose proof (second_pass_parallel _ _ _ _
                {| members := m; outputs := out; second_remapping := ∅ |} _ _ _
                (le_n _) (conj Ha Ht)
                (first_pass_indices m log t V S Hm Hfirst) Hsecond) as [Ha' Ht'].
  assert (octree_consistent (members s)) as Hs.
  { split_and!; [done|done| |].
    - rewrite Hindex, Hall, length_app.
      intros v [?%Hi|[_ ?]%elem_of_seq]%elem_of_app; lia.
    - rewrite Hpolys, app_nil_r, Hall, length_app.
      intros tri v Htri Hv. specialize (Hp tri v Htri Hv). lia. }
  destruct (length (new_indices (outputs s)) =? 0); [done|].
  match goal with
  | |- context [foldl add_triangle s ?tris] =>
      destruct (add_triangles_members s tris) as (Hfa & Hfi & Hft & Hfv & Hfp)
  end.
  destruct Hs as (Hsa & Hst & Hsi & Hsp).
  unfold octree_consistent. rewrite Hfa, Hfi, Hft, Hfv, Hfp.
  split_and!; [done|done|done|].
  intros tri v [Htri|(tri0 & -> & Htri0)%list_elem_of_fmap]%elem_of_app Hv;
    [by apply (Hsp tri)|].
  pose proof (first_pass_tracked _ _ _ _ _ _
                (copy_members_tracked m ltac:(lia)) Hfirst) as [Hremap _].
  eapply (reindexed_stored s _ (temp_new_indices t)); [exact Hr|exact Hmapped| |done|done].
  apply check_polygons_flagged; [done|]. by intros ? ?%elem_of_nil.
Qed.

(** [OctreeCompression::compressAndIntegrate] on members that agree, when
    it throws: either the first pass read past the copy of the active
    indices and nothing has changed, or [addPointFromCloud] of the second
    pass threw and the last active vertex has no index. *)
Theorem octree_throw_leaves_half_added (m : Members) (out : Outputs)
    (V : list PointT) (S : list Surface) (stamp : Z) (e : exn) :
  octree_consistent m →
  ended (compressAndIntegrate m out V S stamp) = Some e →
  (e = OutOfBounds ∧
   members_after (compressAndIntegrate m out V S stamp) = m ∧
   outputs_after (compressAndIntegrate m out V S stamp) = out) ∨
  half_added (members_after (compressAndIntegrate m out V S stamp)).
Proof.
  intros Hm. pose proof Hm as (Ha & Ht & _).
  unfold compressAndIntegrate.
  destruct ((length V <? 3) || (length S =? 0)); [done|].
  destruct (first_pass _ _ _ _) as [log [t|e1]] eqn:Hfirst.
  2: { simpl. intros [= <-]. left. by rewrite (first_pass_fails _ _ _ _ _ _ Hfirst). }
  destruct (length (temp_new_indices t) <? 3); [done|].
  destruct (length _ =? 0); [done|].
  destruct (second_pass _ _ _ _ _ _) as [s [[]|e1]] eqn:Hsecond; [done|].
  intros _. right. simpl.
  exact (second_pass_parallel _ _ _ _
           {| members := m; outputs := out; second_remapping := ∅ |} _ _ _
           (le_n _) (conj Ha Ht)
           (first_pass_indices m log t V S Hm Hfirst) Hsecond).
Qed.

End octree_invariant.

Section octree_faces.
Context `{O : OctreeCompression.Octree}.
Import OctreeCompression.

Lemma insert_vertex_old_flagged (m : Members) (t t' : Temps) i p r :
  octree_consistent m →
  bounded_temps t → old_flagged m t →
  insert_vertex (length (active_vertices m)) t i p = (t', r) →
  old_flagged m t'.
Proof.
  intros (Ha & _ & Hi & _) [_ Hn] Ht. pose proof Ht as (Hnodup & [rest Hrest] & Hflags).
  unfold insert_vertex.
  destruct (getBoundingBox _); [|by intros [= <- <-]].
  destruct (if inside _ _ then _ else _) as [occupied|]; [|by intros [= <- <-]].
  destruct (negb _ || negb _).
  - destruct (addPointFromCloud _ _ _) as [tree|]; intros [= <- <-]; [|done].
    assert (length (temp_all_vertices t ++ [p]) - 1 = length (temp_all_vertices t))
      as Hlast by (rewrite length_app; simpl; lia).
    split_and!; simpl; rewrite Hlast.
    + apply NoDup_app. split_and!; [done| |apply NoDup_singleton].
      intros v [Hlt _]%Hn Heq%list_elem_of_singleton. lia.
    + exists (rest ++ [length (temp_all_vertices t)]). by rewrite Hrest, <- app_assoc.
    + intros idx. destruct (decide (idx = length (temp_all_vertices t))) as [->|].
      * by rewrite lookup_insert_eq.
      * rewrite lookup_insert_ne by done. apply Hflags.
  - destruct (approxNearestSearch _ _ _) as [result_idx|]; [|by intros [= <- <-]].
    destruct (temp_active_vertices_index t !! result_idx) as [id|] eqn:Hid;
      intros [= <- <-]; [|done].
    split_and!; simpl; [|by exists rest|].
    + destruct (result_idx <? _); simpl; [|done].
      case_bool_decide; simpl; [done|].
      apply NoDup_app. split_and!; [done| |apply NoDup_singleton].
      by intros v Hv ->%list_elem_of_singleton.
    + destruct (result_idx <? _) eqn:Hlt; simpl; [|done].
      destruct (negb _); [|done].
      intros idx. destruct (decide (idx = id)) as [->|].
      * intros _. apply Nat.ltb_lt in Hlt. apply Hi.
        rewrite Hrest, lookup_app_l in Hid by lia.
        by apply list_elem_of_lookup_2 in Hid.
      * rewrite lookup_insert_ne by done. apply Hflags.
Qed.

Lemma first_pass_old_flagged (m : Members) (t t' : Temps) log log' input :
  octree_consistent m →
  bounded_temps t → old_flagged m t →
  first_pass (length (active_vertices m)) t log input = (log', Ret t') →
  old_flagged m t'.
Proof.
  intros Hm. revert t log. induction input as [|[i p] input IH]; intros t log Hb Ht; simpl.
  - by intros [= _ <-].
  - destruct (insert_vertex _ t i p) as [t1 r] eqn:Hstep.
    pose proof (insert_vertex_bounded _ _ _ _ _ _ Hb Hstep) as Hb1.
    pose proof (insert_vertex_old_flagged _ _ _ _ _ _ Hm Hb Ht Hstep) as Ht1.
    destruct r as [[]|[]]; try done; by apply IH.
Qed.

Lemma copy_members_old_flagged (m : Members) : old_flagged m (copy_members m).
Proof.
  split_and!; simpl; [apply NoDup_nil_2|exists []; by rewrite app_nil_r|done].
Qed.

Lemma flags_set_inv (have : gmap nat bool) (poly : Surface) idx :
  foldl (λ have v, <[v := true]> have) have poly !! idx = Some true →
  have !! idx = Some true ∨ idx ∈ poly.
Proof.
  revert have. induction poly as [|x poly IH]; intros have; simpl; [by left|].
  intros [Hx|Hin]%IH.
  - destruct (decide (idx = x)) as [->|]; [right; by left|].
    rewrite lookup_insert_ne in Hx by done. by left.
  - right. by right.
Qed.

Lemma check_polygons_sources N (m : Members) remap have acc S :
  flag_sources have acc →
  flag_sources have (foldl (check_polygon N m remap) acc S).
Proof.
  revert acc. induction S as [|polygon S IH]; intros acc Hacc; simpl; [done|].
  apply IH. unfold check_polygon.
  destruct (degenerate _); [done|]. destruct (_ || _); [|done].
  intros idx. simpl. intros [[?|(tri & ? & ?)]%Hacc|Hin]%flags_set_inv.
  - by left.
  - right. exists tri. split; [|done]. apply elem_of_app. by left.
  - right. eexists. split; [|done]. apply elem_of_app. right. by left.
Qed.

Lemma commit_index_faced N (t : Temps) have stamp (s s' : Second) idx rest :
  idx ∉ rest →
  faced N have (idx :: rest) s →
  commit_index N t have stamp s idx = (s', Ret ()) →
  faced N have rest s' ∧
  length (all_vertices (members s')) + length (new_indices (outputs s))
    ≤ length (all_vertices (members s)) + length (new_indices (outputs s')).
Proof.
  intros Hidx Hs. unfold commit_index.
  assert (∀ k, N ≤ k → k < length (all_vertices (members s)) →
            ∃ idx0, idx0 ≠ idx ∧ (idx0 ∉ rest) ∧ N ≤ idx0 ∧ have !! idx0 = Some true ∧
                    second_remapping s !! idx0 = Some k) as Hold.
  { intros k HN Hk. destruct (Hs k HN Hk) as (idx0 & Hnot & ? & ? & ?).
    apply not_elem_of_cons in Hnot as [? ?]. by exists idx0. }
  destruct (have !! idx) as [[]|] eqn:Hflag; [| |done].
  2: { intros [= <-]. split; [|lia]. intros k HN Hk.
       destruct (Hold k HN Hk) as (idx0 & ? & ? & ? & ? & ?). by exists idx0. }
  destruct (N <=? idx) eqn:Hnew.
  - apply Nat.leb_le in Hnew.
    destruct (temp_all_vertices t !! idx) as [p|]; [|done]. simpl.
    destruct (addPointFromCloud _ _ _) as [tree|]; [|done].
    intros [= <-]. simpl. rewrite !length_app. simpl. split; [|lia].
    intros k. simpl. rewrite !length_app. simpl. intros HN Hk.
    destruct (decide (k = length (all_vertices (members s)))) as [->|].
    + exists idx. split_and!; [done|done|done|]. rewrite lookup_insert_eq.
      f_equal. lia.
    + destruct (Hold k HN ltac:(lia)) as (idx0 & ? & ? & ? & ? & ?). exists idx0.
      split_and!; [done|done|done|]. by rewrite lookup_insert_ne.
  - simpl. case_bool_decide; [|done]. intros [= <-]. simpl.
    rewrite length_app. simpl. split; [|lia].
    intros k. simpl. intros HN Hk.
    destruct (Hold k HN Hk) as (idx0 & ? & ? & ? & ? & ?). exists idx0.
    split_and!; [done|done|done|]. by rewrite lookup_insert_ne.
Qed.

Lemma second_pass_faced N (t : Temps) have stamp (s s' : Second) indices :
  NoDup indices →
  faced N have indices s →
  second_pass N t have stamp s indices = (s', Ret ()) →
  faced N have [] s' ∧
  length (all_vertices (members s')) + length (new_indices (outputs s))
    ≤ length (all_vertices (members s)) + length (new_indices (outputs s')).
Proof.
  revert s. induction indices as [|idx indices IH]; intros s Hnodup Hs; simpl.
  - intros [= <-]. split; [done|lia].
  - apply NoDup_cons in Hnodup as [Hidx Hnodup].
    destruct (commit_index N t have stamp s idx) as [s1 [[]|e]] eqn:Hstep; [|done].
    destruct (commit_index_faced _ _ _ _ _ _ _ _ Hidx Hs Hstep) as [Hs1 Hcount1].
    intros Hrest. destruct (IH s1 Hnodup Hs1 Hrest) as [Hs' Hcount].
    split; [done|lia].
Qed.

(** [OctreeCompression::compressAndIntegrate] on members that agree, when
    it returns: every vertex it has added to [all_vertices_] is a vertex of
    a polygon it has added to [polygons_]. *)
Theorem octree_new_vertices_have_faces (m : Members) (out : Outputs)
    (V : list PointT) (S : list Surface) (stamp : Z) (k : nat) :
  octree_consistent m →
  ended (compressAndIntegrate m out V S stamp) = None →
  length (all_vertices m) ≤ k →
  k < length (all_vertices (members_after (compressAndIntegrate m out V S stamp))) →
  ∃ tri,
    tri ∈ drop (length (polygons m))
             (polygons (members_after (compressAndIntegrate m out V S stamp))) ∧
    k ∈ tri.
Proof.
  intros Hm. unfold compressAndIntegrate.
  destruct ((length V <? 3) || (length S =? 0)); [simpl; lia|].
  destruct (first_pass _ _ _ _) as [log [t|e]] eqn:Hfirst; [|done].
  destruct (length (temp_new_indices t) <? 3); [simpl; lia|].
  destruct (length _ =? 0); [simpl; lia|].
  destruct (second_pass _ _ _ _ _ _) as [s [[]|e]] eqn:Hsecond; [|done].
  intros _. simpl.
  destruct (first_pass_old_flagged m _ _ _ _ _ Hm (copy_members_bounded m Hm)
              (copy_members_old_flagged m) Hfirst) as (Hnodup & _ & Hflags).
  assert (faced (length (all_vertices m))
            (foldl (check_polygon (length (all_vertices m)) m (remapping t))
               ([], temp_have_adjacent_polygons t) S).2
            (temp_new_indices t)
            {| members := m; outputs := out; second_remapping := ∅ |}) as Hinit.
  { intros k0. simpl. lia. }
  destruct (second_pass_faced _ _ _ _ _ _ _ Hnodup Hinit Hsecond) as [Hfaced Hcount].
  assert (octree_appended m out m out [] []) as Hrefl.
  { unfold octree_appended. by rewrite !app_nil_r. }
  destruct (second_pass_appended _ _ _ _ m out
              {| members := m; outputs := out; second_remapping := ∅ |}
              _ _ [] Hrefl Hsecond) as (added & _ & _ & _ & _ & Hpolys & _).
  rewrite app_nil_r in Hpolys. simpl in Hcount.
  destruct (length (new_indices (outputs s)) =? 0) eqn:Hnone.
  { apply Nat.eqb_eq in Hnone. lia. }
  match goal with
  | |- context [foldl add_triangle s ?tris] =>
      destruct (add_triangles_members s tris) as (_ & _ & _ & -> & ->)
  end.
  rewrite Hpolys, drop_app_length. intros HN Hk.
  destruct (Hfaced k HN Hk) as (idx & _ & Hidx & Hflag & Hk').
  destruct (check_polygons_sources (length (all_vertices m)) m (remapping t)
              (temp_have_adjacent_polygons t) ([], temp_have_adjacent_polygons t) S
              ltac:(intros ? ?; by left) idx Hflag) as [Hold|(tri & Htri & Hin)].
  { apply Hflags in Hold. lia. }
  exists (remap_polygon (second_remapping s) tri). split.
  - apply list_elem_of_fmap. by exists tri.
  - apply list_elem_of_fmap. exists idx. by rewrite Hk'.
Qed.

End octree_faces.

Section octree_times.
Context `{O : OctreeCompression.Octree}.
Import OctreeCompression.

Lemma commit_index_stamped N (t : Temps) have stamp (out : Outputs) (s s' : Second)
    idx idxs :
  stamped out stamp s idxs →
  commit_index N t have stamp s idx = (s', Ret ()) →
  ∃ idxs', stamped out stamp s' idxs'.
Proof.
  intros Hs. pose proof Hs as (Hlen & Hi & Hv). unfold commit_index.
  destruct (have !! idx) as [[]|]; [| |done].
  2: { intros [= <-]. by exists idxs. }
  destruct (N <=? idx).
  - destruct (temp_all_vertices t !! idx) as [p|]; [|done]. simpl.
    destruct (addPointFromCloud _ _ _) as [tree|]; [|done].
    intros [= <-].
    assert (length (all_vertices (members s) ++ [p]) - 1 =
            length (vertices_latest_time (members s))) as Hlast.
    { rewrite length_app. simpl. lia. }
    exists (idxs ++ [length (vertices_latest_time (members s))]).
    split_and!; simpl.
    + rewrite !length_app. simpl. lia.
    + by rewrite Hlast, Hi, <- app_assoc.
    + intros v [Hin|Heq%list_elem_of_singleton]%elem_of_app.
      * apply lookup_app_l_Some. by apply Hv.
      * subst v. by rewrite lookup_app_r, Nat.sub_diag.
  - simpl. case_bool_decide as Hidx; [|done]. intros [= <-].
    exists (idxs ++ [idx]). split_and!; simpl.
    + by rewrite length_insert.
    + by rewrite Hi, <- app_assoc.
    + intros v [Hin|Heq%list_elem_of_singleton]%elem_of_app.
      * destruct (decide (v = idx)) as [->|].
        -- by apply list_lookup_insert_eq.
        -- rewrite list_lookup_insert_ne by done. by apply Hv.
      * subst v. by apply list_lookup_insert_eq.
Qed.

Lemma second_pass_stamped N (t : Temps) have stamp (out : Outputs) (s s' : Second)
    indices idxs :
  stamped out stamp s idxs →
  second_pass N t have stamp s indices = (s', Ret ()) →
  ∃ idxs', stamped out stamp s' idxs'.
Proof.
  revert s idxs. induction indices as [|idx indices IH]; intros s idxs Hs; simpl.
  - intros [= <-]. by exists idxs.
  - destruct (commit_index N t have stamp s idx) as [s1 [[]|e]] eqn:Hstep; [|done].
    destruct (commit_index_stamped _ _ _ _ _ _ _ _ _ Hs Hstep) as [idxs1 Hs1].
    by apply (IH s1 idxs1).
Qed.

(** [OctreeCompression::compressAndIntegrate] on members with one time per
    stored vertex, when it returns: every index it pushed to [new_indices]
    has the time of the call in [vertices_latest_time_]. *)
Theorem octree_reported_indices_are_stamped (m : Members) (out : Outputs)
    (V : list PointT) (S : list Surface) (stamp : Z) (v : nat) :
  length (vertices_latest_time m) = length (all_vertices m) →
  ended (compressAndIntegrate m out V S stamp) = None →
  v ∈ drop (length (new_indices out))
         (new_indices (outputs_after (compressAndIntegrate m out V S stamp))) →
  vertices_latest_time (members_after (compressAndIntegrate m out V S stamp)) !! v
    = Some stamp.
Proof.
  intros Hlen. unfold compressAndIntegrate.
  destruct ((length V <? 3) || (length S =? 0)).
  { simpl. rewrite drop_all. by intros _ ?%elem_of_nil. }
  destruct (first_pass _ _ _ _) as [log [t|e]]; [|done].
  destruct (length (temp_new_indices t) <? 3).
  { simpl. rewrite drop_all. by intros _ ?%elem_of_nil. }
  destruct (length _ =? 0).
  { simpl. rewrite drop_all. by intros _ ?%elem_of_nil. }
  destruct (second_pass _ _ _ _ _ _) as [s [[]|e]] eqn:Hsecond; [|done].
  intros _. simpl.
  assert (stamped out stamp {| members := m; outputs := out; second_remapping := ∅ |} [])
    as Hinit.
  { split_and!; simpl; [done|by rewrite app_nil_r|by intros ? ?%elem_of_nil]. }
  destruct (second_pass_stamped _ _ _ _ _ _ _ _ _ Hinit Hsecond)
    as (idxs & _ & Hi & Hv).
  destruct (length (new_indices (outputs s)) =? 0).
  - rewrite Hi, drop_app_length. apply Hv.
  - match goal with
    | |- context [foldl add_triangle s ?tris] =>
        destruct (add_triangles_members s tris) as (_ & _ & -> & _ & _);
        destruct (add_triangles_spec s tris) as (_ & -> & _)
    end.
    rewrite Hi, drop_app_length. apply Hv.
Qed.

End octree_times.

(** * The operations on concrete batches *)

Lemma thrown_None `{B : Backend} {R} (o : outcome R unit) :
  thrown o = None → o = Normal () (final_heap o).
Proof. by destruct o as [[] h|e h]. Qed.

Lemma thrown_Some `{B : Backend} {R A} (o : outcome R A) e :
  thrown o = Some e → o = Throw e (final_heap o).
Proof. destruct o as [a h|e' h]; [done|]. by intros [= ->]. Qed.

(** C1. Flat overload, fresh compressor: a face through the second copy of a
    doubled corner commits three vertices and no face; voxblox overload, after
    one triangle: a face with one re-observed and two new corners commits the
    two new vertices and no face. *)
Example vertices_committed_without_face :
  (thrown (flat_call grid doubled_corner doubled_corner_faces 1 empty_store) = None ∧
   all_vertices (store after_doubled_corner) = [pt 0 0 0; pt 20 0 0; pt 0 20 0] ∧
   new_indices after_doubled_corner = [0; 1; 2] ∧
   polygons (store after_doubled_corner) = [] ∧
   new_triangles after_doubled_corner = []) ∧
  (thrown (block_call grid block_near_triangle 2 (store after_triangle)) = None ∧
   all_vertices (store (final_heap
     (block_call grid block_near_triangle 2 (store after_triangle))))
     = triangle ++ [pt 40 0 0; pt 0 40 0] ∧
   new_indices (final_heap
     (block_call grid block_near_triangle 2 (store after_triangle))) = [0; 3; 4] ∧
   polygons (store (final_heap
     (block_call grid block_near_triangle 2 (store after_triangle))))
     = polygons (store after_triangle) ∧
   new_triangles (final_heap
     (block_call grid block_near_triangle 2 (store after_triangle))) = []).
Proof. vm_compute. by split_and!. Qed.

(** C2. Flat overload, fresh compressor: input 3 converges onto the
    candidate of input 2, which is committed as vertex 1, yet the returned
    remapping sends input 3 to vertex 2. *)
Example converged_input_remapped_to_other_vertex :
  thrown (flat_call grid two_doubled_corners two_doubled_corners_faces 1
            empty_store) = None ∧
  remapping (final_heap (flat_call grid two_doubled_corners
                           two_doubled_corners_faces 1 empty_store))
    = {[0 := 0; 1 := 0; 2 := 1; 3 := 2; 4 := 2]}.
Proof. vm_compute. by split_and!. Qed.

(** C3, counterexample. A fresh compressor given one triangle twice in one
    batch stores it twice; so does the voxblox overload given a block with
    two faces whose corners fall into the same three cells. *)
Lemma duplicate_surface_in_one_batch :
  thrown (flat_call grid triangle [[0; 1; 2]; [0; 1; 2]] 1 empty_store) = None ∧
  thrown (block_call grid twin_faces_block 1 empty_store) = None ∧
  polygons (store (final_heap (block_call grid twin_faces_block 1 empty_store)))
    = [[0; 1; 2]; [0; 1; 2]] ∧
  no_duplicate_surfaces (empty_store (B:=grid)) ∧
  ¬ no_duplicate_surfaces
      (store (final_heap (flat_call grid triangle [[0; 1; 2]; [0; 1; 2]] 1
                            empty_store))).
Proof.
  split_and!; [by vm_compute | by vm_compute | by vm_compute | |].
  - by intros i j t1 t2 _ ?.
  - intros Hno. specialize (Hno 0 1 [0; 1; 2] [0; 1; 2]).
    assert (same_vertex_set [0; 1; 2] [0; 1; 2] = false) as Hset; [|done].
    apply Hno; [done | by vm_compute..].
Qed.


(** C5. The doubled-corner batch submitted a second time with the same
    stamp returns a new face and changes the store. *)
Example resubmission_adds_a_face :
  thrown (flat_call grid doubled_corner doubled_corner_faces 1
            (store after_doubled_corner)) = None ∧
  new_vertices (final_heap (flat_call grid doubled_corner doubled_corner_faces 1
                              (store after_doubled_corner))) = [] ∧
  new_triangles (final_heap (flat_call grid doubled_corner doubled_corner_faces 1
                               (store after_doubled_corner))) = [[0; 1; 2]] ∧
  polygons (store after_doubled_corner) = [] ∧
  polygons (store (final_heap (flat_call grid doubled_corner doubled_corner_faces 1
                                 (store after_doubled_corner)))) = [[0; 1; 2]].
Proof. vm_compute. by split_and!. Qed.


(** * The general statements at concrete batches *)

Lemma flat_reobservation_is_remapped_witness :
  remapping (final_heap (flat_call grid nudged_triangle [[0; 1; 2]] 3
                           (store after_triangle))) !! 0 = Some 0.
Proof.
  apply (flat_reobservation_is_remapped (B:=grid) nudged_triangle [[0; 1; 2]] 3
           (fresh_heap (store after_triangle) ∅) _ 0 (pt 1 0 0) 0 0).
  - vm_compute. lia.
  - done.
  - done.
  - by vm_compute.
  - by vm_compute.
  - apply thrown_None. by vm_compute.
Defined.

Lemma block_remapping_has_every_block_witness :
  is_Some (remapping (final_heap (block_call grid block_near_triangle 2
                                    (store after_triangle))) !! (0, 0, 0)%Z).
Proof.
  apply (block_remapping_has_every_block (B:=grid) block_near_triangle 2
           (fresh_heap (store after_triangle) ∅) _
           (@Build_MeshBlock grid (0, 0, 0)%Z [pt 1 0 0; pt 40 0 0; pt 0 40 0])).
  - apply thrown_None. by vm_compute.
  - by left.
Defined.

Lemma new_indices_have_no_duplicates_witness :
  NoDup (new_indices (final_heap (flat_call grid nudged_triangle [[0; 1; 2]] 3
                                    (store after_triangle)))) ∧
  NoDup (new_indices (final_heap (block_call grid block_near_triangle 2
                                    (store after_triangle)))).
Proof.
  destruct (new_indices_have_no_duplicates (B:=grid) (store after_triangle))
    as [Hflat Hblock].
  - vm_compute. repeat constructor.
  - split; [by apply Hflat | by apply Hblock].
Defined.

Lemma prune_effect_witness :
  ∃ log s', pruneStoredMesh (B:=grid) 0 (store after_doubled_corner) = (log, Ret s') ∧
            pruned 0 (store after_doubled_corner) log s'.
Proof. apply (prune_effect (B:=grid) 0 (store after_doubled_corner)). by vm_compute. Defined.

Lemma stored_duplicates_are_fresh_witness :
  duplicates_are_fresh empty_store
    (store (final_heap (flat_call grid triangle [[0; 1; 2]; [0; 1; 2]] 1
                          empty_store))).
Proof.
  destruct (stored_duplicates_are_fresh (B:=grid) empty_store reachable_empty)
    as (Hflat & _ & _).
  apply (Hflat triangle [[0; 1; 2]; [0; 1; 2]] 1%Z (fresh_heap empty_store ∅) _ eq_refl).
  apply thrown_None. by vm_compute.
Defined.


Lemma reachable_well_formed_witness :
  consistent (store after_triangle) ∧ store_inv (store after_triangle).
Proof.
  apply (reachable_well_formed (B:=grid) (store after_triangle)).
  refine (reachable_flat (B:=grid) triangle [[0; 1; 2]] 1%Z
            (fresh_heap empty_store ∅) after_triangle reachable_empty _).
  exact (thrown_None (flat_call grid triangle [[0; 1; 2]] 1 empty_store)
           ltac:(by vm_compute)).
Defined.

Lemma calls_on_reachable_stores_return_witness :
  ∃ h', compressAndIntegrate (B:=grid) nudged_triangle [[0; 1; 2]] 3
          (fresh_heap (store after_triangle) ∅) = Normal () h'.
Proof.
  destruct (calls_on_reachable_stores_return (B:=grid) (L:=grid_lawful 10)
              (store after_triangle)) as (Hflat & _ & _).
  - refine (reachable_flat (B:=grid) triangle [[0; 1; 2]] 1%Z
              (fresh_heap empty_store ∅) after_triangle reachable_empty _).
    exact (thrown_None (flat_call grid triangle [[0; 1; 2]] 1 empty_store)
             ltac:(by vm_compute)).
  - refine (Hflat nudged_triangle [[0; 1; 2]] 3%Z
             (fresh_heap (store after_triangle) ∅) _ _).
    + reflexivity.
    + unfold surfaces_in_range. repeat constructor.
Defined.

Lemma broken_octree_is_not_surfaced_witness :
  OctreeCompression.ended
    (OctreeCompression.compressAndIntegrate new_compressor empty_buffers
       triangle [[0; 1; 2]] 1) = None.
Proof.
  rewrite (broken_octree_is_not_surfaced (O:=broken_octree)
             new_compressor empty_buffers triangle [[0; 1; 2]] 1%Z);
    [done | done | simpl; lia | done].
Defined.

Lemma returned_vertices_are_the_appended_witness :
  vertices_appended 2 (fresh_heap (store after_triangle) ∅)
    (final_heap (block_call grid block_near_triangle 2 (store after_triangle))).
Proof.
  apply (proj2 (returned_vertices_are_the_appended (B:=grid))
           block_near_triangle 2%Z).
  exact (thrown_None (block_call grid block_near_triangle 2 (store after_triangle))
           ltac:(by vm_compute)).
Defined.

Lemma returned_triangles_are_the_appended_witness :
  triangles_appended (fresh_heap empty_store ∅) after_triangle.
Proof.
  apply (proj1 (returned_triangles_are_the_appended (B:=grid))
           triangle [[0; 1; 2]] 1%Z).
  exact (thrown_None (flat_call grid triangle [[0; 1; 2]] 1 empty_store)
           ltac:(by vm_compute)).
Defined.

Lemma reachable_adjacency_is_exact_witness :
  adjacency_sound (store after_triangle).
Proof.
  apply (reachable_adjacency_is_exact (B:=grid) (store after_triangle)).
  refine (reachable_flat (B:=grid) triangle [[0; 1; 2]] 1%Z
            (fresh_heap empty_store ∅) after_triangle reachable_empty _).
  exact (thrown_None (flat_call grid triangle [[0; 1; 2]] 1 empty_store)
           ltac:(by vm_compute)).
Defined.

Lemma reported_indices_are_seen_witness :
  reported_seen 3
    (final_heap (flat_call grid nudged_triangle [[0; 1; 2]] 3 (store after_triangle))).
Proof.
  refine (proj1 (reported_indices_are_seen (B:=grid) (store after_triangle) _)
            nudged_triangle [[0; 1; 2]] 3%Z
            (fresh_heap (store after_triangle) ∅) _ _ _ _).
  - by vm_compute.
  - reflexivity.
  - reflexivity.
  - exact (thrown_None
             (flat_call grid nudged_triangle [[0; 1; 2]] 3 (store after_triangle))
             ltac:(by vm_compute)).
Defined.

Lemma pruning_again_changes_nothing_witness :
  ∃ log s', pruneStoredMesh (B:=grid) 1 (store after_triangle) = (log, Ret s') ∧
            pruneStoredMesh 1 s' = ([], Ret s').
Proof.
  apply (pruning_again_changes_nothing (B:=grid) 1 (store after_triangle)).
  by vm_compute.
Defined.

Lemma flat_remapping_is_in_range_witness :
  0 < length nudged_triangle ∧
  0 < length (all_vertices (store (final_heap
        (flat_call grid nudged_triangle [[0; 1; 2]] 3 (store after_triangle))))).
Proof.
  apply (flat_remapping_is_in_range (B:=grid) nudged_triangle [[0; 1; 2]] 3%Z
           (fresh_heap (store after_triangle) ∅)
           (final_heap (flat_call grid nudged_triangle [[0; 1; 2]] 3
                          (store after_triangle)))).
  - vm_compute. repeat constructor.
  - simpl. lia.
  - done.
  - exact (thrown_None
             (flat_call grid nudged_triangle [[0; 1; 2]] 3 (store after_triangle))
             ltac:(by vm_compute)).
  - by vm_compute.
Defined.

Lemma octree_prune_reads_past_kept_witness :
  (OctreeCompression.pruneStoredMesh (F:=broken_octree_from_cloud) 2 old_then_new).2
    = Fail OutOfBounds.
Proof.
  apply (octree_prune_reads_past_kept (F:=broken_octree_from_cloud)
           2 old_then_new 1 0 5 1); [lia | done | lia | done | lia | done].
Defined.

Lemma octree_prune_keeps_prefix_witness :
  ∃ log m',
    OctreeCompression.pruneStoredMesh (F:=broken_octree_from_cloud) 2 new_then_old
      = (log, Ret m') ∧
    OctreeCompression.active_vertices m' = [pt 0 0 0] ∧
    OctreeCompression.vertices_latest_time m' = [5%Z] ∧
    OctreeCompression.active_vertices_index m' = [0] ∧
    OctreeCompression.all_vertices m' = [pt 0 0 0; pt 20 0 0] ∧
    OctreeCompression.polygons m' = [].
Proof.
  apply (octree_prune_keeps_prefix (F:=broken_octree_from_cloud) 2 new_then_old 1);
    [done | done |].
  intros [|[|i]] t; simpl; intros [= <-]; lia.
Defined.

Lemma reported_indices_survive_pruning_witness :
  ∃ log s',
    pruneStoredMesh 2 (store (final_heap (flat_call grid nudged_triangle [[0; 1; 2]] 3
                                (store after_triangle)))) = (log, Ret s') ∧
    ∀ v, v ∈ new_indices (final_heap (flat_call grid nudged_triangle [[0; 1; 2]] 3
                                        (store after_triangle))) →
         v ∈ active_vertices_index s'.
Proof.
  refine (proj1 (reported_indices_survive_pruning (B:=grid) (store after_triangle) _)
            nudged_triangle [[0; 1; 2]] 3%Z 2%Z
            (fresh_heap (store after_triangle) ∅) _ _ _ _ _).
  - by vm_compute.
  - reflexivity.
  - reflexivity.
  - exact (thrown_None
             (flat_call grid nudged_triangle [[0; 1; 2]] 3 (store after_triangle))
             ltac:(by vm_compute)).
  - lia.
Defined.

Lemma block_remapping_only_grows_witness :
  dom (remapping (final_heap (block_call grid block_near_triangle 2
                                (store after_triangle))))
    = dom (∅ : gmap BlockIndex (gmap nat nat)) ∪
      list_to_set (block_index <$> block_near_triangle).
Proof.
  apply (block_remapping_only_grows (B:=grid) block_near_triangle 2%Z
           (fresh_heap (store after_triangle) ∅)).
  exact (thrown_None (block_call grid block_near_triangle 2 (store after_triangle))
           ltac:(by vm_compute)).
Defined.

Lemma octree_returns_what_it_appended_witness :
  ∃ added ts,
    octree_appended boxless_compressor boxless_buffers
      (OctreeCompression.members_after
         (OctreeCompression.compressAndIntegrate boxless_compressor boxless_buffers
            [pt 0 0 0; pt 20 0 0; pt 0 20 0] [[0; 1; 2]] 1))
      (OctreeCompression.outputs_after
         (OctreeCompression.compressAndIntegrate boxless_compressor boxless_buffers
            [pt 0 0 0; pt 20 0 0; pt 0 20 0] [[0; 1; 2]] 1)) added ts.
Proof.
  apply (octree_returns_what_it_appended (O:=boxless_octree)).
  by vm_compute.
Defined.

Lemma octree_reports_stored_vertices_witness :
  (∀ v, v ∈ drop (length (OctreeCompression.new_indices boxless_buffers))
              (OctreeCompression.new_indices (OctreeCompression.outputs_after
                 (OctreeCompression.compressAndIntegrate boxless_compressor
                    boxless_buffers [pt 0 0 0; pt 20 0 0; pt 0 20 0] [[0; 1; 2]] 1))) →
        v < length (OctreeCompression.all_vertices (OctreeCompression.members_after
                 (OctreeCompression.compressAndIntegrate boxless_compressor
                    boxless_buffers [pt 0 0 0; pt 20 0 0; pt 0 20 0] [[0; 1; 2]] 1)))) ∧
  (∀ tri v,
     tri ∈ drop (length (OctreeCompression.new_triangles boxless_buffers))
              (OctreeCompression.new_triangles (OctreeCompression.outputs_after
                 (OctreeCompression.compressAndIntegrate boxless_compressor
                    boxless_buffers [pt 0 0 0; pt 20 0 0; pt 0 20 0] [[0; 1; 2]] 1))) →
     v ∈ tri →
     v < length (OctreeCompression.all_vertices (OctreeCompression.members_after
                 (OctreeCompression.compressAndIntegrate boxless_compressor
                    boxless_buffers [pt 0 0 0; pt 20 0 0; pt 0 20 0] [[0; 1; 2]] 1)))).
Proof.
  destruct (octree_reports_stored_vertices (O:=boxless_octree) boxless_compressor
              boxless_buffers [pt 0 0 0; pt 20 0 0; pt 0 20 0] [[0; 1; 2]] 1
              ltac:(by vm_compute)) as [Hindices Htriangles].
  split; [exact Hindices|].
  apply Htriangles. simpl. lia.
Defined.

Lemma octree_stays_consistent_witness :
  octree_consistent
    (OctreeCompression.members_after
       (OctreeCompression.compressAndIntegrate boxless_compressor boxless_buffers
          square [[1; 2; 3]] 1)).
Proof.
  apply (octree_stays_consistent (O:=boxless_octree)); [|by vm_compute].
  split_and!; [done|done|by intros ? ?%elem_of_nil|by intros ? ? ?%elem_of_nil].
Defined.

Lemma octree_throw_leaves_half_added_witness :
  (BackendFailure = OutOfBounds ∧
   OctreeCompression.members_after
     (OctreeCompression.compressAndIntegrate picky_compressor picky_buffers
        square [[1; 2; 3]] 1) = picky_compressor ∧
   OctreeCompression.outputs_after
     (OctreeCompression.compressAndIntegrate picky_compressor picky_buffers
        square [[1; 2; 3]] 1) = picky_buffers) ∨
  half_added
    (OctreeCompression.members_after
       (OctreeCompression.compressAndIntegrate picky_compressor picky_buffers
          square [[1; 2; 3]] 1)).
Proof.
  apply (octree_throw_leaves_half_added (O:=picky_octree)); [|by vm_compute].
  split_and!; [done|done|by intros ? ?%elem_of_nil|by intros ? ? ?%elem_of_nil].
Defined.

Lemma octree_new_vertices_have_faces_witness :
  ∃ tri,
    tri ∈ drop (length (OctreeCompression.polygons boxless_compressor))
             (OctreeCompression.polygons (OctreeCompression.members_after
                (OctreeCompression.compressAndIntegrate boxless_compressor
                   boxless_buffers square [[1; 2; 3]] 1))) ∧
    1 ∈ tri.
Proof.
  apply (octree_new_vertices_have_faces (O:=boxless_octree));
    [|by vm_compute|simpl; lia|vm_compute; lia].
  split_and!; [done|done|by intros ? ?%elem_of_nil|by intros ? ? ?%elem_of_nil].
Defined.

Lemma octree_reported_indices_are_stamped_witness :
  OctreeCompression.vertices_latest_time
    (OctreeCompression.members_after
       (OctreeCompression.compressAndIntegrate boxless_compressor boxless_buffers
          square [[1; 2; 3]] 7)) !! 2 = Some 7%Z.
Proof.
  apply (octree_reported_indices_are_stamped (O:=boxless_octree));
    [done|by vm_compute|].
  vm_compute. right. right. left.
Defined.

Lemma prune_is_best_effort_witness :
  length (vertices_latest_time (store small_after_refusal))
    ≤ length (active_vertices_xyz (store small_after_refusal)) ∧
  length (vertices_latest_time (store small_after_refusal))
    ≤ length (active_vertices_index (store small_after_refusal)) ∧
  ∃ log s', pruneStoredMesh 0 (store small_after_refusal) = (log, Ret s') ∧
    TimeLengthMismatch ∈ log ∧ IndexLengthMismatch ∈ log ∧
    slots_of s' = surviving 0 (store small_after_refusal) ∧ consistent s' ∧
    all_vertices s' = all_vertices (store small_after_refusal) ∧
    polygons s' = polygons (store small_after_refusal).
Proof.
  refine (prune_is_best_effort (B:=small_grid) 0 (store small_after_refusal) _ _).
  - unfold small_after_refusal, flat_call.
    refine (visited_flat (B:=small_grid) far_triangle [[0; 1; 2]] 2%Z
              (fresh_heap (store small_after_triangle) ∅) _).
    change (visited (store small_after_triangle)).
    unfold small_after_triangle, flat_call.
    refine (visited_flat (B:=small_grid) triangle [[0; 1; 2]] 1%Z
              (fresh_heap empty_store ∅) _).
    exact visited_empty.
  - intros [Htimes _].
    assert (length (vertices_latest_time (store small_after_refusal)) = 3) as H3
      by (by vm_compute).
    assert (length (active_vertices_xyz (store small_after_refusal)) = 4) as H4
      by (by vm_compute).
    rewrite H3, H4 in Htimes. discriminate Htimes.
Defined.

Lemma octree_first_pass_catches_witness :
  attempts (O:=fussy_octree) 0 (OctreeCompression.copy_members fussy_compressor)
    (imap pair square) = [Ret (); Fail BackendFailure; Ret (); Fail BackendFailure] ∧
  OctreeCompression.first_pass (O:=fussy_octree) 0
    (OctreeCompression.copy_members fussy_compressor) [] (imap pair square) =
  ([] ++ replicate
     (length (filter (λ r, caught r = true)
                (attempts (O:=fussy_octree) 0
                   (OctreeCompression.copy_members fussy_compressor)
                   (imap pair square))))
     OctreeCompression.FailedToInsert,
   Ret (temps_after (O:=fussy_octree) 0
          (OctreeCompression.copy_members fussy_compressor) (imap pair square))).
Proof.
  split; [by vm_compute|].
  apply (proj1 (octree_first_pass_catches (O:=fussy_octree) 0
                  (OctreeCompression.copy_members fussy_compressor) []
                  (imap pair square))).
  vm_compute. repeat constructor.
Defined.

Lemma prune_without_drop_is_noop_witness :
  pruneStoredMesh (B:=grid) 0 (store after_triangle) = ([], Ret (store after_triangle)).
Proof.
  apply (prune_without_drop_is_noop (B:=grid) 0 (store after_triangle)).
  - by vm_compute.
  - assert (vertices_latest_time (store after_triangle) = [1; 1; 1]%Z) as ->
      by (by vm_compute).
    repeat constructor.
  - assert (active_vertices_index (store after_triangle) = [0; 1; 2]) as ->
      by (by vm_compute).
    assert (adjacent_polygons (store after_triangle)
            = {[0 := [0]; 1 := [0]; 2 := [0]]}) as -> by (by vm_compute).
    intros v Hv.
    repeat (apply elem_of_cons in Hv as [->|Hv]); [by eexists..|].
    by apply elem_of_nil in Hv.
Defined.
